(** * Variant-aware MCP proxy (go/sdk/variants): model and properties

    A shallow embedding of the Go package [variants]: the variant registry
    ([Server], [addVariant], [Variants], [RankedVariants]), the default
    ranking ([defaultRankingFunc], [statusWeight]), the capability union
    ([unionCapabilities]), the cursor codec ([wrapCursor], [unwrapCursor]),
    the dispatcher ([getSession], [enrichError], [handle]) and the session
    life cycle ([createSessionState], [sessionMiddleware],
    [enrichInitResult]).

    Go strings are byte strings ([string]); Go [int] is a 64-bit two's
    complement integer (a [Z] with the wrap-around of [int_wrap]); Go maps
    are [gmap]s, with [option] for a map or pointer that may be nil. *)

From Stdlib Require Import ZArith NArith Lia Ascii String List.
From stdpp Require Import gmap strings list fin_maps sorting.

#[local] Open Scope string_scope.
#[local] Open Scope list_scope.
#[local] Set Warnings "-register-all".

(** ** Go values *)

(** A Go value of interface type [any] as the package handles it: what
    [encoding/json] produces when it decodes into [any], and what the
    package stores in a [map[string]any]. Numbers are kept as integers; no
    function of the package inspects one. *)
Inductive any : Type :=
  | ANil
  | ABool (b : bool)
  | ANum (n : Z)
  | AStr (s : string)
  | AList (l : list any)
  | AMap (m : gmap string any).

(** The outcome of a Go call that may panic. *)
Inductive result (A : Type) : Type :=
  | Ok (a : A)
  | Panic (msg : string).
Arguments Ok {A} a.
Arguments Panic {A} msg.

(** ** Go [int] *)

Definition int_min : Z := - 2 ^ 63.
Definition int_max : Z := 2 ^ 63 - 1.

(** The value a 64-bit signed operation leaves: the result modulo [2^64],
    read as two's complement. *)
Definition int_wrap (z : Z) : Z := (z + 2 ^ 63) mod 2 ^ 64 - 2 ^ 63.

Definition int_sub (a b : Z) : Z := int_wrap (a - b).

(** ** Variant descriptors (variant.go) *)

Definition VariantStatus := string.
Definition Stable : VariantStatus := "stable".
Definition Experimental : VariantStatus := "experimental".
Definition Deprecated : VariantStatus := "deprecated".

Record DeprecationInfo : Type := mkDeprecationInfo {
  Message : string;
  Replacement : string;
  RemovalDate : string
}.

Record ServerVariant : Type := mkServerVariant {
  ID : string;
  Description : string;
  Hints : option (gmap string string);
  priority : Z;
  Status : VariantStatus;
  Deprecation : option DeprecationInfo
}.

Definition Priority (v : ServerVariant) : Z := priority v.

Record VariantHints : Type := mkVariantHints {
  hintsDescription : string;
  hintsMap : option (gmap string any)
}.

(** The zero value [VariantHints{}]. *)
Definition noHints : VariantHints := mkVariantHints "" None.

(** [HintValue[string]]: the hint stored under [key], when it is a string. *)
Definition HintValue_string (h : VariantHints) (key : string) : string * bool :=
  match hintsMap h with
  | None => ("", false)
  | Some m =>
      match m !! key with
      | Some (AStr t) => (t, true)
      | _ => ("", false)
      end
  end.

(** A ranking function receives the hints and a slice it may reorder, and
    returns the ranked slice. The context argument carries no data the
    package reads. *)
Definition RankingFunc := VariantHints -> list ServerVariant -> list ServerVariant.

(** ** Default ranking (ranking.go) *)

Definition statusWeight (s : VariantStatus) : Z :=
  if bool_decide (s = Stable \/ s = "") then 0
  else if bool_decide (s = Experimental) then 1
  else if bool_decide (s = Deprecated) then 2
  else 3.

(** The comparison closure handed to [slices.SortStableFunc]. *)
Definition rankCmp (a b : ServerVariant) : Z :=
  if bool_decide (Priority a <> Priority b)
  then int_sub (Priority a) (Priority b)
  else int_sub (statusWeight (Status a)) (statusWeight (Status b)).

(** [slices.SortStableFunc] of the Go library, by its insertion sort
    ([insertionSortCmpFunc]): each element in turn moves left while it
    compares below its left neighbour. The library runs exactly this on a
    slice shorter than 20 elements; on a longer one it insertion-sorts
    blocks of 20 and merges them, which gives the same slice whenever the
    comparison is a strict weak order.

    [sink cmp x before] takes the elements before [x], nearest first. *)
Fixpoint sink {A : Type} (cmp : A -> A -> Z) (x : A) (before : list A) : list A :=
  match before with
  | [] => [x]
  | y :: ys => if (cmp x y <? 0)%Z then y :: sink cmp x ys else x :: y :: ys
  end.

Definition SortStableFunc {A : Type} (cmp : A -> A -> Z) (data : list A) : list A :=
  rev (fold_left (fun before x => sink cmp x before) data []).

Definition defaultRankingFunc : RankingFunc :=
  fun _ vs => SortStableFunc rankCmp vs.

(** ** The registry (server.go) *)

(** What connecting to an inner [mcp.Server] over an in-memory transport
    pair comes to: both ends connect, or the server end fails, or the
    client end fails after the server end is up. *)
Inductive connectOutcome : Type :=
  | ConnectOk
  | ServerConnectFails (msg : string)
  | ClientConnectFails (msg : string).

(** An inner [*mcp.Server], by its identity and how connecting to it ends. *)
Record mcpServer : Type := mkMcpServer {
  server_id : nat;
  server_connect : connectOutcome
}.

(** The [backend] interface; [inMemoryBackend] is its one implementation. *)
Inductive backend : Type :=
  | inMemoryBackend (server : mcpServer).

Record variantEntry : Type := mkVariantEntry {
  variant : ServerVariant;
  entry_backend : backend
}.

Record Server : Type := mkServer {
  variants : list variantEntry;
  rankingFunc : option RankingFunc
}.

Definition NewServer : Server := mkServer [] None.

Definition withPriority (v : ServerVariant) (p : Z) : ServerVariant :=
  mkServerVariant (ID v) (Description v) (Hints v) p (Status v) (Deprecation v).

Definition addVariant (s : Server) (v : ServerVariant) (b : backend) (p : Z)
  : result Server :=
  if existsb (fun e => bool_decide (ID (variant e) = ID v)) (variants s)
  then Panic ("variants: duplicate variant ID: " +:+ ID v)
  else Ok (mkServer (variants s ++ [mkVariantEntry (withPriority v p) b])
                    (rankingFunc s)).

Definition WithVariant (s : Server) (v : ServerVariant) (srv : mcpServer) (p : Z)
  : result Server :=
  addVariant s v (inMemoryBackend srv) p.

Definition WithRanking (s : Server) (fn : option RankingFunc) : Server :=
  mkServer (variants s) fn.

(** The contents of the slice [Variants] builds: one descriptor per entry,
    copied by value. *)
Definition Variants (s : Server) : list ServerVariant :=
  map variant (variants s).

Definition RankedVariants (s : Server) (hints : VariantHints) : list ServerVariant :=
  let all := Variants s in
  if bool_decide (length all = 0%nat) then all
  else
    let rankFn := match rankingFunc s with
                  | Some fn => fn
                  | None => defaultRankingFunc
                  end in
    rankFn hints all.

(** ** Capabilities (the [mcp.ServerCapabilities] the package reads) *)

Module mcp.

Record ToolCapabilities : Type := mkToolCapabilities {
  tools_ListChanged : bool
}.

Record ResourceCapabilities : Type := mkResourceCapabilities {
  resources_Subscribe : bool;
  resources_ListChanged : bool
}.

Record PromptCapabilities : Type := mkPromptCapabilities {
  prompts_ListChanged : bool
}.

(** [Completions] and [Logging] point to empty marker structs; the model
    keeps the address, so that two markers can be told apart. *)
Record ServerCapabilities : Type := mkServerCapabilities {
  Completions : option nat;
  Experimental : option (gmap string any);
  Logging : option nat;
  Prompts : option PromptCapabilities;
  Resources : option ResourceCapabilities;
  Tools : option ToolCapabilities
}.

Definition emptyCapabilities : ServerCapabilities :=
  mkServerCapabilities None None None None None None.

End mcp.

(** The loop [for k, v := range caps.Experimental] of [unionCapabilities]:
    a key already present in the union keeps its value. *)
Definition mergeExperimental (union caps : gmap string any) : gmap string any :=
  map_fold (fun k v acc => match acc !! k with
                           | Some _ => acc
                           | None => <[k := v]> acc
                           end) union caps.

(** One iteration of the loop of [unionCapabilities]. *)
Definition unionStep (union : mcp.ServerCapabilities) (caps : option mcp.ServerCapabilities)
  : mcp.ServerCapabilities :=
  match caps with
  | None => union
  | Some caps =>
      let tools :=
        match mcp.Tools caps with
        | Some t =>
            let u := default (mcp.mkToolCapabilities false) (mcp.Tools union) in
            Some (mcp.mkToolCapabilities (mcp.tools_ListChanged u || mcp.tools_ListChanged t))
        | None => mcp.Tools union
        end in
      let resources :=
        match mcp.Resources caps with
        | Some r =>
            let u := default (mcp.mkResourceCapabilities false false) (mcp.Resources union) in
            Some (mcp.mkResourceCapabilities
                    (mcp.resources_Subscribe u || mcp.resources_Subscribe r)
                    (mcp.resources_ListChanged u || mcp.resources_ListChanged r))
        | None => mcp.Resources union
        end in
      let prompts :=
        match mcp.Prompts caps with
        | Some p =>
            let u := default (mcp.mkPromptCapabilities false) (mcp.Prompts union) in
            Some (mcp.mkPromptCapabilities (mcp.prompts_ListChanged u || mcp.prompts_ListChanged p))
        | None => mcp.Prompts union
        end in
      let completions :=
        match mcp.Completions caps, mcp.Completions union with
        | Some c, None => Some c
        | _, u => u
        end in
      let logging :=
        match mcp.Logging caps, mcp.Logging union with
        | Some l, None => Some l
        | _, u => u
        end in
      let experimental :=
        match mcp.Experimental caps with
        | Some e => Some (mergeExperimental (default ∅ (mcp.Experimental union)) e)
        | None => mcp.Experimental union
        end in
      mcp.mkServerCapabilities completions experimental logging prompts resources tools
  end.

Definition unionCapabilities (allCaps : list (option mcp.ServerCapabilities))
  : mcp.ServerCapabilities :=
  fold_left unionStep allCaps mcp.emptyCapabilities.

(** ** Bytes *)

Definition bytes := list ascii.

Definition byte_of (n : N) : ascii := ascii_of_N (N.land n 255).

Abbreviation code := N_of_ascii (only parsing).

(** ** [unicode/utf8] of the Go library *)

Module utf8.

Definition RuneError : N := 65533.
Definition MaxRune : N := 1114111.

Definition between (lo hi b : N) : bool := ((lo <=? b) && (b <=? hi))%N.

(** The second byte a leading byte accepts ([acceptRanges]), and the length
    of the sequence it starts; [None] for a byte that starts no sequence. *)
Definition leading (p0 : N) : option (nat * N * N) :=
  if between 194 223 p0 then Some (2%nat, 128, 191)%N
  else if (p0 =? 224)%N then Some (3%nat, 160, 191)%N
  else if between 225 236 p0 then Some (3%nat, 128, 191)%N
  else if (p0 =? 237)%N then Some (3%nat, 128, 159)%N
  else if between 238 239 p0 then Some (3%nat, 128, 191)%N
  else if (p0 =? 240)%N then Some (4%nat, 144, 191)%N
  else if between 241 243 p0 then Some (4%nat, 128, 191)%N
  else if (p0 =? 244)%N then Some (4%nat, 128, 143)%N
  else None.

(** [DecodeRune]: the first rune of [p] and its width in bytes;
    [(RuneError, 1)] for a byte that starts no well-formed sequence. *)
Definition DecodeRune (p : bytes) : N * nat :=
  match p with
  | [] => (RuneError, 0%nat)
  | c0 :: p1 =>
      let p0 := code c0 in
      if (p0 <? 128)%N then (p0, 1%nat)
      else
        match leading p0 with
        | None => (RuneError, 1%nat)
        | Some (sz, lo, hi) =>
            match p1 with
            | [] => (RuneError, 1%nat)
            | c1 :: p2 =>
                let b1 := code c1 in
                if negb (between lo hi b1) then (RuneError, 1%nat)
                else if (sz <=? 2)%nat
                then (N.lor (N.shiftl (N.land p0 31) 6) (N.land b1 63), 2%nat)
                else
                  match p2 with
                  | [] => (RuneError, 1%nat)
                  | c2 :: p3 =>
                      let b2 := code c2 in
                      if negb (between 128 191 b2) then (RuneError, 1%nat)
                      else if (sz <=? 3)%nat
                      then (N.lor (N.lor (N.shiftl (N.land p0 15) 12)
                                         (N.shiftl (N.land b1 63) 6))
                                  (N.land b2 63), 3%nat)
                      else
                        match p3 with
                        | [] => (RuneError, 1%nat)
                        | c3 :: _ =>
                            let b3 := code c3 in
                            if negb (between 128 191 b3) then (RuneError, 1%nat)
                            else (N.lor (N.lor (N.lor (N.shiftl (N.land p0 7) 18)
                                                      (N.shiftl (N.land b1 63) 12))
                                               (N.shiftl (N.land b2 63) 6))
                                        (N.land b3 63), 4%nat)
                        end
                  end
            end
        end
  end.

(** [AppendRune]/[EncodeRune]: the UTF-8 encoding of a rune; a surrogate or
    a value above [MaxRune] is encoded as [RuneError]. *)
Definition EncodeRune (r : N) : bytes :=
  if (r <=? 127)%N then [byte_of r]
  else if (r <=? 2047)%N
  then [byte_of (N.lor 192 (N.shiftr r 6)); byte_of (N.lor 128 (N.land r 63))]
  else if ((MaxRune <? r) || between 55296 57343 r)%N
  then [byte_of 239; byte_of 191; byte_of 189]
  else if (r <=? 65535)%N
  then [byte_of (N.lor 224 (N.shiftr r 12));
        byte_of (N.lor 128 (N.land (N.shiftr r 6) 63));
        byte_of (N.lor 128 (N.land r 63))]
  else [byte_of (N.lor 240 (N.shiftr r 18));
        byte_of (N.lor 128 (N.land (N.shiftr r 12) 63));
        byte_of (N.lor 128 (N.land (N.shiftr r 6) 63));
        byte_of (N.lor 128 (N.land r 63))].

(** [ValidString], walking the bytes with the number still to skip. *)
Fixpoint validFrom (skip : nat) (s : bytes) : bool :=
  match s with
  | [] => true
  | _ :: rest =>
      match skip with
      | S k => validFrom k rest
      | O =>
          let '(r, size) := DecodeRune s in
          if ((r =? RuneError)%N && (size =? 1)%nat) then false
          else validFrom (size - 1) rest
      end
  end.

Definition Valid (s : bytes) : bool := validFrom 0 s.

End utf8.

(** ** [encoding/base64] of the Go library: [StdEncoding] *)

Module base64.

Definition encodeStd : bytes :=
  list_ascii_of_string
    "ABCDEFGHIJKLMNOPQRSTUVWXYZabcdefghijklmnopqrstuvwxyz0123456789+/".

Definition padChar : ascii := "="%char.

Definition encodeChar (n : N) : ascii := nth (N.to_nat n) encodeStd "A"%char.

Fixpoint indexOf (c : ascii) (l : bytes) (i : N) : option N :=
  match l with
  | [] => None
  | x :: l' => if Ascii.eqb x c then Some i else indexOf c l' (N.succ i)
  end.

(** [decodeMap]: the value of an alphabet character. *)
Definition decodeChar (c : ascii) : option N := indexOf c encodeStd 0.

Fixpoint Encode (src : bytes) : bytes :=
  match src with
  | [] => []
  | [a] =>
      let val := N.shiftl (code a) 16 in
      [encodeChar (N.land (N.shiftr val 18) 63);
       encodeChar (N.land (N.shiftr val 12) 63);
       padChar; padChar]
  | [a; b] =>
      let val := N.lor (N.shiftl (code a) 16) (N.shiftl (code b) 8) in
      [encodeChar (N.land (N.shiftr val 18) 63);
       encodeChar (N.land (N.shiftr val 12) 63);
       encodeChar (N.land (N.shiftr val 6) 63);
       padChar]
  | a :: b :: c :: rest =>
      let val := N.lor (N.lor (N.shiftl (code a) 16) (N.shiftl (code b) 8)) (code c) in
      encodeChar (N.land (N.shiftr val 18) 63)
      :: encodeChar (N.land (N.shiftr val 12) 63)
      :: encodeChar (N.land (N.shiftr val 6) 63)
      :: encodeChar (N.land val 63)
      :: Encode rest
  end.

Definition isNewline (c : ascii) : bool :=
  Ascii.eqb c "010"%char || Ascii.eqb c "013"%char.

Fixpoint skipNewlines (s : bytes) : bytes :=
  match s with
  | c :: rest => if isNewline c then skipNewlines rest else s
  | [] => []
  end.

(** The bytes of one quantum: four 6-bit values give three bytes, of which
    a padded quantum keeps the first one or two. *)
Definition quantum (d0 d1 d2 d3 : N) : bytes :=
  let val := N.lor (N.lor (N.lor (N.shiftl d0 18) (N.shiftl d1 12)) (N.shiftl d2 6)) d3 in
  [byte_of (N.shiftr val 16); byte_of (N.shiftr val 8); byte_of val].

(** [Decode], quantum by quantum ([decodeQuantum]); [dbuf] holds the values
    read so far in the current quantum. Line breaks are skipped, padding is
    required and may only end the input; the encoding is not strict, so the
    unused low bits of a padded quantum are not checked. *)
Fixpoint decodeFrom (src : bytes) (dbuf : list N) : option bytes :=
  match src with
  | [] => match dbuf with [] => Some [] | _ => None end
  | c :: rest =>
      match decodeChar c with
      | Some v =>
          match dbuf with
          | [d0; d1; d2] =>
              match decodeFrom rest [] with
              | Some out => Some (quantum d0 d1 d2 v ++ out)
              | None => None
              end
          | _ => decodeFrom rest (dbuf ++ [v])
          end
      | None =>
          if isNewline c then decodeFrom rest dbuf
          else if Ascii.eqb c padChar then
            match dbuf with
            | [d0; d1] =>
                match skipNewlines rest with
                | c' :: rest' =>
                    if Ascii.eqb c' padChar then
                      match skipNewlines rest' with
                      | [] => Some (take 1 (quantum d0 d1 0 0))
                      | _ => None
                      end
                    else None
                | [] => None
                end
            | [d0; d1; d2] =>
                match skipNewlines rest with
                | [] => Some (take 2 (quantum d0 d1 d2 0))
                | _ => None
                end
            | _ => None
            end
          else None
      end
  end.

Definition EncodeToString (src : bytes) : string :=
  string_of_list_ascii (Encode src).

Definition DecodeString (s : string) : option bytes :=
  decodeFrom (list_ascii_of_string s) [].

End base64.

(** ** [encoding/json] of the Go library, on the cursor struct *)

Record variantCursor : Type := mkVariantCursor {
  VariantID : string;
  InnerCursor : string
}.

Module json.

Definition quote : ascii := "034"%char.
Definition backslash : ascii := "\"%char.

Definition hex : bytes := list_ascii_of_string "0123456789abcdef".
Definition hexDigit (n : N) : ascii := nth (N.to_nat n) hex "0"%char.

(** A byte below [0x80] that [Marshal] copies as it is ([htmlSafeSet]). *)
Definition htmlSafe (c : ascii) : bool :=
  let n := code c in
  (32 <=? n)%N && (n <? 128)%N
  && negb (Ascii.eqb c quote) && negb (Ascii.eqb c backslash)
  && negb (Ascii.eqb c "<"%char) && negb (Ascii.eqb c ">"%char)
  && negb (Ascii.eqb c "&"%char).

(** The escape [appendString] writes for a byte below [0x80] that is not
    copied. *)
Definition escapeASCII (c : ascii) : bytes :=
  if Ascii.eqb c backslash || Ascii.eqb c quote then [backslash; c]
  else if Ascii.eqb c "008"%char then [backslash; "b"%char]
  else if Ascii.eqb c "012"%char then [backslash; "f"%char]
  else if Ascii.eqb c "010"%char then [backslash; "n"%char]
  else if Ascii.eqb c "013"%char then [backslash; "r"%char]
  else if Ascii.eqb c "009"%char then [backslash; "t"%char]
  else [backslash; "u"%char; "0"%char; "0"%char;
        hexDigit (N.shiftr (code c) 4); hexDigit (N.land (code c) 15)].

(** The loop of [appendString] (with [escapeHTML] set, as [Marshal] does):
    [skip] counts the bytes of the current rune still to pass. *)
Fixpoint appendFrom (skip : nat) (src : bytes) : bytes :=
  match src with
  | [] => []
  | c :: rest =>
      match skip with
      | S k => appendFrom k rest
      | O =>
          if (code c <? 128)%N then
            (if htmlSafe c then [c] else escapeASCII c) ++ appendFrom 0 rest
          else
            let '(r, size) := utf8.DecodeRune src in
            if ((r =? utf8.RuneError)%N && (size =? 1)%nat)
            then [backslash; "u"%char; "f"%char; "f"%char; "f"%char; "d"%char]
                 ++ appendFrom 0 rest
            else if ((r =? 8232)%N || (r =? 8233)%N)
            then [backslash; "u"%char; "2"%char; "0"%char; "2"%char;
                  hexDigit (N.land r 15)] ++ appendFrom (size - 1) rest
            else take size src ++ appendFrom (size - 1) rest
      end
  end.

Definition appendString (src : bytes) : bytes :=
  quote :: appendFrom 0 src ++ [quote].

(** [Marshal] of a [variantCursor]: its two fields under their tags, in the
    order of declaration. Encoding a string cannot fail. *)
Definition Marshal (w : variantCursor) : bytes :=
  "{"%char :: appendString (list_ascii_of_string "v") ++ ":"%char
  :: appendString (list_ascii_of_string (VariantID w)) ++ ","%char
  :: appendString (list_ascii_of_string "c") ++ ":"%char
  :: appendString (list_ascii_of_string (InnerCursor w)) ++ ["}"%char].

(** *** Reading *)

Inductive value : Type :=
  | VNull
  | VBool (b : bool)
  | VNumber (literal : bytes)
  | VString (s : bytes)
  | VArray (elements : list value)
  | VObject (members : list (bytes * value)).

Definition isSpace (c : ascii) : bool :=
  Ascii.eqb c " "%char || Ascii.eqb c "009"%char
  || Ascii.eqb c "013"%char || Ascii.eqb c "010"%char.

Fixpoint skipSpace (s : bytes) : bytes :=
  match s with
  | c :: rest => if isSpace c then skipSpace rest else s
  | [] => []
  end.

Definition hexVal (c : ascii) : option N :=
  let n := code c in
  if utf8.between 48 57 n then Some (n - 48)%N
  else if utf8.between 97 102 n then Some (n - 87)%N
  else if utf8.between 65 70 n then Some (n - 55)%N
  else None.

(** [getu4]: the value of a [\uXXXX] escape at the head of [s]. *)
Definition getu4 (s : bytes) : option N :=
  match s with
  | b0 :: u :: h1 :: h2 :: h3 :: h4 :: _ =>
      if Ascii.eqb b0 backslash && Ascii.eqb u "u"%char then
        match hexVal h1, hexVal h2, hexVal h3, hexVal h4 with
        | Some a, Some b, Some c, Some d =>
            Some (N.lor (N.lor (N.lor (N.shiftl a 12) (N.shiftl b 8)) (N.shiftl c 4)) d)
        | _, _, _, _ => None
        end
      else None
  | _ => None
  end.

(** The scanner inside a string literal, after the opening quote: the raw
    text up to the closing quote, and what follows it. *)
Fixpoint scanString (s : bytes) : option (bytes * bytes) :=
  match s with
  | [] => None
  | c :: rest =>
      if Ascii.eqb c quote then Some ([], rest)
      else if Ascii.eqb c backslash then
        match rest with
        | [] => None
        | e :: rest1 =>
            if existsb (Ascii.eqb e) (quote :: list_ascii_of_string "\/bfnrt") then
              match scanString rest1 with
              | Some (raw, after) => Some (c :: e :: raw, after)
              | None => None
              end
            else if Ascii.eqb e "u"%char then
              match rest1 with
              | h1 :: h2 :: h3 :: h4 :: rest2 =>
                  match getu4 s, scanString rest2 with
                  | Some _, Some (raw, after) =>
                      Some (c :: e :: h1 :: h2 :: h3 :: h4 :: raw, after)
                  | _, _ => None
                  end
              | _ => None
              end
            else None
        end
      else if (code c <? 32)%N then None
      else
        match scanString rest with
        | Some (raw, after) => Some (c :: raw, after)
        | None => None
        end
  end.

(** [utf16.DecodeRune]: the rune of a surrogate pair, [RuneError] when the
    two values are not one. *)
Definition utf16DecodeRune (r1 : N) (r2 : option N) : N :=
  match r2 with
  | Some r2 =>
      if utf8.between 55296 56319 r1 && utf8.between 56320 57343 r2
      then (N.lor (N.shiftl (r1 - 55296) 10) (r2 - 56320) + 65536)%N
      else utf8.RuneError
  | None => utf8.RuneError
  end.

Definition simpleEscape (e : ascii) : option ascii :=
  if Ascii.eqb e quote || Ascii.eqb e backslash || Ascii.eqb e "/"%char
     || Ascii.eqb e "'"%char then Some e
  else if Ascii.eqb e "b"%char then Some "008"%char
  else if Ascii.eqb e "f"%char then Some "012"%char
  else if Ascii.eqb e "n"%char then Some "010"%char
  else if Ascii.eqb e "r"%char then Some "013"%char
  else if Ascii.eqb e "t"%char then Some "009"%char
  else None.

(** The loop of [unquoteBytes] over the raw text of a literal; [skip]
    counts the bytes of the current escape or rune still to pass. *)
Fixpoint unquoteFrom (skip : nat) (s : bytes) : option bytes :=
  match s with
  | [] => Some []
  | c :: rest =>
      match skip with
      | S k => unquoteFrom k rest
      | O =>
          if Ascii.eqb c backslash then
            match rest with
            | [] => None
            | e :: _ =>
                match simpleEscape e with
                | Some x => option_map (cons x) (unquoteFrom 1 rest)
                | None =>
                    if Ascii.eqb e "u"%char then
                      match getu4 s with
                      | None => None
                      | Some rr =>
                          if utf8.between 55296 57343 rr then
                            let dec := utf16DecodeRune rr (getu4 (drop 6 s)) in
                            if negb (dec =? utf8.RuneError)%N
                            then option_map (app (utf8.EncodeRune dec))
                                            (unquoteFrom 11 rest)
                            else option_map (app (utf8.EncodeRune utf8.RuneError))
                                            (unquoteFrom 5 rest)
                          else option_map (app (utf8.EncodeRune rr))
                                          (unquoteFrom 5 rest)
                      end
                    else None
                end
            end
          else if Ascii.eqb c quote || (code c <? 32)%N then None
          else if (code c <? 128)%N then option_map (cons c) (unquoteFrom 0 rest)
          else
            let '(rr, size) := utf8.DecodeRune s in
            option_map (app (utf8.EncodeRune rr)) (unquoteFrom (size - 1) rest)
      end
  end.

Definition isDigit (c : ascii) : bool := utf8.between 48 57 (code c).

Fixpoint digits (s : bytes) : bytes * bytes :=
  match s with
  | c :: rest =>
      if isDigit c then let '(ds, after) := digits rest in (c :: ds, after)
      else ([], s)
  | [] => ([], [])
  end.

(** The scanner on a number: sign, integer part without a leading zero,
    fraction, exponent. *)
Definition scanNumber (s : bytes) : option (bytes * bytes) :=
  let '(sign, s1) := match s with
                     | c :: r => if Ascii.eqb c "-"%char then ([c], r) else ([], s)
                     | [] => ([], s)
                     end in
  match s1 with
  | [] => None
  | d :: r =>
      if negb (isDigit d) then None
      else
        let '(int, s2) := if Ascii.eqb d "0"%char then ([d], r)
                          else let '(ds, after) := digits r in (d :: ds, after) in
        let frac :=
          match s2 with
          | p :: r2 =>
              if Ascii.eqb p "."%char then
                match digits r2 with
                | ([], _) => None
                | (ds, after) => Some (p :: ds, after)
                end
              else Some ([], s2)
          | [] => Some ([], s2)
          end in
        match frac with
        | None => None
        | Some (fr, s3) =>
            let exp :=
              match s3 with
              | e :: r3 =>
                  if Ascii.eqb e "e"%char || Ascii.eqb e "E"%char then
                    let '(sg, r4) :=
                      match r3 with
                      | g :: r' => if Ascii.eqb g "+"%char || Ascii.eqb g "-"%char
                                   then ([g], r') else ([], r3)
                      | [] => ([], r3)
                      end in
                    match digits r4 with
                    | ([], _) => None
                    | (ds, after) => Some (e :: sg ++ ds, after)
                    end
                  else Some ([], s3)
              | [] => Some ([], s3)
              end in
            match exp with
            | None => None
            | Some (ex, s4) => Some (sign ++ int ++ fr ++ ex, s4)
            end
        end
  end.

Definition maxNestingDepth : N := 10000.

Fixpoint stripPrefix (p s : bytes) : option bytes :=
  match p, s with
  | [], _ => Some s
  | a :: p', c :: s' => if Ascii.eqb a c then stripPrefix p' s' else None
  | _ :: _, [] => None
  end.

(** One JSON value at the head of [s] (after white space), and the text
    after it. [fuel] bounds the number of values and members read; the
    length of the text is always enough. *)
Fixpoint readValue (fuel : nat) (depth : N) (s : bytes) : option (value * bytes) :=
  match fuel with
  | O => None
  | S fuel =>
      match skipSpace s with
      | [] => None
      | c :: rest =>
          if Ascii.eqb c "{"%char then
            if (maxNestingDepth <=? depth)%N then None
            else
              match skipSpace rest with
              | c' :: rest' =>
                  if Ascii.eqb c' "}"%char then Some (VObject [], rest')
                  else
                    match readMembers fuel (depth + 1) rest with
                    | Some (ms, after) => Some (VObject ms, after)
                    | None => None
                    end
              | [] => None
              end
          else if Ascii.eqb c "["%char then
            if (maxNestingDepth <=? depth)%N then None
            else
              match skipSpace rest with
              | c' :: rest' =>
                  if Ascii.eqb c' "]"%char then Some (VArray [], rest')
                  else
                    match readElements fuel (depth + 1) rest with
                    | Some (es, after) => Some (VArray es, after)
                    | None => None
                    end
              | [] => None
              end
          else if Ascii.eqb c quote then
            match scanString rest with
            | Some (raw, after) =>
                match unquoteFrom 0 raw with
                | Some t => Some (VString t, after)
                | None => None
                end
            | None => None
            end
          else if Ascii.eqb c "t"%char then
            option_map (pair (VBool true)) (stripPrefix (list_ascii_of_string "rue") rest)
          else if Ascii.eqb c "f"%char then
            option_map (pair (VBool false)) (stripPrefix (list_ascii_of_string "alse") rest)
          else if Ascii.eqb c "n"%char then
            option_map (pair VNull) (stripPrefix (list_ascii_of_string "ull") rest)
          else
            match scanNumber (c :: rest) with
            | Some (lit, after) => Some (VNumber lit, after)
            | None => None
            end
      end
  end
with readMembers (fuel : nat) (depth : N) (s : bytes)
  : option (list (bytes * value) * bytes) :=
  match fuel with
  | O => None
  | S fuel =>
      match skipSpace s with
      | c :: rest =>
          if Ascii.eqb c quote then
            match scanString rest with
            | Some (raw, after) =>
                match unquoteFrom 0 raw, skipSpace after with
                | Some key, c1 :: rest1 =>
                    if Ascii.eqb c1 ":"%char then
                      match readValue fuel depth rest1 with
                      | Some (v, after_v) =>
                          match skipSpace after_v with
                          | c2 :: rest2 =>
                              if Ascii.eqb c2 ","%char then
                                match readMembers fuel depth rest2 with
                                | Some (ms, after_ms) => Some ((key, v) :: ms, after_ms)
                                | None => None
                                end
                              else if Ascii.eqb c2 "}"%char then Some ([(key, v)], rest2)
                              else None
                          | [] => None
                          end
                      | None => None
                      end
                    else None
                | _, _ => None
                end
            | None => None
            end
          else None
      | [] => None
      end
  end
with readElements (fuel : nat) (depth : N) (s : bytes)
  : option (list value * bytes) :=
  match fuel with
  | O => None
  | S fuel =>
      match readValue fuel depth s with
      | Some (v, after_v) =>
          match skipSpace after_v with
          | c2 :: rest2 =>
              if Ascii.eqb c2 ","%char then
                match readElements fuel depth rest2 with
                | Some (es, after_es) => Some (v :: es, after_es)
                | None => None
                end
              else if Ascii.eqb c2 "]"%char then Some ([v], rest2)
              else None
          | [] => None
          end
      | None => None
      end
  end.

(** [checkValid] and the reading of the one value of a document: white
    space may surround it, nothing else may follow. *)
Definition readDocument (data : bytes) : option value :=
  match readValue (S (length data)) 0 data with
  | Some (v, after) =>
      match skipSpace after with
      | [] => Some v
      | _ :: _ => None
      end
  | None => None
  end.

Inductive cursorField : Type := FieldV | FieldC.

(** The field an object key names: the tag itself, or the tag under case
    folding. *)
Definition fieldOf (key : bytes) : option cursorField :=
  match key with
  | [c] =>
      if Ascii.eqb c "v"%char || Ascii.eqb c "V"%char then Some FieldV
      else if Ascii.eqb c "c"%char || Ascii.eqb c "C"%char then Some FieldC
      else None
  | _ => None
  end.

(** One member stored into the struct: a string sets the field, [null]
    leaves it, any other value is a type error; a key that names no field
    is skipped. The flag records that no type error occurred. *)
Definition storeMember (st : variantCursor * bool) (m : bytes * value)
  : variantCursor * bool :=
  let '(w, ok) := st in
  match fieldOf (fst m) with
  | None => (w, ok)
  | Some f =>
      match snd m with
      | VString t =>
          let t := string_of_list_ascii t in
          (match f with
           | FieldV => mkVariantCursor t (InnerCursor w)
           | FieldC => mkVariantCursor (VariantID w) t
           end, ok)
      | VNull => (w, ok)
      | _ => (w, false)
      end
  end.

(** [Unmarshal] into a [variantCursor] that holds [w]: the new contents, or
    [None] for the error the call returns (a syntax error, or a value of
    the wrong type). *)
Definition Unmarshal (data : bytes) (w : variantCursor) : option variantCursor :=
  match readDocument data with
  | Some VNull => Some w
  | Some (VObject members) =>
      let '(w', ok) := fold_left storeMember members (w, true) in
      if ok then Some w' else None
  | Some _ => None
  | None => None
  end.

End json.

(** ** JSON-RPC errors ([jsonrpc] of the MCP SDK) *)

Module jsonrpc.

Definition CodeInvalidParams : Z := -32602.
Definition CodeMethodNotFound : Z := -32601.

(** A [json.RawMessage], by what [encoding/json] reads in it: no bytes,
    bytes that are no JSON text, or the JSON value the bytes denote. *)
Inductive RawMessage : Type :=
  | RawEmpty
  | RawInvalid
  | RawJSON (j : any).

Record Error : Type := mkError {
  Code : Z;
  Message : string;
  Data : RawMessage
}.

End jsonrpc.

(** A Go [error]: a [*jsonrpc.Error], an error made by [errors.New], or an
    error that wraps another. *)
Inductive error : Type :=
  | ErrRPC (e : jsonrpc.Error)
  | ErrText (msg : string)
  | ErrWrap (msg : string) (cause : error).

(** [errors.As(err, &jErr)] for a target of type [*jsonrpc.Error]. *)
Fixpoint errors_As (err : error) : option jsonrpc.Error :=
  match err with
  | ErrRPC e => Some e
  | ErrText _ => None
  | ErrWrap _ cause => errors_As cause
  end.

(** The string that the text [json.Marshal] writes for a Go string
    denotes: the string itself when it is valid UTF-8, and otherwise the
    string with U+FFFD in place of each byte that is not. *)
Definition denotedString (s : string) : string :=
  match json.unquoteFrom 0 (json.appendFrom 0 (list_ascii_of_string s)) with
  | Some t => string_of_list_ascii t
  | None => s
  end.

(** The value that the text [json.Marshal] writes for a value denotes. *)
Fixpoint denotedAny (a : any) : any :=
  match a with
  | AStr s => AStr (denotedString s)
  | AList l => AList (map denotedAny l)
  | AMap m => AMap (denotedAny <$> m)
  | _ => a
  end.

(** [json.Marshal] of a [map[string]any]. The keys of the maps the package
    marshals are literals of the package or keys read from a JSON text,
    which are valid UTF-8; they are written as they are. *)
Definition marshalMap (m : gmap string any) : jsonrpc.RawMessage :=
  jsonrpc.RawJSON (AMap (denotedAny <$> m)).

(** [json.Unmarshal(raw, &data)] for [data] of type [map[string]any], with
    the error dropped: the members of an object are stored into the map,
    [null] sets the map to nil, and anything else leaves it as it was.
    A number is stored as the [float64] nearest to it; the model keeps the
    number, which is what is stored when its magnitude is at most [2^53]. *)
Definition unmarshalMap (raw : jsonrpc.RawMessage) (data : option (gmap string any))
  : option (gmap string any) :=
  match raw with
  | jsonrpc.RawJSON (AMap m) => Some (m ∪ default ∅ data)
  | jsonrpc.RawJSON ANil => None
  | _ => data
  end.

(** ** Cursor scoping (dispatcher.go) *)

Definition wrapCursor (cursor variantID : string) : string :=
  if bool_decide (cursor = "") then ""
  else base64.EncodeToString (json.Marshal (mkVariantCursor variantID cursor)).

Definition unwrapCursor (cursor expectedVariant : string) : string * option error :=
  if bool_decide (cursor = "") then ("", None)
  else
    match base64.DecodeString cursor with
    | None =>
        ("", Some (ErrRPC (jsonrpc.mkError jsonrpc.CodeInvalidParams
                             "Invalid cursor format" jsonrpc.RawEmpty)))
    | Some data =>
        match json.Unmarshal data (mkVariantCursor "" "") with
        | None =>
            ("", Some (ErrRPC (jsonrpc.mkError jsonrpc.CodeInvalidParams
                                 "Invalid cursor format" jsonrpc.RawEmpty)))
        | Some wrapped =>
            if bool_decide (VariantID wrapped <> expectedVariant) then
              let errorData : gmap string any :=
                <["cursorVariant" := AStr (VariantID wrapped)]>
                  (<["requestedVariant" := AStr expectedVariant]> ∅) in
              ("", Some (ErrRPC (jsonrpc.mkError jsonrpc.CodeInvalidParams
                                   "Cursor invalid for requested variant"
                                   (marshalMap errorData))))
            else (InnerCursor wrapped, None)
        end
    end.

(** ** Requests and results (the [mcp] types the package handles) *)

(** Modelled from the spec: the constants [extensionID] and
    [metaKeyVariant], whose declaration is not among the sources; the
    plural key names the capability, the singular one selects a variant. *)
Definition extensionID : string := "io.modelcontextprotocol/server-variants".
Definition metaKeyVariant : string := "io.modelcontextprotocol/server-variant".

Inductive listKind : Type :=
  | ListTools
  | ListResources
  | ListPrompts
  | ListResourceTemplates.

#[global] Instance listKind_eq_dec : EqDecision listKind.
Proof. solve_decision. Defined.

Record ClientCapabilities : Type := mkClientCapabilities {
  client_Experimental : option (gmap string any)
}.

(** The parameter structs, by their type and the fields the package reads. *)
Inductive payload : Type :=
  | PList (k : listKind) (cursor : string)
  | PCallToolRaw (name : string) (arguments : any)
  | PCallTool (name : string) (arguments : any)
  | PReadResource (uri : string)
  | PGetPrompt (name : string) (arguments : any)
  | PSubscribe (uri : string)
  | PUnsubscribe (uri : string)
  | PComplete (argument : any)
  | PInitialize (capabilities : option ClientCapabilities)
  | POther (a : any).

Record Params : Type := mkParams {
  Meta : option (gmap string any);
  body : payload
}.

(** A request: the front session it arrived on and its parameters; [None]
    stands for nil parameters, also for a nil pointer inside the interface. *)
Record Request : Type := mkRequest {
  GetSession : nat;
  GetParams : option Params
}.

Record InitializeResult : Type := mkInitializeResult {
  Capabilities : option mcp.ServerCapabilities;
  ServerInfo : any
}.

Inductive Result : Type :=
  | RList (items : any) (NextCursor : string)
  | RInitialize (r : InitializeResult)
  | RValue (a : any).

(** What a handler returns: [(nil, err)], or [(result, nil)] with a result
    that may be nil. *)
Definition reply : Type := error + option Result.

(** ** Per-session state (session.go) *)

Record innerConnection : Type := mkInnerConnection {
  clientSession : nat;
  cleanupFn : option nat
}.

Record dispatcher : Type := mkDispatcher {
  server : Server;
  connections : gmap string innerConnection
}.

Record sessionState : Type := mkSessionState {
  state_dispatcher : dispatcher
}.

(** What the package does to the sessions of inner connections, in order:
    a session handle is opened or closed, or a request is sent on a client
    session. *)
Inductive event : Type :=
  | EvOpen (h : nat)
  | EvClose (h : nat)
  | EvCall (session : nat) (method : string) (p : option Params).

(** The state around the package: the events so far, the next free session
    handle, the middleware's map from front sessions to their state, and
    the answers of the inner servers. *)
Record World : Type := mkWorld {
  trace : list event;
  nextHandle : nat;
  sessions : gmap nat sessionState;
  innerReply : nat -> string -> option Params -> reply
}.

(** A computation on the world that may panic. *)
Definition M (A : Type) : Type := World -> result (A * World).

Definition ret {A : Type} (a : A) : M A := fun w => Ok (a, w).

Definition bind {A B : Type} (m : M A) (k : A -> M B) : M B :=
  fun w => match m w with
           | Ok (a, w') => k a w'
           | Panic msg => Panic msg
           end.

Notation "'do' x <- m ; k" := (bind m (fun x => k))
  (at level 10, x pattern, m at level 100, k at level 200).

Definition emit (e : event) : M unit :=
  fun w => Ok (tt, mkWorld (trace w ++ [e]) (nextHandle w) (sessions w) (innerReply w)).

Definition openSession : M nat :=
  fun w => Ok (nextHandle w,
               mkWorld (trace w ++ [EvOpen (nextHandle w)]) (S (nextHandle w))
                       (sessions w) (innerReply w)).

Definition panic {A : Type} (msg : string) : M A := fun _ => Panic msg.

Fixpoint forEach {A : Type} (f : A -> M unit) (l : list A) : M unit :=
  match l with
  | [] => ret tt
  | x :: l' => do _ <- f x; forEach f l'
  end.

(** A request on an inner client session: the call is recorded and the
    inner server answers. *)
Definition call (session : nat) (method : string) (p : option Params) : M reply :=
  fun w => Ok (innerReply w session method p,
               mkWorld (trace w ++ [EvCall session method p]) (nextHandle w)
                       (sessions w) (innerReply w)).

Definition MethodHandler : Type := string -> Request -> M reply.

Definition innerConnection_close (c : innerConnection) : M unit :=
  do _ <- emit (EvClose (clientSession c));
  match cleanupFn c with
  | Some ss => emit (EvClose ss)
  | None => ret tt
  end.

(** [range] over a map of connections visits each once, in no fixed order;
    the model takes the order of [map_to_list]. *)
Definition closeAll (conns : gmap string innerConnection) : M unit :=
  forEach innerConnection_close (snd <$> map_to_list conns).

Definition sessionState_close (ss : sessionState) : M unit :=
  closeAll (connections (state_dispatcher ss)).

Definition liftResult {A : Type} (r : result A) : M A :=
  fun w => match r with
           | Ok a => Ok (a, w)
           | Panic msg => Panic msg
           end.

(** ** Backends (backend.go) *)

(** [inMemoryBackend.connect]: the server end of the transport pair is
    connected, then the proxy client; when the client fails the server
    session is closed again. The cleanup function of the connection closes
    the server session. *)
Definition connect (b : backend) (v : ServerVariant) (frontSession : option nat)
  : M (error + innerConnection) :=
  match b with
  | inMemoryBackend srv =>
      match server_connect srv with
      | ServerConnectFails msg => ret (inl (ErrText msg))
      | ClientConnectFails msg =>
          do serverSession <- openSession;
          do _ <- emit (EvClose serverSession);
          ret (inl (ErrText msg))
      | ConnectOk =>
          do serverSession <- openSession;
          do cs <- openSession;
          ret (inr (mkInnerConnection cs (Some serverSession)))
      end
  end.

(** ** Session life cycle (session.go) *)

(** The loop of [createSessionState] over the registered entries. *)
Fixpoint connectEntries (entries : list variantEntry) (frontSession : option nat)
    (conns : gmap string innerConnection)
  : M (error + gmap string innerConnection) :=
  match entries with
  | [] => ret (inr conns)
  | entry :: rest =>
      do r <- connect (entry_backend entry) (variant entry) frontSession;
      match r with
      | inl err =>
          do _ <- closeAll conns;
          ret (inl err)
      | inr conn =>
          connectEntries rest frontSession (<[ID (variant entry) := conn]> conns)
      end
  end.

Definition createSessionState (s : Server) (frontSession : option nat)
  : M (error + sessionState) :=
  do r <- connectEntries (variants s) frontSession ∅;
  match r with
  | inl err => ret (inl err)
  | inr conns => ret (inr (mkSessionState (mkDispatcher s conns)))
  end.

(** ** Initialize helpers (server.go) *)

Definition extractVariantHints (req : Request) : VariantHints :=
  match GetParams req with
  | Some (mkParams _ (PInitialize (Some caps))) =>
      match client_Experimental caps with
      | None => noHints
      | Some experimental =>
          match experimental !! extensionID with
          | None => noHints
          | Some ext =>
              let extMap := match ext with AMap m => m | _ => ∅ end in
              match extMap !! "variantHints" with
              | Some (AMap vh) =>
                  mkVariantHints
                    (match vh !! "description" with Some (AStr d) => d | _ => "" end)
                    (match vh !! "hints" with Some (AMap h) => Some h | _ => None end)
              | _ => noHints
              end
          end
      end
  | _ => noHints
  end.

(** A [*DeprecationInfo] as a value, by its JSON tags: [replacement] and
    [removalDate] are left out when empty. *)
Definition anyOfDeprecationInfo (d : DeprecationInfo) : any :=
  let m : gmap string any := <["message" := AStr (Message d)]> ∅ in
  let m := if bool_decide (Replacement d = "") then m
           else <["replacement" := AStr (Replacement d)]> m in
  let m := if bool_decide (RemovalDate d = "") then m
           else <["removalDate" := AStr (RemovalDate d)]> m in
  AMap m.

(** The entry [enrichInitResult] builds for one ranked variant. *)
Definition variantPayload (v : ServerVariant) : gmap string any :=
  let entry : gmap string any :=
    <["id" := AStr (ID v)]> (<["description" := AStr (Description v)]> ∅) in
  let entry := match Hints v with
               | Some h => <["hints" := AMap (AStr <$> h)]> entry
               | None => entry
               end in
  let entry := if bool_decide (Status v <> "")
               then <["status" := AStr (Status v)]> entry
               else entry in
  match Deprecation v with
  | Some d => <["deprecationInfo" := anyOfDeprecationInfo d]> entry
  | None => entry
  end.

Definition enrichInitResult (s : Server) (result : option Result) (req : Request)
  : option Result :=
  match result with
  | Some (RInitialize initResult) =>
      let ranked := RankedVariants s (extractVariantHints req) in
      let availableVariants := AList (map (fun v => AMap (variantPayload v)) ranked) in
      let caps := default mcp.emptyCapabilities (Capabilities initResult) in
      let experimental := default ∅ (mcp.Experimental caps) in
      let extension : gmap string any :=
        <["availableVariants" := availableVariants]>
          (<["moreVariantsAvailable" :=
               ABool (bool_decide (length ranked < length (variants s))%nat)]> ∅) in
      Some (RInitialize
              (mkInitializeResult
                 (Some (mcp.mkServerCapabilities
                          (mcp.Completions caps)
                          (Some (<[extensionID := AMap extension]> experimental))
                          (mcp.Logging caps) (mcp.Prompts caps)
                          (mcp.Resources caps) (mcp.Tools caps)))
                 (ServerInfo initResult)))
  | _ => result
  end.

(** ** The dispatcher (dispatcher.go) *)

Definition createInvalidVariantError (d : dispatcher) (requestedVariant : string)
  : error :=
  let ranked := RankedVariants (server d) noHints in
  let availableIDs := map ID ranked in
  let errorData : gmap string any :=
    <["requestedVariant" := AStr requestedVariant]>
      (<["availableVariants" := AList (map AStr availableIDs)]> ∅) in
  ErrRPC (jsonrpc.mkError jsonrpc.CodeInvalidParams "Invalid server variant"
                          (marshalMap errorData)).

Definition variantIDFromMeta (req : Request) : string :=
  match GetParams req with
  | None => ""
  | Some params =>
      match Meta params with
      | None => ""
      | Some meta =>
          match meta !! metaKeyVariant with
          | Some (AStr id) => id
          | _ => ""
          end
      end
  end.

Definition getSession (d : dispatcher) (req : Request) : error + string * nat :=
  let variantID := variantIDFromMeta req in
  let resolved : error + string :=
    if bool_decide (variantID = "") then
      match RankedVariants (server d) noHints with
      | [] => inl (ErrText "no variants available")
      | first :: _ => inr (ID first)
      end
    else inr variantID in
  match resolved with
  | inl err => inl err
  | inr variantID =>
      match connections d !! variantID with
      | None => inl (createInvalidVariantError d variantID)
      | Some conn => inr (variantID, clientSession conn)
      end
  end.

Definition enrichError (err : error) (variantID : string) : result error :=
  match errors_As err with
  | None => Ok err
  | Some jErr =>
      if bool_decide (jsonrpc.Code jErr = jsonrpc.CodeInvalidParams
                      \/ jsonrpc.Code jErr = jsonrpc.CodeMethodNotFound) then
        let data : option (gmap string any) := Some ∅ in
        let data := match jsonrpc.Data jErr with
                    | jsonrpc.RawEmpty => data
                    | raw => unmarshalMap raw data
                    end in
        match data with
        | None => Panic "assignment to entry in nil map"
        | Some data =>
            Ok (ErrRPC (jsonrpc.mkError (jsonrpc.Code jErr) (jsonrpc.Message jErr)
                          (marshalMap (<["activeVariant" := AStr variantID]> data))))
        end
      else Ok err
  end.

(** The reply of an inner call as the dispatcher returns it: an error is
    enriched, the cursor of a list result is wrapped. *)
Definition forwardReply (variantID : string) (wrapNext : bool) (r : reply) : M reply :=
  match r with
  | inl err =>
      do enriched <- liftResult (enrichError err variantID);
      ret (inl enriched)
  | inr (Some (RList items next)) =>
      if wrapNext && negb (bool_decide (next = ""))
      then ret (inr (Some (RList items (wrapCursor next variantID))))
      else ret r
  | inr _ => ret r
  end.

(** One case of the [switch] of [handleList]: the parameters are used when
    they have the type of the method, a cursor in them is unwrapped, and
    the inner list call is made. *)
Definition listCase (k : listKind) (method : string) (variantID : string)
    (session : nat) (params : option Params) : M reply :=
  let p : option Params :=
    match params with
    | Some (mkParams meta (PList k' cursor)) =>
        if bool_decide (k' = k) then params else None
    | _ => None
    end in
  match p with
  | Some (mkParams meta (PList _ cursor)) =>
      if bool_decide (cursor = "") then
        do r <- call session method p;
        forwardReply variantID true r
      else
        match unwrapCursor cursor variantID with
        | (_, Some err) => ret (inl err)
        | (innerCursor, None) =>
            do r <- call session method (Some (mkParams meta (PList k innerCursor)));
            forwardReply variantID true r
        end
  | _ =>
      do r <- call session method None;
      forwardReply variantID true r
  end.

Definition handleList (d : dispatcher) (method : string) (req : Request) : M reply :=
  match getSession d req with
  | inl err => ret (inl err)
  | inr (variantID, session) =>
      let params := GetParams req in
      if bool_decide (method = "tools/list")
      then listCase ListTools method variantID session params
      else if bool_decide (method = "resources/list")
      then listCase ListResources method variantID session params
      else if bool_decide (method = "prompts/list")
      then listCase ListPrompts method variantID session params
      else if bool_decide (method = "resources/templates/list")
      then listCase ListResourceTemplates method variantID session params
      else ret (inl (ErrText ("unsupported list method: " +:+ method)))
  end.

Definition missingParams (method : string) : error :=
  ErrRPC (jsonrpc.mkError jsonrpc.CodeInvalidParams
            ("missing or invalid " +:+ method +:+ " params") jsonrpc.RawEmpty).

Definition handleCall (d : dispatcher) (method : string) (req : Request) : M reply :=
  match getSession d req with
  | inl err => ret (inl err)
  | inr (variantID, session) =>
      let params := GetParams req in
      if bool_decide (method = "tools/call") then
        match params with
        | Some (mkParams meta (PCallToolRaw name arguments)) =>
            do r <- call session method (Some (mkParams meta (PCallTool name arguments)));
            forwardReply variantID false r
        | _ => ret (inl (missingParams "tools/call"))
        end
      else if bool_decide (method = "resources/read") then
        match params with
        | Some (mkParams _ (PReadResource _)) =>
            do r <- call session method params;
            forwardReply variantID false r
        | _ => ret (inl (missingParams "resources/read"))
        end
      else if bool_decide (method = "prompts/get") then
        match params with
        | Some (mkParams _ (PGetPrompt _ _)) =>
            do r <- call session method params;
            forwardReply variantID false r
        | _ => ret (inl (missingParams "prompts/get"))
        end
      else ret (inl (ErrText ("unsupported call method: " +:+ method)))
  end.

(** [session.Subscribe] and [session.Unsubscribe] return an error only;
    the handlers answer [(nil, nil)] when there is none. *)
Definition withoutResult (r : reply) : reply :=
  match r with
  | inl err => inl err
  | inr _ => inr None
  end.

Definition handleSubscribe (d : dispatcher) (req : Request) : M reply :=
  match getSession d req with
  | inl err => ret (inl err)
  | inr (variantID, session) =>
      match GetParams req with
      | Some (mkParams _ (PSubscribe _)) =>
          do r <- call session "resources/subscribe" (GetParams req);
          forwardReply variantID false (withoutResult r)
      | _ => ret (inl (missingParams "resources/subscribe"))
      end
  end.

Definition handleUnsubscribe (d : dispatcher) (req : Request) : M reply :=
  match getSession d req with
  | inl err => ret (inl err)
  | inr (variantID, session) =>
      match GetParams req with
      | Some (mkParams _ (PUnsubscribe _)) =>
          do r <- call session "resources/unsubscribe" (GetParams req);
          forwardReply variantID false (withoutResult r)
      | _ => ret (inl (missingParams "resources/unsubscribe"))
      end
  end.

Definition handleCompletion (d : dispatcher) (req : Request) : M reply :=
  match getSession d req with
  | inl err => ret (inl err)
  | inr (variantID, session) =>
      match GetParams req with
      | Some (mkParams _ (PComplete _)) =>
          do r <- call session "completion/complete" (GetParams req);
          forwardReply variantID false r
      | _ => ret (inl (missingParams "completion/complete"))
      end
  end.

Definition listMethods : list string :=
  ["tools/list"; "resources/list"; "prompts/list"; "resources/templates/list"].

Definition callMethods : list string :=
  ["tools/call"; "resources/read"; "prompts/get"].

Definition handle (d : dispatcher) (method : string) (req : Request)
    (next : MethodHandler) : M reply :=
  if bool_decide (method ∈ listMethods) then handleList d method req
  else if bool_decide (method ∈ callMethods) then handleCall d method req
  else if bool_decide (method = "resources/subscribe") then handleSubscribe d req
  else if bool_decide (method = "resources/unsubscribe") then handleUnsubscribe d req
  else if bool_decide (method = "completion/complete") then handleCompletion d req
  else next method req.

(** The methods [handle] routes to an inner session. *)
Definition routedMethods : list string :=
  listMethods ++ callMethods
  ++ ["resources/subscribe"; "resources/unsubscribe"; "completion/complete"].

(** ** The session middleware (session.go) *)

Definition storeSession (ss : nat) (state : sessionState) : M unit :=
  fun w => Ok (tt, mkWorld (trace w) (nextHandle w) (<[ss := state]> (sessions w))
                           (innerReply w)).

Definition deleteSession (ss : nat) : M unit :=
  fun w => Ok (tt, mkWorld (trace w) (nextHandle w) (delete ss (sessions w))
                           (innerReply w)).

Definition loadSession (ss : nat) : M (option sessionState) :=
  fun w => Ok (sessions w !! ss, w).

(** What the goroutine started at [initialize] does once the front session
    has ended. *)
Definition sessionEnded (ss : nat) (state : sessionState) : M unit :=
  do _ <- deleteSession ss;
  sessionState_close state.

Definition sessionMiddleware (s : Server) (shared : option sessionState)
    (next : MethodHandler) : MethodHandler :=
  fun method req =>
    let ss := GetSession req in
    if bool_decide (method = "initialize") then
      do r <- next method req;
      match r with
      | inl err => ret (inl err)
      | inr result =>
          match shared with
          | None =>
              do created <- createSessionState s (Some ss);
              match created with
              | inl err => ret (inl err)
              | inr state =>
                  do _ <- storeSession ss state;
                  ret (inr (enrichInitResult s result req))
              end
          | Some _ => ret (inr (enrichInitResult s result req))
          end
      end
    else
      do found <- loadSession ss;
      match found with
      | Some state => handle (state_dispatcher state) method req next
      | None =>
          match shared with
          | Some sh => handle (state_dispatcher sh) method req next
          | None => next method req
          end
      end.

(** ** Vocabulary of the properties *)

(** The pair the default ranking sorts by, and its lexicographic order. *)
Definition rankKey (v : ServerVariant) : Z * Z :=
  (Priority v, statusWeight (Status v)).

Definition rankLe (a b : ServerVariant) : Prop :=
  (Priority a < Priority b)%Z
  \/ (Priority a = Priority b /\ (statusWeight (Status a) <= statusWeight (Status b))%Z).

(** Priorities whose differences all fit a Go [int]. *)
Definition priorityInRange (v : ServerVariant) : Prop :=
  (- 2 ^ 62 <= Priority v < 2 ^ 62)%Z.

Definition withStatus (v : ServerVariant) (st : VariantStatus) : ServerVariant :=
  mkServerVariant (ID v) (Description v) (Hints v) (priority v) st (Deprecation v).

(** The descriptor with an empty status spelled out as [Stable]. *)
Definition explicitStatus (v : ServerVariant) : ServerVariant :=
  if bool_decide (Status v = "") then withStatus v Stable else v.

(** The [availableVariants] list under the extension key of a result. *)
Definition advertisedVariants (r : option Result) : option (list any) :=
  match r with
  | Some (RInitialize init) =>
      match Capabilities init with
      | Some caps =>
          match mcp.Experimental caps with
          | Some experimental =>
              match experimental !! extensionID with
              | Some (AMap ext) =>
                  match ext !! "availableVariants" with
                  | Some (AList l) => Some l
                  | _ => None
                  end
              | _ => None
              end
          | None => None
          end
      | None => None
      end
  | _ => None
  end.

(** The [moreVariantsAvailable] flag under the extension key of a result. *)
Definition advertisedMore (r : option Result) : option bool :=
  match r with
  | Some (RInitialize init) =>
      match Capabilities init with
      | Some caps =>
          match mcp.Experimental caps with
          | Some experimental =>
              match experimental !! extensionID with
              | Some (AMap ext) =>
                  match ext !! "moreVariantsAvailable" with
                  | Some (ABool b) => Some b
                  | _ => None
                  end
              | _ => None
              end
          | None => None
          end
      | None => None
      end
  | _ => None
  end.

(** *** Slices of descriptors in memory

    [Variants] returns a slice; a ranking function may write to the slice
    it is handed. The memory holds the [*Server] and, by address, the
    backing arrays of the [[]ServerVariant] slices made so far. *)
Record Memory : Type := mkMemory {
  registry : Server;
  slices : gmap nat (list ServerVariant)
}.

(** A call of [Variants]: [make] takes a new backing array, the loop fills
    it with the descriptors of the entries, and its address is returned. *)
Definition callVariants (m : Memory) : nat * Memory :=
  let a := fresh (dom (slices m)) in
  (a, mkMemory (registry m) (<[a := Variants (registry m)]> (slices m))).

(** What a holder of a slice can do to it: assign an element, or rewrite
    the whole array in place (as a sort does). *)
Inductive sliceWrite : Type :=
  | SetElement (a : nat) (i : nat) (v : ServerVariant)
  | Rearrange (a : nat) (f : list ServerVariant -> list ServerVariant).

Definition applyWrite (m : Memory) (op : sliceWrite) : Memory :=
  match op with
  | SetElement a i v =>
      mkMemory (registry m) (alter (fun l => <[i := v]> l) a (slices m))
  | Rearrange a f =>
      mkMemory (registry m) (alter f a (slices m))
  end.

(** *** Sample registries *)

Definition sampleServer (id : nat) : mcpServer := mkMcpServer id ConnectOk.

Definition describe (id : string) (st : VariantStatus) : ServerVariant :=
  mkServerVariant id "" None 0 st None.

(** Two variants registered with priorities [-2] and the largest [int]. *)
Definition extremePriorities : result Server :=
  match WithVariant NewServer (describe "low" Stable) (sampleServer 0) (-2) with
  | Ok s => WithVariant s (describe "high" Stable) (sampleServer 1) int_max
  | Panic msg => Panic msg
  end.

(** *** Sub-flags of a capability set; a flag of an absent capability is
    unset. *)

Definition toolsListChanged (c : mcp.ServerCapabilities) : bool :=
  match mcp.Tools c with Some t => mcp.tools_ListChanged t | None => false end.

Definition resourcesSubscribe (c : mcp.ServerCapabilities) : bool :=
  match mcp.Resources c with Some r => mcp.resources_Subscribe r | None => false end.

Definition resourcesListChanged (c : mcp.ServerCapabilities) : bool :=
  match mcp.Resources c with Some r => mcp.resources_ListChanged r | None => false end.

Definition promptsListChanged (c : mcp.ServerCapabilities) : bool :=
  match mcp.Prompts c with Some p => mcp.prompts_ListChanged p | None => false end.

(** The value a capability set gives an experimental key. *)
Definition experimentalKey (k : string) (c : mcp.ServerCapabilities) : option any :=
  match mcp.Experimental c with Some e => e !! k | None => None end.

(** The non-nil capability sets of a list, in order. *)
Definition given (allCaps : list (option mcp.ServerCapabilities))
  : list mcp.ServerCapabilities := omap id allCaps.

Definition hasTools (c : mcp.ServerCapabilities) : bool :=
  bool_decide (is_Some (mcp.Tools c)).
Definition hasResources (c : mcp.ServerCapabilities) : bool :=
  bool_decide (is_Some (mcp.Resources c)).
Definition hasPrompts (c : mcp.ServerCapabilities) : bool :=
  bool_decide (is_Some (mcp.Prompts c)).
Definition hasExperimental (c : mcp.ServerCapabilities) : bool :=
  bool_decide (is_Some (mcp.Experimental c)).

(** The identifiers of the entries of an advertised list, in order. *)
Definition entryID (entry : any) : string :=
  match entry with
  | AMap m => match m !! "id" with Some (AStr id) => id | _ => "" end
  | _ => ""
  end.

Definition advertisedIDs (r : option Result) : list string :=
  map entryID (default [] (advertisedVariants r)).

(** The inner client sessions a trace shows a request sent on. *)
Definition calledSessions (t : list event) : list nat :=
  omap (fun e => match e with EvCall session _ _ => Some session | _ => None end) t.

(** The session handles a trace shows opened, and closed. *)
Definition openedHandles (t : list event) : list nat :=
  omap (fun e => match e with EvOpen h => Some h | _ => None end) t.

Definition closedHandles (t : list event) : list nat :=
  omap (fun e => match e with EvClose h => Some h | _ => None end) t.

(** The handles of an inner connection. *)
Definition handlesOf (c : innerConnection) : list nat :=
  clientSession c :: match cleanupFn c with Some ss => [ss] | None => [] end.

(** *** Sample servers, requests and worlds *)

(** A world with no session yet, whose inner servers answer every request
    with an empty list page. *)
Definition quietWorld : World :=
  mkWorld [] 0 ∅ (fun _ _ _ => inr (Some (RList (AList []) ""))).

(** The front server's own handler, as the SDK provides it: [initialize]
    yields an initialize result without capabilities. *)
Definition sdkHandler : MethodHandler :=
  fun method _ =>
    if bool_decide (method = "initialize")
    then ret (inr (Some (RInitialize (mkInitializeResult None ANil))))
    else ret (inr None).

(** The registry of the package's tests ([newTestVariantServer]). *)
Definition testVariantServer : result Server :=
  match WithVariant NewServer
          (mkServerVariant "coding" "Optimized for coding workflows" None 0 Stable None)
          (sampleServer 0) 0 with
  | Ok s => WithVariant s
              (mkServerVariant "compact" "Minimal token usage" None 0 Experimental None)
              (sampleServer 1) 1
  | Panic msg => Panic msg
  end.

(** The same registry with a second inner server whose client end fails to
    connect. *)
Definition brokenVariantServer : result Server :=
  match WithVariant NewServer
          (mkServerVariant "coding" "Optimized for coding workflows" None 0 Stable None)
          (sampleServer 0) 0 with
  | Ok s => WithVariant s
              (mkServerVariant "compact" "Minimal token usage" None 0 Experimental None)
              (mkMcpServer 1 (ClientConnectFails "connection refused")) 1
  | Panic msg => Panic msg
  end.

(** [strings.EqualFold] on ASCII text, where it folds the letters [A] to
    [Z] and nothing else; the folding of the other letters of Unicode is
    not modelled. *)
Definition lowerASCII (c : ascii) : ascii :=
  let n := code c in
  if ((65 <=? n) && (n <=? 90))%N then ascii_of_N (n + 32) else c.

Definition EqualFold (a b : string) : bool :=
  bool_decide (map lowerASCII (list_ascii_of_string a)
               = map lowerASCII (list_ascii_of_string b)).

(** The custom ranking of the model-optimized example server: variants
    whose [modelFamily] hint matches the client's come first, then lower
    priorities. *)
Definition modelFamilyRanking : RankingFunc :=
  fun hints vs =>
    let requested := (HintValue_string hints "modelFamily").1 in
    let family (v : ServerVariant) : string :=
      match Hints v with
      | Some h => default "" (h !! "modelFamily")
      | None => ""
      end in
    SortStableFunc
      (fun a b =>
         let aMatch := EqualFold (family a) requested in
         let bMatch := EqualFold (family b) requested in
         if negb (eqb aMatch bMatch)
         then (if aMatch then (-1)%Z else 1%Z)
         else int_sub (Priority a) (Priority b))
      vs.

Definition familyHints (family size : string) : option (gmap string string) :=
  Some (<["modelFamily" := family]> (<["contextSize" := size]> ∅)).

(** The registry of the model-optimized example server. *)
Definition weatherService : result Server :=
  match WithVariant NewServer
          (mkServerVariant "claude-optimized" "Detailed descriptions"
             (familyHints "anthropic" "verbose") 0 Stable None)
          (sampleServer 0) 0 with
  | Ok s1 =>
      match WithVariant s1
              (mkServerVariant "gpt-optimized" "Concise descriptions"
                 (familyHints "openai" "standard") 0 Stable None)
              (sampleServer 1) 1 with
      | Ok s2 =>
          match WithVariant s2
                  (mkServerVariant "compact" "Minimal descriptions"
                     (familyHints "any" "compact") 0 Stable None)
                  (sampleServer 2) 2 with
          | Ok s3 => Ok (WithRanking s3 (Some modelFamilyRanking))
          | Panic msg => Panic msg
          end
      | Panic msg => Panic msg
      end
  | Panic msg => Panic msg
  end.

(** An [initialize] request on front session 7 whose hints name a model
    family. *)
Definition initializeWith (family : string) : Request :=
  let hints : gmap string any := <["modelFamily" := AStr family]> ∅ in
  let variantHints : gmap string any := <["hints" := AMap hints]> ∅ in
  let extension : gmap string any := <["variantHints" := AMap variantHints]> ∅ in
  mkRequest 7
    (Some (mkParams None
             (PInitialize
                (Some (mkClientCapabilities
                         (Some (<[extensionID := AMap extension]> ∅))))))).

(** A [tools/list] request on front session 7 without [_meta]. *)
Definition plainListTools : Request :=
  mkRequest 7 (Some (mkParams None (PList ListTools ""))).

(** A [tools/list] request on front session 7 whose [_meta] holds the given
    value under the selector key. *)
Definition listToolsSelecting (selector : any) : Request :=
  mkRequest 7 (Some (mkParams (Some (<[metaKeyVariant := selector]> ∅))
                              (PList ListTools ""))).

(** Whether connecting to a backend succeeds. *)
Definition connects (b : backend) : bool :=
  match b with
  | inMemoryBackend srv =>
      match server_connect srv with
      | ConnectOk => true
      | _ => false
      end
  end.

(** The server a chain of registrations built. *)
Definition registered (r : result Server) : Server :=
  match r with
  | Ok s => s
  | Panic _ => NewServer
  end.

(** The dispatcher of the state [initialize] stored for front session 7 on
    the test registry. *)
Definition testDispatcher : dispatcher :=
  match sessionMiddleware (registered testVariantServer) None sdkHandler
          "initialize" (initializeWith "") quietWorld with
  | Ok (_, w) =>
      match sessions w !! 7%nat with
      | Some state => state_dispatcher state
      | None => mkDispatcher NewServer ∅
      end
  | Panic _ => mkDispatcher NewServer ∅
  end.

(** An invalid-params error whose data is the JSON text [null]. *)
Definition nullDataError : error :=
  ErrRPC (jsonrpc.mkError jsonrpc.CodeInvalidParams "unknown tool"
                          (jsonrpc.RawJSON ANil)).

(** A world whose inner servers answer every request with that error. *)
Definition nullDataWorld : World :=
  mkWorld [] 0 ∅ (fun _ _ _ => inl nullDataError).

(** A [tools/call] request on front session 7 that selects a variant. *)
Definition callToolSelecting (id : string) : Request :=
  mkRequest 7 (Some (mkParams (Some (<[metaKeyVariant := AStr id]> ∅))
                              (PCallToolRaw "analyze_code" (AMap ∅)))).

(** The error of an unknown variant, by what its data holds: the
    identifier under [requestedVariant] and the list of identifiers under
    [availableVariants]. *)
Definition invalidVariantError (requested : string) (available : list string) : error :=
  ErrRPC (jsonrpc.mkError (-32602) "Invalid server variant"
            (jsonrpc.RawJSON
               (AMap (<["requestedVariant" := AStr requested]>
                        (<["availableVariants" := AList (map AStr available)]> ∅))))).

(** The field [jErr.Data] read as a map, when it holds a JSON object. *)
Definition dataFields (e : jsonrpc.Error) : option (gmap string any) :=
  match jsonrpc.Data e with
  | jsonrpc.RawJSON (AMap m) => Some m
  | _ => None
  end.

(** The codes of the errors [enrichError] enriches. *)
Definition resolutionClass (code : Z) : bool :=
  bool_decide (code = (-32602)%Z \/ code = (-32601)%Z).

(** The reply and the world a run ends with. *)
Definition replyOf (run : result (reply * World)) : option Result :=
  match run with
  | Ok (inr r, _) => r
  | _ => None
  end.

Definition worldOf (run : result (reply * World)) : World :=
  match run with
  | Ok (_, w) => w
  | Panic _ => quietWorld
  end.

(** [initialize] on the example server, from a client that names the
    [openai] model family, and on the test server. *)
Definition weatherInitialize : result (reply * World) :=
  sessionMiddleware (registered weatherService) None sdkHandler "initialize"
    (initializeWith "openai") quietWorld.

Definition testInitialize : result (reply * World) :=
  sessionMiddleware (registered testVariantServer) None sdkHandler "initialize"
    (initializeWith "") quietWorld.

(** Whether a run ended with a result, and whether a result is an
    initialize result. *)
Definition succeeded (run : result (reply * World)) : bool :=
  match run with
  | Ok (inr _, _) => true
  | _ => false
  end.

Definition isInitialize (r : option Result) : bool :=
  match r with
  | Some (RInitialize _) => true
  | _ => false
  end.

(** The inner client session the state of a front session holds for a
    variant. *)
Definition sessionOfVariant (w : World) (front : nat) (id : string) : option nat :=
  match sessions w !! front with
  | Some state =>
      match connections (state_dispatcher state) !! id with
      | Some c => Some (clientSession c)
      | None => None
      end
  | None => None
  end.

(** [tools/list] without [_meta], on the example server after
    [weatherInitialize]. *)
Definition weatherListTools : result (reply * World) :=
  sessionMiddleware (registered weatherService) None sdkHandler "tools/list"
    plainListTools (worldOf weatherInitialize).

(** [tools/list] with an empty string under the selector key, on the test
    server after [testInitialize]. *)
Definition testListEmptySelector : result (reply * World) :=
  sessionMiddleware (registered testVariantServer) None sdkHandler "tools/list"
    (listToolsSelecting (AStr "")) (worldOf testInitialize).

(** [tools/list] that selects a variant the test server does not have. *)
Definition testListUnknown : result (reply * World) :=
  sessionMiddleware (registered testVariantServer) None sdkHandler "tools/list"
    (listToolsSelecting (AStr "nonexistent")) (worldOf testInitialize).

(** *** Vocabulary of the cursor codec *)

(** [out] is text that [appendString] writes for the bytes [chunk]: inside
    a string literal the scanner passes over it, and [unquoteBytes] reads
    it back as [chunk]. *)
Definition writtenFor (out chunk : bytes) : Prop :=
  (forall rest, json.scanString (out ++ rest)
                = match json.scanString rest with
                  | Some (raw, after) => Some (out ++ raw, after)
                  | None => None
                  end)
  /\ (forall rest, json.unquoteFrom 0 (out ++ rest)
                   = option_map (app chunk) (json.unquoteFrom 0 rest)).

(** Valid UTF-8, for a Go string. *)
Definition validUTF8 (s : string) : Prop :=
  utf8.Valid (list_ascii_of_string s) = true.

(** The error [unwrapCursor] returns for a cursor it cannot read. *)
Definition invalidCursorFormat : error :=
  ErrRPC (jsonrpc.mkError (-32602) "Invalid cursor format" jsonrpc.RawEmpty).

(** The error [unwrapCursor] returns for the cursor of another variant, by
    what its data holds under [cursorVariant] and [requestedVariant]. *)
Definition cursorVariantMismatch (cursorVariant requestedVariant : string) : error :=
  ErrRPC (jsonrpc.mkError (-32602) "Cursor invalid for requested variant"
            (jsonrpc.RawJSON
               (AMap (<["cursorVariant" := AStr cursorVariant]>
                        (<["requestedVariant" := AStr requestedVariant]> ∅))))).

(** *** Vocabulary of the session life cycle *)

(** What a computation leaves of the world when it only adds events and
    takes handles. *)
Definition extends (w w' : World) (new : list event) : Prop :=
  trace w' = trace w ++ new
  /\ sessions w' = sessions w
  /\ innerReply w' = innerReply w.

(** The events the closing of a connection adds to the trace. *)
Definition closeEvents (c : innerConnection) : list event :=
  map EvClose (handlesOf c).

(** ** Vocabulary of the dispatcher *)

(** The parameters a handler hands to the inner session, for parameters of
    the type its method asserts: [tools/call] converts the raw parameters,
    the other methods pass theirs on. [None] for parameters of another
    type. *)
Definition forwarded (method : string) (body : payload) : option payload :=
  match body with
  | PCallToolRaw name arguments =>
      if bool_decide (method = "tools/call") then Some (PCallTool name arguments)
      else None
  | PReadResource _ =>
      if bool_decide (method = "resources/read") then Some body else None
  | PGetPrompt _ _ =>
      if bool_decide (method = "prompts/get") then Some body else None
  | PSubscribe _ =>
      if bool_decide (method = "resources/subscribe") then Some body else None
  | PUnsubscribe _ =>
      if bool_decide (method = "resources/unsubscribe") then Some body else None
  | PComplete _ =>
      if bool_decide (method = "completion/complete") then Some body else None
  | _ => None
  end.

(** The methods whose inner call returns an error only. *)
Definition dropsResult (method : string) : bool :=
  bool_decide (method = "resources/subscribe" \/ method = "resources/unsubscribe").

(** The methods that need parameters of their own type. *)
Definition paramMethods : list string :=
  callMethods ++ ["resources/subscribe"; "resources/unsubscribe"; "completion/complete"].

(** The method of each kind of list. *)
Definition listMethod (k : listKind) : string :=
  match k with
  | ListTools => "tools/list"
  | ListResources => "resources/list"
  | ListPrompts => "prompts/list"
  | ListResourceTemplates => "resources/templates/list"
  end.

(** The world after one request on an inner session. *)
Definition called (w : World) (session : nat) (method : string) (p : option Params)
  : World :=
  mkWorld (trace w ++ [EvCall session method p]) (nextHandle w) (sessions w)
          (innerReply w).

(** A request on a front session with the given [_meta] and parameters. *)
Definition requestWith (ss : nat) (meta : option (gmap string any)) (body : payload)
  : Request :=
  mkRequest ss (Some (mkParams meta body)).

(** The [_meta] that selects a variant. *)
Definition selecting (id : string) : gmap string any :=
  <[metaKeyVariant := AStr id]> ∅.

(** ** Vocabulary of the registry and of ranking *)

(** A chain of registrations [s.WithVariant(v1, srv1, p1).WithVariant(...)],
    which stops at the first one that panics. *)
Fixpoint registerAll (regs : list (ServerVariant * mcpServer * Z)) (s : Server)
  : result Server :=
  match regs with
  | [] => Ok s
  | (v, srv, p) :: rest =>
      match WithVariant s v srv p with
      | Ok s' => registerAll rest s'
      | Panic msg => Panic msg
      end
  end.

(** The descriptor a registration stores. *)
Definition registeredAs (reg : ServerVariant * mcpServer * Z) : ServerVariant :=
  withPriority reg.1.1 reg.2.

(** The [modelFamily] hint of a variant, empty when it has none. *)
Definition familyHint (v : ServerVariant) : string :=
  match Hints v with
  | Some h => default "" (h !! "modelFamily")
  | None => ""
  end.

(** Whether the [modelFamily] hint of a variant matches the one the client
    asks for, as the ranking of the model-optimized example compares
    them. *)
Definition matchesFamily (hints : VariantHints) (v : ServerVariant) : bool :=
  EqualFold (familyHint v) (HintValue_string hints "modelFamily").1.

(** Text of ASCII characters only, on which [strings.EqualFold] folds the
    letters [A] to [Z] and nothing else. *)
Definition isASCII (s : string) : Prop :=
  Forall (fun c => (Ascii.N_of_ascii c < 128)%N) (list_ascii_of_string s).

(** The order of that ranking: a variant that matches comes before one
    that does not, and among variants that agree on the match the lower
    priority comes first. *)
Definition familyOrder (hints : VariantHints) (a b : ServerVariant) : Prop :=
  if eqb (matchesFamily hints a) (matchesFamily hints b)
  then (Priority a <= Priority b)%Z
  else matchesFamily hints a = true.

(** ** Error data *)

(** A value that comes back as it was when [json.Unmarshal] stores it in a
    [map[string]any] and [json.Marshal] writes it again: its strings and
    keys are valid UTF-8, and its numbers are among those a [float64]
    holds exactly. *)
Inductive roundTrips : any -> Prop :=
  | roundTrips_nil : roundTrips ANil
  | roundTrips_bool b : roundTrips (ABool b)
  | roundTrips_num n : (Z.abs n <= 2 ^ 53)%Z -> roundTrips (ANum n)
  | roundTrips_str s : validUTF8 s -> roundTrips (AStr s)
  | roundTrips_list l :
      (forall x, x ∈ l -> roundTrips x) -> roundTrips (AList l)
  | roundTrips_map m :
      (forall k, is_Some (m !! k) -> validUTF8 k) ->
      (forall k x, m !! k = Some x -> roundTrips x) ->
      roundTrips (AMap m).

(** ** Notification metadata (session.go) *)

(** [injectVariantMeta]: the variant is put under the selector key of the
    [_meta] of the parameters, in a new map when they have none. *)
Definition injectVariantMeta (p : Params) (variantID : string) : Params :=
  let meta : gmap string any :=
    match Meta p with
    | Some meta => meta
    | None => ∅
    end in
  mkParams (Some (<[metaKeyVariant := AStr variantID]> meta)) (body p).

(** ** Capability discovery (backend.go, server.go) *)

(** What the client end of a probe finds of an inner server: [None] when
    its session holds no initialize result, else the capabilities of the
    result, which may be nil. *)
Definition Advertised : Type := mcpServer -> option (option mcp.ServerCapabilities).

(** [inMemoryBackend.capabilities]: both ends of a transport pair are
    connected, the capabilities are read off the client session, and the
    client session and then the server session are closed. When the
    client end fails, the server session is closed again. *)
Definition capabilities (advertised : Advertised) (b : backend)
  : M (error + option mcp.ServerCapabilities) :=
  match b with
  | inMemoryBackend srv =>
      match server_connect srv with
      | ServerConnectFails msg => ret (inl (ErrText msg))
      | ClientConnectFails msg =>
          do ss <- openSession;
          do _ <- emit (EvClose ss);
          ret (inl (ErrText msg))
      | ConnectOk =>
          do ss <- openSession;
          do cs <- openSession;
          let caps := match advertised srv with
                      | Some ir => ir
                      | None => None
                      end in
          do _ <- emit (EvClose cs);
          do _ <- emit (EvClose ss);
          ret (inr caps)
      end
  end.

(** [inMemoryBackend.close] does nothing. *)
Definition backend_close (b : backend) : option error :=
  match b with
  | inMemoryBackend _ => None
  end.

(** The loop of [discoverCapabilities]: each backend is probed in turn,
    the first error ends the loop, and capabilities that are not nil are
    appended to [allCaps]. *)
Fixpoint probeEntries (advertised : Advertised) (entries : list variantEntry)
    (allCaps : list (option mcp.ServerCapabilities))
  : M (error + list (option mcp.ServerCapabilities)) :=
  match entries with
  | [] => ret (inr allCaps)
  | entry :: rest =>
      do r <- capabilities advertised (entry_backend entry);
      match r with
      | inl err => ret (inl err)
      | inr caps =>
          probeEntries advertised rest
            (match caps with
             | Some _ => allCaps ++ [caps]
             | None => allCaps
             end)
      end
  end.

Definition discoverCapabilities (advertised : Advertised) (s : Server)
  : M (error + mcp.ServerCapabilities) :=
  do r <- probeEntries advertised (variants s) [];
  match r with
  | inl err => ret (inl err)
  | inr allCaps => ret (inr (unionCapabilities allCaps))
  end.

(** ** The front server (server.go) *)

(** What [Server.mcpServer] configures the front server with: the
    capabilities it advertises, and the shared state its middleware is
    given, which is also stored in the field [shared] of the [Server]. *)
Record frontServer : Type := mkFrontServer {
  front_capabilities : mcp.ServerCapabilities;
  front_shared : option sessionState
}.

(** [Server.mcpServer]. *)
Definition Server_mcpServer (advertised : Advertised) (s : Server) (stateless : bool)
  : M (error + frontServer) :=
  if bool_decide (length (variants s) = 0%nat)
  then ret (inl (ErrText "variants: no variants registered"))
  else
    do r <- discoverCapabilities advertised s;
    match r with
    | inl err => ret (inl err)
    | inr caps =>
        if stateless then
          do created <- createSessionState s None;
          match created with
          | inl err => ret (inl err)
          | inr shared => ret (inr (mkFrontServer caps (Some shared)))
          end
        else ret (inr (mkFrontServer caps None))
    end.

(** The receiving middleware of the front server. *)
Definition front_middleware (s : Server) (f : frontServer) (next : MethodHandler)
  : MethodHandler :=
  sessionMiddleware s (front_shared f) next.

(** [Server.Close], with the field [shared] of the server as an argument:
    the shared connections are closed, then every backend; the first
    error of a backend is returned. *)
Definition Server_Close (s : Server) (shared : option sessionState) : M (option error) :=
  do _ <- match shared with
          | Some sh => sessionState_close sh
          | None => ret tt
          end;
  ret (fold_left (fun firstErr entry =>
                    match backend_close (entry_backend entry), firstErr with
                    | Some err, None => Some err
                    | _, _ => firstErr
                    end)
                 (variants s) None).

(** The capabilities a probe of the backend of an entry finds. *)
Definition probed (advertised : Advertised) (entry : variantEntry)
  : option mcp.ServerCapabilities :=
  match entry_backend entry with
  | inMemoryBackend srv =>
      match advertised srv with
      | Some ir => ir
      | None => None
      end
  end.

(** * Properties *)

(** ** Sorting *)

Section SortStable.
Context {A : Type} (cmp : A -> A -> Z).

Lemma sink_Permutation x before : sink cmp x before ≡ₚ x :: before.
Proof.
  induction before as [|y ys IH]; simpl; [done|].
  destruct (cmp x y <? 0)%Z; [|done].
  rewrite IH. apply Permutation_swap.
Qed.

Lemma SortStableFunc_Permutation data : SortStableFunc cmp data ≡ₚ data.
Proof.
  unfold SortStableFunc.
  assert (H : forall before, fold_left (fun b x => sink cmp x b) data before
                             ≡ₚ rev data ++ before).
  { induction data as [|x l IH]; intros before; simpl; [done|].
    rewrite IH, sink_Permutation. by rewrite <- app_assoc. }
  rewrite <- Permutation_rev, H, app_nil_r.
  symmetry. apply Permutation_rev.
Qed.

(** Elements that share a key, and so never compare below one another,
    keep their order. *)
Section Stable.
Context {K : Type} `{EqDecision K} (key : A -> K).
Hypothesis cmp_same_key : forall x y, key x = key y -> (0 <= cmp x y)%Z.

Lemma sink_class k x before :
  rev (filter (fun y => key y = k) (sink cmp x before))
  = rev (filter (fun y => key y = k) before) ++ filter (fun y => key y = k) [x].
Proof.
  induction before as [|y ys IH]; simpl.
  - rewrite !filter_cons, filter_nil. by destruct (decide (key x = k)).
  - destruct (cmp x y <? 0)%Z eqn:Hlt.
    + rewrite !filter_cons.
      destruct (decide (key y = k)) as [Hy|Hy]; simpl; [|done].
      rewrite IH, !filter_cons, filter_nil.
      destruct (decide (key x = k)) as [Hx|Hx].
      * apply Z.ltb_lt in Hlt.
        pose proof (cmp_same_key x y ltac:(congruence)). lia.
      * by rewrite !app_nil_r.
    + rewrite (filter_cons _ x (y :: ys)), (filter_cons _ x []), filter_nil.
      destruct (decide (key x = k)); simpl; [done|by rewrite app_nil_r].
Qed.

Lemma SortStableFunc_stable k data :
  filter (fun y => key y = k) (SortStableFunc cmp data)
  = filter (fun y => key y = k) data.
Proof.
  unfold SortStableFunc.
  assert (H : forall before,
             rev (filter (fun y => key y = k)
                    (fold_left (fun b x => sink cmp x b) data before))
             = rev (filter (fun y => key y = k) before)
               ++ filter (fun y => key y = k) data).
  { induction data as [|x l IH]; intros before; simpl.
    - by rewrite app_nil_r.
    - rewrite IH, sink_class, <- app_assoc. f_equal.
      rewrite !filter_cons, filter_nil. by destruct (decide (key x = k)). }
  specialize (H []). simpl in H. rewrite <- H.
  generalize (fold_left (fun b x => sink cmp x b) data []). intros l.
  induction l as [|z l IH]; [done|]. simpl.
  rewrite filter_app, IH, !filter_cons, filter_nil.
  destruct (decide (key z = k)); simpl; [done|by rewrite app_nil_r].
Qed.
End Stable.

(** When, on the elements at hand, a comparison below zero puts its first
    argument first in a transitive order and any other comparison puts
    the second first, the result is sorted. *)
Section Sorted.
Context (le : relation A) (P : A -> Prop).
Hypothesis le_trans : Transitive le.
Hypothesis cmp_neg : forall x y, P x -> P y -> (cmp x y < 0)%Z -> le x y.
Hypothesis cmp_nonneg : forall x y, P x -> P y -> (0 <= cmp x y)%Z -> le y x.

Lemma sink_descending x before :
  P x -> Forall P before ->
  StronglySorted (flip le) before -> StronglySorted (flip le) (sink cmp x before).
Proof.
  intros Px HP Hs. induction Hs as [|y ys Hs IH Hall]; simpl.
  - repeat constructor.
  - apply Forall_cons in HP as [Py HP].
    destruct (cmp x y <? 0)%Z eqn:Hlt.
    + constructor; [by apply IH|].
      rewrite Forall_forall. intros z Hz.
      apply (elem_of_Permutation_proper z _ _ (sink_Permutation x ys)) in Hz.
      apply elem_of_cons in Hz as [->|Hz].
      * apply Z.ltb_lt in Hlt. by apply cmp_neg.
      * rewrite Forall_forall in Hall. by apply Hall.
    + apply Z.ltb_ge, cmp_nonneg in Hlt; [|done..].
      constructor; [by constructor|].
      constructor; [done|].
      eapply Forall_impl; [exact Hall|]. unfold flip. intros z Hz.
      by etransitivity.
Qed.

Lemma SortStableFunc_sorted data :
  Forall P data -> StronglySorted le (SortStableFunc cmp data).
Proof.
  intros HP. unfold SortStableFunc.
  assert (H : forall before, Forall P before -> StronglySorted (flip le) before ->
             StronglySorted (flip le) (fold_left (fun b x => sink cmp x b) data before)).
  { induction HP as [|x l Px HP IH]; intros before Pb Hb; simpl; [done|].
    apply IH; [|by apply sink_descending].
    by rewrite (sink_Permutation x before), Forall_cons. }
  specialize (H [] ltac:(constructor) ltac:(constructor)).
  revert H. generalize (fold_left (fun b x => sink cmp x b) data []).
  intros l. induction 1 as [|y ys Hs IH Hall]; simpl; [constructor|].
  apply StronglySorted_app_2; [|done|repeat constructor].
  intros a b Ha Hb. apply list_elem_of_singleton in Hb as ->.
  rewrite Forall_forall in Hall. apply Hall.
  by apply list_elem_of_In, in_rev, list_elem_of_In in Ha.
Qed.
End Sorted.

Lemma sink_map {B : Type} (cmp' : B -> B -> Z) (f : A -> B) x before :
  (forall a b, cmp' (f a) (f b) = cmp a b) ->
  sink cmp' (f x) (map f before) = map f (sink cmp x before).
Proof.
  intros Hc. induction before as [|y ys IH]; simpl; [done|].
  rewrite Hc. destruct (cmp x y <? 0)%Z; simpl; [by rewrite IH|done].
Qed.

Lemma SortStableFunc_map {B : Type} (cmp' : B -> B -> Z) (f : A -> B) data :
  (forall a b, cmp' (f a) (f b) = cmp a b) ->
  SortStableFunc cmp' (map f data) = map f (SortStableFunc cmp data).
Proof.
  intros Hc. unfold SortStableFunc. rewrite map_rev. f_equal.
  change (@nil B) with (map f []). generalize (@nil A).
  induction data as [|x l IH]; intros before; simpl; [done|].
  by rewrite sink_map, IH.
Qed.
End SortStable.

(** ** Default ranking *)

Lemma int_wrap_id z : (int_min <= z <= int_max)%Z -> int_wrap z = z.
Proof.
  unfold int_wrap, int_min, int_max. intros H.
  rewrite Z.mod_small; lia.
Qed.

Lemma statusWeight_range s : (0 <= statusWeight s <= 3)%Z.
Proof. unfold statusWeight. repeat case_bool_decide; lia. Qed.

Lemma rankCmp_same_key x y : rankKey x = rankKey y -> (0 <= rankCmp x y)%Z.
Proof.
  unfold rankKey, rankCmp, int_sub. intros [= Hp Hw].
  rewrite bool_decide_eq_false_2 by (intros ?; congruence).
  rewrite Hw, Z.sub_diag. by vm_compute.
Qed.

Lemma rankCmp_in_range x y :
  priorityInRange x -> priorityInRange y ->
  rankCmp x y =
    if bool_decide (Priority x <> Priority y) then (Priority x - Priority y)%Z
    else (statusWeight (Status x) - statusWeight (Status y))%Z.
Proof.
  unfold priorityInRange, rankCmp, int_sub. intros Hx Hy.
  pose proof (statusWeight_range (Status x)).
  pose proof (statusWeight_range (Status y)).
  case_bool_decide; apply int_wrap_id; unfold int_min, int_max; lia.
Qed.

#[local] Instance rankLe_trans : Transitive rankLe.
Proof. unfold rankLe. intros x y z; lia. Qed.

(** The default ranking permutes its input. *)
Lemma defaultRankingFunc_Permutation hints vs : defaultRankingFunc hints vs ≡ₚ vs.
Proof. apply SortStableFunc_Permutation. Qed.

(** The default ranking is stable: descriptors of equal priority and
    status weight keep their order. *)
Lemma defaultRankingFunc_stable hints vs k :
  filter (fun v => rankKey v = k) (defaultRankingFunc hints vs)
  = filter (fun v => rankKey v = k) vs.
Proof. apply SortStableFunc_stable, rankCmp_same_key. Qed.

(** With priorities in range the default ranking sorts by priority, then
    by status weight. *)
Lemma defaultRankingFunc_sorted hints vs :
  Forall priorityInRange vs -> StronglySorted rankLe (defaultRankingFunc hints vs).
Proof.
  apply SortStableFunc_sorted; [apply _|..]; intros x y Hx Hy;
    rewrite (rankCmp_in_range x y Hx Hy); unfold rankLe;
    case_bool_decide; lia.
Qed.

(** With distinct priorities in range, the order is ascending priority. *)
Lemma defaultRankingFunc_ascending hints vs :
  Forall priorityInRange vs -> NoDup (map Priority vs) ->
  StronglySorted Z.lt (map Priority (defaultRankingFunc hints vs)).
Proof.
  intros HP Hnd.
  pose proof (defaultRankingFunc_sorted hints vs HP) as Hs.
  assert (Hnd' : NoDup (map Priority (defaultRankingFunc hints vs))).
  { by rewrite (defaultRankingFunc_Permutation hints vs). }
  revert Hs Hnd'. generalize (defaultRankingFunc hints vs). intros l.
  induction 1 as [|v l Hs IH Hall]; simpl; intros Hd; [constructor|].
  apply NoDup_cons in Hd as [Hv Hd].
  constructor; [by apply IH|].
  rewrite Forall_forall in Hall. rewrite Forall_forall. intros p Hp.
  apply list_elem_of_fmap in Hp as (w & -> & Hw).
  destruct (Hall w Hw) as [|[Heq _]]; [done|].
  exfalso. apply Hv. rewrite Heq. by apply list_elem_of_fmap_2.
Qed.

(** C4: the comparison of the default ranking subtracts the priorities, and
    the difference of [-2] and the largest [int] wraps around: registered
    in this order, the two variants are ranked with the larger priority
    first. *)
Theorem defaultRankingFunc_priority_overflow :
  exists s, extremePriorities = Ok s
    /\ map Priority (Variants s) = [(-2)%Z; int_max]
    /\ rankCmp (withPriority (describe "high" Stable) int_max)
               (withPriority (describe "low" Stable) (-2)) = (- 2 ^ 63 + 1)%Z
    /\ map ID (RankedVariants s noHints) = ["high"; "low"]
    /\ map Priority (RankedVariants s noHints) = [int_max; (-2)%Z].
Proof. eexists. split; [reflexivity|]. by vm_compute. Qed.

(** ** Status of a variant *)

Lemma rankCmp_explicitStatus a b :
  rankCmp (explicitStatus a) (explicitStatus b) = rankCmp a b.
Proof.
  assert (H : forall v, Priority (explicitStatus v) = Priority v
              /\ statusWeight (Status (explicitStatus v)) = statusWeight (Status v)).
  { intros v. unfold explicitStatus. case_bool_decide as Hs; [|done].
    split; [done|]. simpl. by rewrite Hs. }
  unfold rankCmp.
  destruct (H a) as [-> ->]. by destruct (H b) as [-> ->].
Qed.

(** ** The initialize response *)

Lemma anyOfDeprecationInfo_message d :
  exists m, anyOfDeprecationInfo d = AMap m
    /\ m !! "message" = Some (AStr (Message d))
    /\ m !! "replacement"
       = (if bool_decide (Replacement d = "") then None else Some (AStr (Replacement d)))
    /\ m !! "removalDate"
       = (if bool_decide (RemovalDate d = "") then None else Some (AStr (RemovalDate d))).
Proof.
  unfold anyOfDeprecationInfo. eexists. split; [reflexivity|].
  repeat case_bool_decide; by simplify_map_eq.
Qed.

(** The fields of the entry of a variant: [id] and [description] always,
    the other three when the descriptor has them, and nothing else. *)
Lemma variantPayload_fields v :
  variantPayload v !! "id" = Some (AStr (ID v))
  /\ variantPayload v !! "description" = Some (AStr (Description v))
  /\ variantPayload v !! "hints" = (fun h => AMap (AStr <$> h)) <$> Hints v
  /\ variantPayload v !! "status"
     = (if bool_decide (Status v = "") then None else Some (AStr (Status v)))
  /\ variantPayload v !! "deprecationInfo" = anyOfDeprecationInfo <$> Deprecation v
  /\ forall k, is_Some (variantPayload v !! k) ->
       k ∈ ["id"; "description"; "hints"; "status"; "deprecationInfo"].
Proof.
  unfold variantPayload.
  destruct (Hints v), (Deprecation v); repeat case_bool_decide;
    try congruence; simplify_map_eq; repeat split; try done;
    intros k [x Hk];
    repeat (apply lookup_insert_Some in Hk as [[<- _]|[_ Hk]];
            [set_solver|]);
    by rewrite lookup_empty in Hk.
Qed.

Lemma enrichInitResult_advertised s init req :
  let ranked := RankedVariants s (extractVariantHints req) in
  let r := enrichInitResult s (Some (RInitialize init)) req in
  advertisedVariants r = Some (map (fun v => AMap (variantPayload v)) ranked)
  /\ advertisedMore r = Some (bool_decide (length ranked < length (variants s))%nat).
Proof.
  simpl. unfold advertisedVariants, advertisedMore. simpl.
  rewrite lookup_insert_eq. by simplify_map_eq.
Qed.

Lemma enrichInitResult_other s r req :
  (forall init, r <> Some (RInitialize init)) -> enrichInitResult s r req = r.
Proof. destruct r as [[]|]; simpl; try done. intros H. by destruct (H r). Qed.

(** C10: an empty status weighs as [Stable] in the default ranking, which
    therefore ranks a list the same way when empty statuses are spelled out
    as [Stable]; and the entry of a variant with an empty status has no
    [status] field, in the list an initialize response advertises. *)
Theorem empty_status_is_stable hints vs s init req v :
  statusWeight "" = 0%Z
  /\ statusWeight "" = statusWeight Stable
  /\ defaultRankingFunc hints (map explicitStatus vs)
     = map explicitStatus (defaultRankingFunc hints vs)
  /\ variantPayload (withStatus v "") !! "status" = None
  /\ advertisedVariants (enrichInitResult s (Some (RInitialize init)) req)
     = Some (map (fun v => AMap (variantPayload v))
                 (RankedVariants s (extractVariantHints req))).
Proof.
  split; [done|]. split; [done|]. split.
  - unfold defaultRankingFunc. apply SortStableFunc_map, rankCmp_explicitStatus.
  - split; [|apply enrichInitResult_advertised].
    by destruct (variantPayload_fields (withStatus v "")) as (_ & _ & _ & -> & _).
Qed.

(** ** The registry *)

Lemma addVariant_panics s v b p :
  (exists msg, addVariant s v b p = Panic msg) <-> ID v ∈ map ID (Variants s).
Proof.
  unfold addVariant, Variants. rewrite map_map.
  destruct (existsb _ _) eqn:He.
  - split; [intros _|by eauto].
    apply existsb_exists in He as (e & Hin & Hid).
    apply bool_decide_eq_true in Hid. rewrite <- Hid.
    apply list_elem_of_In, in_map_iff. eauto.
  - split; [by intros [? ?]|]. intros Hin.
    apply list_elem_of_In, in_map_iff in Hin as (e & Hid & Hin).
    assert (existsb (fun e => bool_decide (ID (variant e) = ID v)) (variants s) = true)
      as Ht; [|congruence].
    apply existsb_exists. exists e. split; [done|]. by apply bool_decide_eq_true.
Qed.

Lemma addVariant_appends s v b p s' :
  addVariant s v b p = Ok s' ->
  variants s' = variants s ++ [mkVariantEntry (withPriority v p) b]
  /\ rankingFunc s' = rankingFunc s.
Proof. unfold addVariant. destruct (existsb _ _); [done|]. by intros [= <-]. Qed.

(** Registration keeps the identifiers of the registry distinct. *)
Lemma addVariant_NoDup s v b p s' :
  NoDup (map ID (Variants s)) -> addVariant s v b p = Ok s' ->
  NoDup (map ID (Variants s')).
Proof.
  intros Hnd Hadd.
  assert (Hfresh : ID v ∉ map ID (Variants s)).
  { intros Hin. apply (addVariant_panics s v b p) in Hin as [msg Hp]. congruence. }
  apply addVariant_appends in Hadd as [Hv _].
  unfold Variants in *. rewrite Hv, !map_app. simpl.
  apply NoDup_app. split; [done|]. split; [|repeat constructor; set_solver].
  intros x Hx Hx'. apply list_elem_of_singleton in Hx'. by subst.
Qed.

Lemma applyWrite_registry m ops : registry (fold_left applyWrite ops m) = registry m.
Proof.
  revert m. induction ops as [|op ops IH]; intros m; simpl; [done|].
  rewrite IH. by destruct op.
Qed.


(** ** The capability union *)

Lemma mergeExperimental_lookup (union caps : gmap string any) k :
  mergeExperimental union caps !! k
  = match union !! k with Some x => Some x | None => caps !! k end.
Proof.
  unfold mergeExperimental.
  induction caps as [|i x caps Hi Hfold IH] using map_first_key_ind.
  - rewrite map_fold_empty, lookup_empty. by destruct (union !! k).
  - rewrite map_fold_insert_first_key by done.
    destruct (decide (i = k)) as [->|Hne].
    + rewrite lookup_insert_eq.
      destruct (map_fold _ union caps !! k) eqn:Hacc.
      * rewrite Hacc. rewrite IH, Hi in Hacc. destruct (union !! k); congruence.
      * rewrite lookup_insert_eq. rewrite IH, Hi in Hacc.
        destruct (union !! k); congruence.
    + rewrite (lookup_insert_ne _ i k) by done. rewrite <- IH.
      destruct (map_fold _ union caps !! i); [done|by rewrite lookup_insert_ne].
Qed.

Lemma unionCapabilities_given allCaps u :
  fold_left unionStep allCaps u
  = fold_left (fun u c => unionStep u (Some c)) (given allCaps) u.
Proof.
  revert u. induction allCaps as [|[c|] l IH]; intros u; simpl; [done|apply IH..].
Qed.

Lemma elem_of_given c allCaps : c ∈ given allCaps <-> Some c ∈ allCaps.
Proof.
  unfold given. rewrite list_elem_of_omap. split.
  - by intros ([?|] & Hin & [= ->]).
  - intros Hin. by exists (Some c).
Qed.

Section UnionFold.
Context {B : Type}.

(** A field the loop sets once: the first value given. *)
Lemma fold_first (get : mcp.ServerCapabilities -> option B) l u :
  (forall u c, get (unionStep u (Some c))
               = match get u with Some x => Some x | None => get c end) ->
  get (fold_left (fun u c => unionStep u (Some c)) l u)
  = match get u with Some x => Some x | None => head (omap get l) end.
Proof.
  intros Hstep. revert u. induction l as [|c l IH]; intros u.
  - simpl. by destruct (get u).
  - cbn [fold_left]. rewrite IH, Hstep. simpl.
    destruct (get u); [done|]. by destruct (get c).
Qed.
End UnionFold.

(** A flag the loop accumulates by [||]. *)
Lemma fold_flag (flag : mcp.ServerCapabilities -> bool) l u :
  (forall u c, flag (unionStep u (Some c)) = flag u || flag c) ->
  flag (fold_left (fun u c => unionStep u (Some c)) l u) = flag u || existsb flag l.
Proof.
  intros Hstep. revert u. induction l as [|c l IH]; intros u.
  - simpl. by rewrite orb_false_r.
  - cbn [fold_left existsb]. by rewrite IH, Hstep, orb_assoc.
Qed.

Lemma flag_exists (flag : mcp.ServerCapabilities -> bool) allCaps :
  existsb flag (given allCaps) = true <-> exists c, Some c ∈ allCaps /\ flag c = true.
Proof.
  rewrite existsb_exists. split; intros (c & Hin & Hc); exists c; split; try done.
  - by apply elem_of_given, list_elem_of_In.
  - by apply list_elem_of_In, elem_of_given.
Qed.

Ltac union_flag :=
  intros u c; unfold unionStep, hasTools, hasResources, hasPrompts, hasExperimental,
    toolsListChanged, resourcesSubscribe, resourcesListChanged, promptsListChanged;
  simpl;
  destruct (mcp.Tools c), (mcp.Tools u), (mcp.Resources c), (mcp.Resources u),
    (mcp.Prompts c), (mcp.Prompts u), (mcp.Experimental c), (mcp.Experimental u);
  simpl; rewrite ?orb_false_r; try reflexivity;
  repeat case_bool_decide; try reflexivity;
  repeat match goal with
         | H : ~ is_Some (Some _) |- _ => destruct H; eauto
         | H : is_Some None |- _ => by destruct H
         end.

(** C3: the union advertises tools, resources and prompts exactly when an
    input does, and each of their flags is set exactly when an input sets
    it; completions and logging are the first ones given; an experimental
    key has the value of the first input that gives it one, and the map is
    present exactly when an input has one. *)
Theorem unionCapabilities_spec (allCaps : list (option mcp.ServerCapabilities)) :
  let u := unionCapabilities allCaps in
  (is_Some (mcp.Tools u) <-> exists c, Some c ∈ allCaps /\ is_Some (mcp.Tools c))
  /\ (is_Some (mcp.Resources u) <-> exists c, Some c ∈ allCaps /\ is_Some (mcp.Resources c))
  /\ (is_Some (mcp.Prompts u) <-> exists c, Some c ∈ allCaps /\ is_Some (mcp.Prompts c))
  /\ (toolsListChanged u = true
      <-> exists c, Some c ∈ allCaps /\ toolsListChanged c = true)
  /\ (resourcesSubscribe u = true
      <-> exists c, Some c ∈ allCaps /\ resourcesSubscribe c = true)
  /\ (resourcesListChanged u = true
      <-> exists c, Some c ∈ allCaps /\ resourcesListChanged c = true)
  /\ (promptsListChanged u = true
      <-> exists c, Some c ∈ allCaps /\ promptsListChanged c = true)
  /\ mcp.Completions u = head (omap mcp.Completions (omap id allCaps))
  /\ mcp.Logging u = head (omap mcp.Logging (omap id allCaps))
  /\ (is_Some (mcp.Experimental u)
      <-> exists c, Some c ∈ allCaps /\ is_Some (mcp.Experimental c))
  /\ (forall k, experimentalKey k u
                = head (omap (experimentalKey k) (omap id allCaps))).
Proof.
  simpl. unfold unionCapabilities. rewrite unionCapabilities_given.
  assert (Hhas : forall (has : mcp.ServerCapabilities -> bool) (P : mcp.ServerCapabilities -> Prop),
            (forall c, has c = true <-> P c) ->
            (forall u c, has (unionStep u (Some c)) = has u || has c) ->
            has mcp.emptyCapabilities = false ->
            P (fold_left (fun u c => unionStep u (Some c)) (given allCaps) mcp.emptyCapabilities)
            <-> exists c, Some c ∈ allCaps /\ P c).
  { intros has P HP Hstep H0. rewrite <- HP, fold_flag, H0 by done. simpl.
    rewrite flag_exists. by setoid_rewrite HP. }
  assert (Hflag : forall flag : mcp.ServerCapabilities -> bool,
            (forall u c, flag (unionStep u (Some c)) = flag u || flag c) ->
            flag mcp.emptyCapabilities = false ->
            flag (fold_left (fun u c => unionStep u (Some c)) (given allCaps) mcp.emptyCapabilities) = true
            <-> exists c, Some c ∈ allCaps /\ flag c = true).
  { intros flag Hstep H0. by rewrite fold_flag, H0, <- flag_exists. }
  split_and!.
  - apply (Hhas hasTools (fun c => is_Some (mcp.Tools c))); [intros c; apply bool_decide_eq_true | union_flag | done].
  - apply (Hhas hasResources (fun c => is_Some (mcp.Resources c))); [intros c; apply bool_decide_eq_true | union_flag | done].
  - apply (Hhas hasPrompts (fun c => is_Some (mcp.Prompts c))); [intros c; apply bool_decide_eq_true | union_flag | done].
  - apply Hflag; [union_flag | done].
  - apply Hflag; [union_flag | done].
  - apply Hflag; [union_flag | done].
  - apply Hflag; [union_flag | done].
  - rewrite fold_first; [done|]. intros u c. simpl.
    by destruct (mcp.Completions c), (mcp.Completions u).
  - rewrite fold_first; [done|]. intros u c. simpl.
    by destruct (mcp.Logging c), (mcp.Logging u).
  - apply (Hhas hasExperimental (fun c => is_Some (mcp.Experimental c)));
      [intros c; apply bool_decide_eq_true | union_flag | done].
  - intros k. rewrite (fold_first (experimentalKey k)); [done|].
    intros u c. unfold experimentalKey. simpl.
    destruct (mcp.Experimental c) as [e|].
    + rewrite mergeExperimental_lookup. by destruct (mcp.Experimental u) as [m|].
    + destruct (mcp.Experimental u) as [m|]; [|done]. by destruct (m !! k).
Qed.

(** ** Session state *)

Lemma extends_refl w : extends w w [].
Proof. unfold extends. by rewrite app_nil_r. Qed.

Lemma extends_trans w1 w2 w3 n1 n2 :
  extends w1 w2 n1 -> extends w2 w3 n2 -> extends w1 w3 (n1 ++ n2).
Proof.
  unfold extends. intros (-> & -> & ->) (-> & -> & ->).
  by rewrite app_assoc.
Qed.

Lemma innerConnection_close_spec c w :
  exists w', innerConnection_close c w = Ok (tt, w') /\ extends w w' (closeEvents c).
Proof.
  unfold innerConnection_close, closeEvents, handlesOf, bind, emit, ret, extends.
  destruct (cleanupFn c); simpl; eexists; (split; [reflexivity|]); simpl;
    by rewrite <- ?app_assoc.
Qed.

Lemma forEach_close_spec l w :
  exists w', forEach innerConnection_close l w = Ok (tt, w')
    /\ extends w w' (concat (map closeEvents l)).
Proof.
  revert w. induction l as [|c l IH]; intros w; cbn [forEach map concat].
  - exists w. split; [done|apply extends_refl].
  - destruct (innerConnection_close_spec c w) as (w1 & Hc & H1).
    destruct (IH w1) as (w2 & Hl & H2).
    exists w2. unfold bind. rewrite Hc. split; [done|].
    by eapply extends_trans.
Qed.

Lemma closedHandles_app t1 t2 :
  closedHandles (t1 ++ t2) = closedHandles t1 ++ closedHandles t2.
Proof. unfold closedHandles. apply omap_app. Qed.

Lemma openedHandles_app t1 t2 :
  openedHandles (t1 ++ t2) = openedHandles t1 ++ openedHandles t2.
Proof. unfold openedHandles. apply omap_app. Qed.

Lemma closedHandles_closeEvents c : closedHandles (closeEvents c) = handlesOf c.
Proof.
  unfold closeEvents, closedHandles.
  induction (handlesOf c) as [|h l IH]; [done|]. simpl. by f_equal.
Qed.

Lemma openedHandles_closeEvents c : openedHandles (closeEvents c) = [].
Proof. unfold closeEvents. by induction (handlesOf c). Qed.

Lemma openedHandles_closeAll l : openedHandles (concat (map closeEvents l)) = [].
Proof.
  induction l as [|c l IH]; [done|]. cbn [map concat].
  by rewrite openedHandles_app, openedHandles_closeEvents, IH.
Qed.

Lemma closedHandles_closeAll l c h :
  c ∈ l -> h ∈ handlesOf c -> h ∈ closedHandles (concat (map closeEvents l)).
Proof.
  intros Hc Hh. induction l as [|c' l IH].
  - by apply elem_of_nil in Hc.
  - cbn [map concat]. rewrite closedHandles_app, closedHandles_closeEvents.
    apply elem_of_app. apply elem_of_cons in Hc as [<-|Hc]; [by left|right; auto].
Qed.

(** Closing all connections of a map closes every handle of every one, and
    opens nothing. *)
Lemma closeAll_spec conns w :
  exists w' new, closeAll conns w = Ok (tt, w') /\ extends w w' new
    /\ openedHandles new = []
    /\ forall k c h, conns !! k = Some c -> h ∈ handlesOf c -> h ∈ closedHandles new.
Proof.
  unfold closeAll.
  destruct (forEach_close_spec (snd <$> map_to_list conns) w) as (w' & Hrun & Hext).
  exists w', (concat (map closeEvents (snd <$> map_to_list conns))).
  split; [done|]. split; [done|]. split; [apply openedHandles_closeAll|].
  intros k c h Hk Hh. apply (closedHandles_closeAll _ c); [|done].
  apply elem_of_map_to_list in Hk. apply list_elem_of_fmap. by exists (k, c).
Qed.

(** Connecting one backend: on failure every handle it opened is closed
    again; on success the handles of the connection are the ones opened,
    they are new, and nothing is closed. *)
Lemma connect_spec b v front w :
  exists r w' new, connect b v front w = Ok (r, w') /\ extends w w' new
    /\ (nextHandle w <= nextHandle w')%nat
    /\ (forall h, h ∈ openedHandles new -> (nextHandle w <= h < nextHandle w')%nat)
    /\ match r with
       | inl _ => connects b = false
                  /\ forall h, h ∈ openedHandles new -> h ∈ closedHandles new
       | inr c => connects b = true
                  /\ closedHandles new = []
                  /\ (forall h, h ∈ handlesOf c <-> h ∈ openedHandles new)
       end.
Proof.
  destruct b as [srv].
  unfold connect, connects, bind, openSession, emit, ret, extends.
  destruct (server_connect srv); simpl.
  - eexists _, _, [EvOpen (nextHandle w); EvOpen (S (nextHandle w))].
    split; [reflexivity|]. simpl. rewrite <- app_assoc. split; [done|].
    split; [lia|]. unfold handlesOf, openedHandles. simpl. split.
    + intros h Hh. repeat (apply elem_of_cons in Hh as [->|Hh]); try lia.
      by apply elem_of_nil in Hh.
    + split; [done|]. split; [done|]. intros h. rewrite !elem_of_cons.
      split; (intros [->|[->|Hh]]; [by right; left|by left|by right; right]).
  - eexists _, _, []. split; [reflexivity|]. simpl. rewrite app_nil_r.
    split; [done|]. split; [lia|].
    split; [intros h Hh; by apply elem_of_nil in Hh|].
    split; [done|]. intros h Hh. by apply elem_of_nil in Hh.
  - eexists _, _, [EvOpen (nextHandle w); EvClose (nextHandle w)].
    split; [reflexivity|]. simpl. rewrite <- app_assoc. split; [done|].
    split; [lia|]. unfold openedHandles, closedHandles. simpl. split; [|done].
    intros h Hh. apply list_elem_of_singleton in Hh as ->. lia.
Qed.

(** The loop over the entries, started with connections [conns] under
    identifiers none of the entries has: it never panics; when it fails,
    every handle opened meanwhile and every handle of [conns] is closed;
    when it succeeds, nothing is closed, [conns] is kept, and each entry
    has a connection whose handles were opened meanwhile. *)
Lemma connectEntries_spec entries front conns w :
  NoDup (map (fun e => ID (variant e)) entries) ->
  (forall e, e ∈ entries -> conns !! ID (variant e) = None) ->
  exists r w' new, connectEntries entries front conns w = Ok (r, w')
    /\ extends w w' new
    /\ (forall h, h ∈ openedHandles new -> (nextHandle w <= h)%nat)
    /\ match r with
       | inl _ =>
           (exists e, e ∈ entries /\ connects (entry_backend e) = false)
           /\ (forall h, h ∈ openedHandles new -> h ∈ closedHandles new)
           /\ (forall k c h, conns !! k = Some c -> h ∈ handlesOf c ->
                 h ∈ closedHandles new)
       | inr conns' =>
           (forall e, e ∈ entries -> connects (entry_backend e) = true)
           /\ closedHandles new = []
           /\ (forall k, k ∉ map (fun e => ID (variant e)) entries ->
                 conns' !! k = conns !! k)
           /\ (forall e, e ∈ entries ->
                 exists c, conns' !! ID (variant e) = Some c
                   /\ forall h, h ∈ handlesOf c -> h ∈ openedHandles new)
       end.
Proof.
  revert conns w. induction entries as [|e entries IH]; intros conns w Hnd Hfree.
  - exists (inr conns), w, []. split; [done|]. split; [apply extends_refl|].
    split; [intros h Hh; by apply elem_of_nil in Hh|].
    split; [intros e He; by apply elem_of_nil in He|].
    split; [done|]. split; [done|]. intros e He. by apply elem_of_nil in He.
  - cbn [connectEntries]. apply NoDup_cons in Hnd as [Hid Hnd].
    destruct (connect_spec (entry_backend e) (variant e) front w)
      as (r1 & w1 & n1 & Hrun1 & Hext1 & Hle1 & Hfresh1 & Hr1).
    unfold bind at 1. rewrite Hrun1. destruct r1 as [err|c].
    + destruct Hr1 as [Hb1 Hr1].
      destruct (closeAll_spec conns w1) as (w2 & n2 & Hrun2 & Hext2 & Hop2 & Hcl2).
      exists (inl err), w2, (n1 ++ n2). unfold bind, ret. rewrite Hrun2.
      split; [done|]. split; [by eapply extends_trans|].
      split.
      { intros h. rewrite openedHandles_app, Hop2, app_nil_r. intros Hh.
        apply Hfresh1 in Hh. lia. }
      split.
      { exists e. split; [left|done]. }
      split.
      * intros h. rewrite openedHandles_app, Hop2, app_nil_r, closedHandles_app.
        intros Hh. apply elem_of_app. left. by apply Hr1.
      * intros k c h Hk Hh. rewrite closedHandles_app. apply elem_of_app. right.
        by eapply Hcl2.
    + destruct Hr1 as (Hb1 & Hcl1 & Hop1).
      destruct (IH (<[ID (variant e) := c]> conns) w1 Hnd)
        as (r2 & w2 & n2 & Hrun2 & Hext2 & Hfresh2 & Hr2).
      { intros e' He'. rewrite lookup_insert_ne; [apply Hfree; by right|].
        intros Heq. apply Hid. rewrite Heq.
        by apply (list_elem_of_fmap_2 (fun e => ID (variant e))). }
      exists r2, w2, (n1 ++ n2). split; [done|].
      split; [by eapply extends_trans|].
      split.
      { intros h. rewrite openedHandles_app. intros [Hh|Hh]%elem_of_app.
        - apply Hfresh1 in Hh. lia.
        - apply Hfresh2 in Hh. lia. }
      destruct r2 as [err|conns'].
      * destruct Hr2 as (Hfail & Hopen & Hold). split.
        { destruct Hfail as (e' & He' & Hb). exists e'. split; [by right|done]. }
        split.
        -- intros h. rewrite openedHandles_app, closedHandles_app.
           intros [Hh|Hh]%elem_of_app; apply elem_of_app; right.
           ++ apply (Hold (ID (variant e)) c); [apply lookup_insert_eq|by apply Hop1].
           ++ by apply Hopen.
        -- intros k c' h Hk Hh. rewrite closedHandles_app. apply elem_of_app. right.
           apply (Hold k c'); [|done].
           rewrite lookup_insert_ne; [done|]. intros <-.
           rewrite Hfree in Hk; [done|by left].
      * destruct Hr2 as (Hall & Hcl2 & Hkeep & Hnew). split.
        { intros e' [->|He']%elem_of_cons; [done|by apply Hall]. }
        split.
        { by rewrite closedHandles_app, Hcl1, Hcl2. }
        split.
        -- intros k Hk. cbn [map] in Hk. apply not_elem_of_cons in Hk as [Hne Hk].
           rewrite Hkeep by done. by rewrite lookup_insert_ne.
        -- intros e' [->|He']%elem_of_cons.
           ++ exists c. rewrite Hkeep by done. rewrite lookup_insert_eq.
              split; [done|]. intros h Hh. rewrite openedHandles_app.
              apply elem_of_app. left. by apply Hop1.
           ++ destruct (Hnew e' He') as (c' & Hc' & Hh'). exists c'.
              split; [done|]. intros h Hh. rewrite openedHandles_app.
              apply elem_of_app. right. by apply Hh'.
Qed.

Lemma createSessionState_spec s front w :
  NoDup (map ID (Variants s)) ->
  exists r w' new, createSessionState s front w = Ok (r, w')
    /\ extends w w' new
    /\ match r with
       | inl _ =>
           (exists e, e ∈ variants s /\ connects (entry_backend e) = false)
           /\ (forall h, h ∈ openedHandles new -> h ∈ closedHandles new)
       | inr state =>
           (forall e, e ∈ variants s -> connects (entry_backend e) = true)
           /\ closedHandles new = []
           /\ server (state_dispatcher state) = s
           /\ (forall id, is_Some (connections (state_dispatcher state) !! id)
                          <-> id ∈ map ID (Variants s))
           /\ size (connections (state_dispatcher state)) = length (variants s)
           /\ (forall id c h, connections (state_dispatcher state) !! id = Some c ->
                 h ∈ handlesOf c -> h ∈ openedHandles new)
       end.
Proof.
  intros Hnd. unfold Variants in Hnd. rewrite map_map in Hnd.
  destruct (connectEntries_spec (variants s) front ∅ w Hnd)
    as (r & w' & new & Hrun & Hext & _ & Hr).
  { intros e _. apply lookup_empty. }
  unfold createSessionState, bind, ret. rewrite Hrun.
  destruct r as [err|conns].
  - exists (inl err), w', new. split; [done|]. split; [done|].
    destruct Hr as (Hfail & Hclosed & _). done.
  - exists (inr (mkSessionState (mkDispatcher s conns))), w', new.
    split; [done|]. split; [done|].
    destruct Hr as (Hall & Hcl & Hkeep & Hnew). simpl.
    assert (Hdom : forall id, is_Some (conns !! id) <-> id ∈ map ID (Variants s)).
    { intros id. unfold Variants. rewrite map_map. split.
      - intros Hsome.
        destruct (decide (id ∈ map (fun e => ID (variant e)) (variants s)))
          as [|Hout]; [done|].
        rewrite (Hkeep id Hout), lookup_empty in Hsome. by destruct Hsome.
      - intros (e & -> & He)%list_elem_of_fmap.
        destruct (Hnew e He) as (c & Hc & _). eauto. }
    split; [done|]. split; [done|]. split; [done|]. split; [done|]. split.
    + assert (Hset : dom conns = list_to_set (map ID (Variants s))).
      { apply set_eq. intros id. rewrite elem_of_dom, elem_of_list_to_set. apply Hdom. }
      rewrite <- size_dom, Hset, size_list_to_set.
      * unfold Variants. by rewrite !length_map.
      * unfold Variants. by rewrite map_map.
    + intros id c h Hc Hh.
      assert (Hin : id ∈ map ID (Variants s)) by (apply Hdom; eauto).
      unfold Variants in Hin. rewrite map_map in Hin.
      apply list_elem_of_fmap in Hin as (e & -> & He).
      destruct (Hnew e He) as (c' & Hc' & Hopen).
      rewrite Hc in Hc'. injection Hc' as <-. by apply Hopen.
Qed.

(** C7: when [initialize] creates the state of a session, a backend that
    fails to connect makes the request fail with every handle opened
    meanwhile closed again and no state stored; when all backends connect,
    the state stored for the session holds one open connection for each
    registered variant and no other. *)
Theorem initialize_connects_atomically s next req w r w1 :
  NoDup (map ID (Variants s)) ->
  next "initialize" req w = Ok (inr r, w1) ->
  exists out w2 new,
    sessionMiddleware s None next "initialize" req w = Ok (out, w2)
    /\ trace w2 = trace w1 ++ new
    /\ match out with
       | inl _ =>
           (exists e, e ∈ variants s /\ connects (entry_backend e) = false)
           /\ (forall h, h ∈ openedHandles new -> h ∈ closedHandles new)
           /\ sessions w2 = sessions w1
       | inr _ =>
           (forall e, e ∈ variants s -> connects (entry_backend e) = true)
           /\ closedHandles new = []
           /\ exists state,
                sessions w2 = <[GetSession req := state]> (sessions w1)
                /\ server (state_dispatcher state) = s
                /\ (forall id, is_Some (connections (state_dispatcher state) !! id)
                               <-> id ∈ map ID (Variants s))
                /\ size (connections (state_dispatcher state)) = length (variants s)
                /\ (forall id c h,
                      connections (state_dispatcher state) !! id = Some c ->
                      h ∈ handlesOf c -> h ∈ openedHandles new)
       end.
Proof.
  intros Hnd Hnext.
  destruct (createSessionState_spec s (Some (GetSession req)) w1 Hnd)
    as (created & w2 & new & Hrun & (Htrace & Hsessions & Hreply) & Hcreated).
  unfold sessionMiddleware. rewrite bool_decide_eq_true_2 by done.
  unfold bind at 1. rewrite Hnext. unfold bind at 1. rewrite Hrun.
  destruct created as [err|state].
  - exists (inl err), w2, new. split; [done|]. split; [done|].
    destruct Hcreated as [Hfail Hclosed]. done.
  - eexists (inr _), _, new. unfold bind, storeSession, ret. simpl.
    split; [reflexivity|]. split; [done|].
    destruct Hcreated as (Hall & Hcl & Hrest). split; [done|]. split; [done|].
    exists state. by rewrite Hsessions.
Qed.

Lemma initialize_connects_atomically_witness :
  exists out w2 new,
    sessionMiddleware (registered brokenVariantServer) None sdkHandler "initialize"
      (initializeWith "openai") quietWorld = Ok (out, w2)
    /\ trace w2 = trace quietWorld ++ new
    /\ match out with
       | inl _ =>
           (exists e, e ∈ variants (registered brokenVariantServer)
                      /\ connects (entry_backend e) = false)
           /\ (forall h, h ∈ openedHandles new -> h ∈ closedHandles new)
           /\ sessions w2 = sessions quietWorld
       | inr _ =>
           (forall e, e ∈ variants (registered brokenVariantServer) ->
                      connects (entry_backend e) = true)
           /\ closedHandles new = []
           /\ exists state,
                sessions w2 = <[GetSession (initializeWith "openai") := state]>
                                (sessions quietWorld)
                /\ server (state_dispatcher state) = registered brokenVariantServer
                /\ (forall id, is_Some (connections (state_dispatcher state) !! id)
                               <-> id ∈ map ID (Variants (registered brokenVariantServer)))
                /\ size (connections (state_dispatcher state))
                   = length (variants (registered brokenVariantServer))
                /\ (forall id c h,
                      connections (state_dispatcher state) !! id = Some c ->
                      h ∈ handlesOf c -> h ∈ openedHandles new)
       end.
Proof.
  apply (initialize_connects_atomically (registered brokenVariantServer) sdkHandler
           (initializeWith "openai") quietWorld
           (Some (RInitialize (mkInitializeResult None ANil))) quietWorld).
  - apply (bool_decide_unpack _). by vm_compute.
  - reflexivity.
Defined.

Lemma succeeded_run run :
  succeeded run = true -> run = Ok (inr (replyOf run), worldOf run).
Proof. by destruct run as [[[err|r] w]|]. Qed.

Lemma isInitialize_result r :
  isInitialize r = true -> exists init, r = Some (RInitialize init).
Proof. destruct r as [[| |]|]; try done. eauto. Qed.

(** The hints [extractVariantHints] returns are those of the object under
    [variantHints] in the entry of the extension, and empty when the
    request holds no such object. *)
Lemma extractVariantHints_cases req :
  (exists meta experimental extension vh,
      GetParams req
      = Some (mkParams meta
                (PInitialize (Some (mkClientCapabilities (Some experimental)))))
      /\ experimental !! extensionID = Some (AMap extension)
      /\ extension !! "variantHints" = Some (AMap vh)
      /\ extractVariantHints req
         = mkVariantHints
             (match vh !! "description" with Some (AStr d) => d | _ => "" end)
             (match vh !! "hints" with Some (AMap h) => Some h | _ => None end))
  \/ ((forall meta experimental extension vh,
         GetParams req
         = Some (mkParams meta
                   (PInitialize (Some (mkClientCapabilities (Some experimental))))) ->
         experimental !! extensionID = Some (AMap extension) ->
         extension !! "variantHints" = Some (AMap vh) -> False)
      /\ extractVariantHints req = noHints).
Proof.
  unfold extractVariantHints.
  destruct (GetParams req) as [[meta pbody]|]; [|by right].
  destruct pbody as [| | | | | | | |[[[experimental|]]|]|]; try by right.
  cbn [client_Experimental].
  destruct (experimental !! extensionID) as [ext|] eqn:Hext.
  - destruct ext as [| | | | |extension];
      try (right; rewrite lookup_empty; split; [|done];
           intros ? ? ? ? [= <- <-] Hext' _; congruence).
    destruct (extension !! "variantHints") as [vh|] eqn:Hvh.
    + destruct vh as [| | | | |vh];
        try (right; split; [|done];
             intros ? ? ? ? [= <- <-] Hext' Hvh'; congruence).
      left. by exists meta, experimental, extension, vh.
    + right. split; [|done]. intros ? ? ? ? [= <- <-] Hext' Hvh'. congruence.
  - right. split; [|done]. intros ? ? ? ? [= <- <-] Hext' _. congruence.
Qed.

(** [RankedVariants] applies the ranking function of the server, or the
    default one, to the registered descriptors. *)
Lemma RankedVariants_applies s hints :
  RankedVariants s hints
  = match Variants s with
    | [] => []
    | _ :: _ =>
        match rankingFunc s with
        | Some fn => fn
        | None => defaultRankingFunc
        end hints (Variants s)
    end.
Proof. unfold RankedVariants. by destruct (Variants s). Qed.

(** C9: the result of an [initialize] request that succeeds with an
    initialize result advertises, under the extension key, the variants in
    the order in which the ranking function of the server (the default one
    when it has none) returns the registered descriptors for the hints of
    the client: the [description] and the [hints] of the object that the
    request holds at [capabilities.experimental], under the extension key,
    under [variantHints], and empty hints when the request holds no such
    object. Each entry has the [id] and the [description] of its
    descriptor, and [hints], [status] and [deprecationInfo] exactly when
    the descriptor has them; [moreVariantsAvailable] tells whether the
    ranking returned fewer variants than are registered. *)
Theorem initialize_advertises_ranked_variants s shared next req w r w' :
  sessionMiddleware s shared next "initialize" req w = Ok (inr r, w') ->
  (exists init, r = Some (RInitialize init)) ->
  let ranked (hints : VariantHints) : list ServerVariant :=
    match Variants s with
    | [] => []
    | _ :: _ =>
        match rankingFunc s with
        | Some fn => fn
        | None => defaultRankingFunc
        end hints (Variants s)
    end in
  let advertises (hints : VariantHints) : Prop :=
    advertisedVariants r
    = Some (map (fun v => AMap (variantPayload v)) (ranked hints))
    /\ advertisedMore r
       = Some (bool_decide (length (ranked hints) < length (Variants s))%nat) in
  (forall meta experimental extension vh,
     GetParams req
     = Some (mkParams meta
               (PInitialize (Some (mkClientCapabilities (Some experimental))))) ->
     experimental !! extensionID = Some (AMap extension) ->
     extension !! "variantHints" = Some (AMap vh) ->
     advertises
       (mkVariantHints
          (match vh !! "description" with Some (AStr d) => d | _ => "" end)
          (match vh !! "hints" with Some (AMap h) => Some h | _ => None end)))
  /\ ((forall meta experimental extension vh,
         GetParams req
         = Some (mkParams meta
                   (PInitialize (Some (mkClientCapabilities (Some experimental))))) ->
         experimental !! extensionID = Some (AMap extension) ->
         extension !! "variantHints" = Some (AMap vh) -> False) ->
      advertises noHints)
  /\ forall v,
       variantPayload v !! "id" = Some (AStr (ID v))
       /\ variantPayload v !! "description" = Some (AStr (Description v))
       /\ variantPayload v !! "hints" = (fun h => AMap (AStr <$> h)) <$> Hints v
       /\ variantPayload v !! "status"
          = (if bool_decide (Status v = "") then None else Some (AStr (Status v)))
       /\ variantPayload v !! "deprecationInfo"
          = anyOfDeprecationInfo <$> Deprecation v
       /\ forall k, is_Some (variantPayload v !! k) ->
            k ∈ ["id"; "description"; "hints"; "status"; "deprecationInfo"].
Proof.
  intros Hrun [init ->]. cbv zeta.
  assert (Hr : exists init0,
             Some (RInitialize init) = enrichInitResult s (Some (RInitialize init0)) req).
  { unfold sessionMiddleware in Hrun. rewrite bool_decide_eq_true_2 in Hrun by done.
    unfold bind in Hrun. destruct (next "initialize" req w) as [[[err|r0] w0]|]; [| |done].
    { destruct shared; by injection Hrun. }
    assert (Henrich : Some (RInitialize init) = enrichInitResult s r0 req).
    { destruct shared as [sh|].
      - unfold ret in Hrun. by injection Hrun as <- _.
      - destruct (createSessionState s (Some (GetSession req)) w0)
          as [[[err|state] w1]|]; [by injection Hrun| |done].
        unfold storeSession, ret in Hrun. by injection Hrun as <- _. }
    destruct r0 as [[items next0|init0|a]|]; try done. by exists init0. }
  destruct Hr as [init0 ->].
  destruct (enrichInitResult_advertised s init0 req) as [Hlist Hmore].
  rewrite RankedVariants_applies in Hlist, Hmore.
  assert (Hlen : length (variants s) = length (Variants s)).
  { unfold Variants. by rewrite length_map. }
  rewrite Hlen in Hmore.
  split_and!.
  - intros meta experimental extension vh Hp Hext Hvh.
    destruct (extractVariantHints_cases req)
      as [(meta' & experimental' & extension' & vh' & Hp' & Hext' & Hvh' & Hhints)
         |[Hnone _]].
    + rewrite Hp in Hp'. injection Hp' as <- <-.
      rewrite Hext in Hext'. injection Hext' as <-.
      rewrite Hvh in Hvh'. injection Hvh' as <-.
      by rewrite Hhints in Hlist, Hmore.
    + by destruct (Hnone meta experimental extension vh).
  - intros Hnone.
    destruct (extractVariantHints_cases req)
      as [(meta' & experimental' & extension' & vh' & Hp' & Hext' & Hvh' & _)
         |[_ Hhints]].
    + by destruct (Hnone meta' experimental' extension' vh').
    + by rewrite Hhints in Hlist, Hmore.
  - apply variantPayload_fields.
Qed.

Lemma initialize_advertises_ranked_variants_witness :
  let sent := mkVariantHints "" (Some (<["modelFamily" := AStr "openai"]> ∅)) in
  let ranked := modelFamilyRanking sent (Variants (registered weatherService)) in
  rankingFunc (registered weatherService) = Some modelFamilyRanking
  /\ map ID ranked = ["gpt-optimized"; "claude-optimized"; "compact"]
  /\ advertisedVariants (replyOf weatherInitialize)
     = Some (map (fun v => AMap (variantPayload v)) ranked)
  /\ advertisedMore (replyOf weatherInitialize)
     = Some (bool_decide (length ranked
                          < length (Variants (registered weatherService)))%nat).
Proof.
  cbv zeta. split; [reflexivity|]. split; [by vm_compute|].
  refine (proj1 (initialize_advertises_ranked_variants
                   (registered weatherService) None sdkHandler
                   (initializeWith "openai") quietWorld
                   (replyOf weatherInitialize) (worldOf weatherInitialize) _ _)
            None
            (<[extensionID
               := AMap (<["variantHints"
                          := AMap (<["hints"
                                     := AMap (<["modelFamily" := AStr "openai"]> ∅)]> ∅)]>
                          ∅)]> ∅)
            (<["variantHints"
               := AMap (<["hints" := AMap (<["modelFamily" := AStr "openai"]> ∅)]> ∅)]> ∅)
            (<["hints" := AMap (<["modelFamily" := AStr "openai"]> ∅)]> ∅) _ _ _).
  - apply (succeeded_run weatherInitialize). vm_compute. reflexivity.
  - apply isInitialize_result. vm_compute. reflexivity.
  - reflexivity.
  - reflexivity.
  - reflexivity.
Defined.

(** ** Default selection *)

(** Without a custom ranking function the hints play no part, so the
    default of a request is the first variant [initialize] advertised. *)
Lemma default_ranking_ignores_hints s hints :
  rankingFunc s = None -> RankedVariants s hints = RankedVariants s noHints.
Proof. unfold RankedVariants. by intros ->. Qed.

(** C1: on the example server, whose ranking function reads the client's
    hints, [initialize] with the hint [modelFamily = openai] advertises
    [gpt-optimized] first; the [tools/list] request that follows without a
    selector is sent on the session of [claude-optimized], the first
    variant of a ranking with empty hints. *)
Theorem default_selection_reranks_without_hints :
  succeeded weatherInitialize = true
  /\ advertisedIDs (replyOf weatherInitialize)
     = ["gpt-optimized"; "claude-optimized"; "compact"]
  /\ map ID (RankedVariants (registered weatherService) noHints)
     = ["claude-optimized"; "gpt-optimized"; "compact"]
  /\ sessionOfVariant (worldOf weatherInitialize) 7 "gpt-optimized" = Some 3%nat
  /\ sessionOfVariant (worldOf weatherInitialize) 7 "claude-optimized" = Some 1%nat
  /\ succeeded weatherListTools = true
  /\ calledSessions (trace (worldOf weatherListTools)) = [1%nat].
Proof. by vm_compute. Qed.

(** ** Variant resolution *)

Ltac method_cases H :=
  unfold routedMethods, listMethods, callMethods in H; simpl in H;
  repeat (apply elem_of_cons in H as [->|H]);
  [..|by apply elem_of_nil in H].

(** A routed method answers with the error of [getSession], and leaves the
    world alone. *)
Lemma handle_getSession_error d method req next w err :
  method ∈ routedMethods -> getSession d req = inl err ->
  handle d method req next w = Ok (inl err, w).
Proof.
  intros Hm Hg. method_cases Hm;
    unfold handle, handleList, handleCall, handleSubscribe, handleUnsubscribe,
      handleCompletion;
    repeat (first [ rewrite bool_decide_eq_true_2 by (by vm_compute)
                  | rewrite bool_decide_eq_false_2 by (by vm_compute) ]);
    by rewrite Hg.
Qed.

Lemma getSession_unknown d req p meta id :
  GetParams req = Some p -> Meta p = Some meta ->
  meta !! metaKeyVariant = Some (AStr id) -> id <> "" ->
  connections d !! id = None ->
  getSession d req = inl (createInvalidVariantError d id).
Proof.
  intros Hp Hmeta Hid Hne Hconn. unfold getSession, variantIDFromMeta.
  rewrite Hp, Hmeta, Hid. rewrite bool_decide_eq_false_2 by done.
  by rewrite Hconn.
Qed.

(** ** Error enrichment *)

(** What [enrichError] does, case by case: an error that is no JSON-RPC
    error, or one with another code, is returned as it is; an error of a
    resolution class is rebuilt with [activeVariant] added to the fields of
    its data and the whole written by [json.Marshal], unless the data is
    the JSON text [null], on which the call panics. *)
Lemma enrichError_cases err v :
  match errors_As err with
  | None => enrichError err v = Ok err
  | Some jErr =>
      if resolutionClass (jsonrpc.Code jErr) then
        match jsonrpc.Data jErr with
        | jsonrpc.RawJSON ANil =>
            enrichError err v = Panic "assignment to entry in nil map"
        | _ =>
            enrichError err v
            = Ok (ErrRPC (jsonrpc.mkError (jsonrpc.Code jErr) (jsonrpc.Message jErr)
                            (marshalMap (<["activeVariant" := AStr v]>
                                           (default ∅ (dataFields jErr))))))
        end
      else enrichError err v = Ok err
  end.
Proof.
  unfold enrichError, resolutionClass, dataFields.
  destruct (errors_As err) as [jErr|]; [|done].
  unfold jsonrpc.CodeInvalidParams, jsonrpc.CodeMethodNotFound.
  case_bool_decide; [|done].
  destruct (jsonrpc.Data jErr) as [| |[]] eqn:Hd; simpl; try done.
  by rewrite (right_id_L ∅ (∪)).
Qed.

(** C6: an invalid-params error whose data is the JSON text [null] makes
    [enrichError] panic, where the claim has it return the error enriched;
    so does a routed call whose inner session answers with that error. *)
Theorem enrichError_null_data_panics :
  errors_As nullDataError
  = Some (jsonrpc.mkError (-32602) "unknown tool" (jsonrpc.RawJSON ANil))
  /\ enrichError nullDataError "coding" = Panic "assignment to entry in nil map"
  /\ handle testDispatcher "tools/call" (callToolSelecting "coding") sdkHandler
       nullDataWorld
     = Panic "assignment to entry in nil map".
Proof. by vm_compute. Qed.

(** A routed call hands the error of the inner session to [enrichError]
    with the variant it resolved. *)
Lemma forwardReply_error v wrapNext err w :
  forwardReply v wrapNext (inl err) w
  = match enrichError err v with
    | Ok enriched => Ok (inl enriched, w)
    | Panic msg => Panic msg
    end.
Proof. unfold forwardReply, bind, liftResult, ret. by destruct (enrichError err v). Qed.

(** ** Bit fields as arithmetic *)

Ltac euclid := zify; Z.to_euclidean_division_equations; lia.

(** A value below [2^k] put under a value shifted by [k] adds to it. *)
Lemma lor_shiftl_add (a b k : N) :
  (b < 2 ^ k)%N -> N.lor (N.shiftl a k) b = (a * 2 ^ k + b)%N.
Proof.
  intros Hb.
  assert (Hdisjoint : N.land (N.shiftl a k) b = 0%N).
  { apply N.bits_inj. intros i. rewrite N.land_spec, N.bits_0.
    destruct (N.ltb_spec i k) as [Hi|Hi].
    - by rewrite N.shiftl_spec_low.
    - destruct (N.eq_dec b 0%N) as [->|Hb0]; [by rewrite N.bits_0, andb_false_r|].
      rewrite (N.bits_above_log2 b i), andb_false_r; [done|].
      apply N.log2_lt_pow2 in Hb; lia. }
  by rewrite <- N.lxor_lor, <- N.add_nocarry_lxor, N.shiftl_mul_pow2.
Qed.

Lemma land_mask (a k : N) : N.land a (N.ones k) = (a mod 2 ^ k)%N.
Proof. apply N.land_ones. Qed.

Lemma byte_of_code c : byte_of (code c) = c.
Proof.
  unfold byte_of. change 255%N with (N.ones 8). rewrite land_mask.
  rewrite N.mod_small by apply N_ascii_bounded. apply ascii_N_embedding.
Qed.

Lemma byte_of_mod n : byte_of n = ascii_of_N (n mod 256).
Proof. unfold byte_of. change 255%N with (N.ones 8). by rewrite land_mask. Qed.

(** ** Base64 *)

Lemma decodeChar_encodeChar n :
  (n < 64)%N -> base64.decodeChar (base64.encodeChar n) = Some n.
Proof.
  intros Hn.
  assert (Hall : Forall (fun i => base64.decodeChar (base64.encodeChar (N.of_nat i))
                                  = Some (N.of_nat i)) (seq 0 64)).
  { apply (bool_decide_unpack _). by vm_compute. }
  rewrite Forall_forall in Hall.
  rewrite <- (N2Nat.id n). apply Hall, list_elem_of_In, in_seq. lia.
Qed.

(** Three bytes packed into 24 bits, and the 6-bit fields of the word. *)
Lemma shiftl_const (x k : N) : N.shiftl x k = (x * 2 ^ k)%N.
Proof. apply N.shiftl_mul_pow2. Qed.

Lemma pack3 (a b c : N) :
  (b < 256)%N -> (c < 256)%N ->
  N.lor (N.lor (N.shiftl a 16) (N.shiftl b 8)) c = (a * 65536 + b * 256 + c)%N.
Proof.
  intros Hb Hc.
  assert (E1 : N.lor (N.shiftl a 16) (N.shiftl b 8) = N.shiftl (a * 256 + b) 8).
  { rewrite (shiftl_const b 8), (shiftl_const (a * 256 + b) 8), lor_shiftl_add.
    - change (2 ^ 16)%N with 65536%N. change (2 ^ 8)%N with 256%N. lia.
    - change (2 ^ 16)%N with 65536%N. change (2 ^ 8)%N with 256%N. lia. }
  rewrite E1, lor_shiftl_add.
  - change (2 ^ 8)%N with 256%N. lia.
  - change (2 ^ 8)%N with 256%N. lia.
Qed.

Lemma pack4 (d0 d1 d2 d3 : N) :
  (d1 < 64)%N -> (d2 < 64)%N -> (d3 < 64)%N ->
  N.lor (N.lor (N.lor (N.shiftl d0 18) (N.shiftl d1 12)) (N.shiftl d2 6)) d3
  = (d0 * 262144 + d1 * 4096 + d2 * 64 + d3)%N.
Proof.
  intros H1 H2 H3.
  assert (E1 : N.lor (N.shiftl d0 18) (N.shiftl d1 12) = N.shiftl (d0 * 64 + d1) 12).
  { rewrite (shiftl_const d1 12), (shiftl_const (d0 * 64 + d1) 12), lor_shiftl_add.
    - change (2 ^ 18)%N with 262144%N. change (2 ^ 12)%N with 4096%N. lia.
    - change (2 ^ 18)%N with 262144%N. change (2 ^ 12)%N with 4096%N. lia. }
  assert (E2 : N.lor (N.shiftl (d0 * 64 + d1) 12) (N.shiftl d2 6)
               = N.shiftl ((d0 * 64 + d1) * 64 + d2) 6).
  { rewrite (shiftl_const d2 6), (shiftl_const (_ + d2) 6), lor_shiftl_add.
    - change (2 ^ 12)%N with 4096%N. change (2 ^ 6)%N with 64%N. lia.
    - change (2 ^ 12)%N with 4096%N. change (2 ^ 6)%N with 64%N. lia. }
  rewrite E1, E2, lor_shiftl_add.
  - change (2 ^ 6)%N with 64%N. lia.
  - change (2 ^ 6)%N with 64%N. lia.
Qed.

Lemma sextet (v k : N) : N.land (N.shiftr v k) 63 = ((v / 2 ^ k) mod 64)%N.
Proof.
  change 63%N with (N.ones 6). by rewrite land_mask, N.shiftr_div_pow2.
Qed.

Lemma sextets_of_word (a b c : N) :
  (a < 256)%N -> (b < 256)%N -> (c < 256)%N ->
  let v := (a * 65536 + b * 256 + c)%N in
  ((v / 262144) mod 64 = a / 4
   /\ (v / 4096) mod 64 = (a mod 4) * 16 + b / 16
   /\ (v / 64) mod 64 = (b mod 16) * 4 + c / 64
   /\ v mod 64 = c mod 64)%N.
Proof. intros Ha Hb Hc v. unfold v. repeat split; euclid. Qed.

Lemma word_of_sextets (a b c : N) :
  (a < 256)%N -> (b < 256)%N -> (c < 256)%N ->
  ((a / 4) * 262144 + ((a mod 4) * 16 + b / 16) * 4096
   + ((b mod 16) * 4 + c / 64) * 64 + c mod 64
   = a * 65536 + b * 256 + c)%N.
Proof. intros Ha Hb Hc. euclid. Qed.

Lemma bytes_of_word (a b c : N) :
  (a < 256)%N -> (b < 256)%N -> (c < 256)%N ->
  let v := (a * 65536 + b * 256 + c)%N in
  ((v / 65536) mod 256 = a /\ (v / 256) mod 256 = b /\ v mod 256 = c)%N.
Proof. intros Ha Hb Hc v. unfold v. repeat split; euclid. Qed.

(** The four values of a quantum, read back, give its three bytes. *)
Lemma quantum_of_bytes (a b c : N) :
  (a < 256)%N -> (b < 256)%N -> (c < 256)%N ->
  let val := N.lor (N.lor (N.shiftl a 16) (N.shiftl b 8)) c in
  base64.quantum (N.land (N.shiftr val 18) 63) (N.land (N.shiftr val 12) 63)
                 (N.land (N.shiftr val 6) 63) (N.land val 63)
  = [ascii_of_N a; ascii_of_N b; ascii_of_N c].
Proof.
  intros Ha Hb Hc val. unfold val. clear val. rewrite pack3 by done.
  rewrite <- (N.shiftr_0_r (a * 65536 + b * 256 + c)) at 4.
  rewrite !sextet.
  change (2 ^ 18)%N with 262144%N. change (2 ^ 12)%N with 4096%N.
  change (2 ^ 6)%N with 64%N. change (2 ^ 0)%N with 1%N. rewrite N.div_1_r.
  destruct (sextets_of_word a b c Ha Hb Hc) as (-> & -> & -> & ->).
  unfold base64.quantum.
  rewrite pack4 by euclid.
  rewrite word_of_sextets by done.
  rewrite !byte_of_mod, !N.shiftr_div_pow2.
  change (2 ^ 16)%N with 65536%N. change (2 ^ 8)%N with 256%N.
  by destruct (bytes_of_word a b c Ha Hb Hc) as (-> & -> & ->).
Qed.

Lemma decode_quantum e0 e1 e2 e3 d0 d1 d2 d3 rest :
  base64.decodeChar e0 = Some d0 -> base64.decodeChar e1 = Some d1 ->
  base64.decodeChar e2 = Some d2 -> base64.decodeChar e3 = Some d3 ->
  base64.decodeFrom (e0 :: e1 :: e2 :: e3 :: rest) []
  = match base64.decodeFrom rest [] with
    | Some out => Some (base64.quantum d0 d1 d2 d3 ++ out)
    | None => None
    end.
Proof. intros H0 H1 H2 H3. cbn [base64.decodeFrom]. by rewrite H0, H1, H2, H3. Qed.

Lemma decode_padded2 e0 e1 d0 d1 :
  base64.decodeChar e0 = Some d0 -> base64.decodeChar e1 = Some d1 ->
  base64.decodeFrom [e0; e1; base64.padChar; base64.padChar] []
  = Some (take 1 (base64.quantum d0 d1 0 0)).
Proof. intros H0 H1. cbn [base64.decodeFrom]. by rewrite H0, H1. Qed.

Lemma decode_padded1 e0 e1 e2 d0 d1 d2 :
  base64.decodeChar e0 = Some d0 -> base64.decodeChar e1 = Some d1 ->
  base64.decodeChar e2 = Some d2 ->
  base64.decodeFrom [e0; e1; e2; base64.padChar] []
  = Some (take 2 (base64.quantum d0 d1 d2 0)).
Proof. intros H0 H1 H2. cbn [base64.decodeFrom]. by rewrite H0, H1, H2. Qed.

Lemma sextet_lt v k : (N.land (N.shiftr v k) 63 < 64)%N.
Proof. rewrite sextet. apply N.mod_lt. discriminate. Qed.

Lemma sextet0_lt v : (N.land v 63 < 64)%N.
Proof. rewrite <- (N.shiftr_0_r v). apply sextet_lt. Qed.

(** Decoding undoes encoding. *)
Lemma base64_decode_encode (src : bytes) :
  base64.decodeFrom (base64.Encode src) [] = Some src.
Proof.
  assert (H3 : forall n (s : bytes), (length s < n)%nat ->
                 base64.decodeFrom (base64.Encode s) [] = Some s).
  { induction n as [|n IH]; intros s Hlen; [lia|].
    destruct s as [|a [|b [|c rest]]].
    - done.
    - cbn [base64.Encode].
      rewrite (decode_padded2 _ _ _ _ (decodeChar_encodeChar _ (sextet_lt _ 18))
                 (decodeChar_encodeChar _ (sextet_lt _ 12))).
      pose proof (quantum_of_bytes (code a) 0 0 (N_ascii_bounded a)
                    ltac:(done) ltac:(done)) as Hq.
      cbv zeta in Hq. rewrite N.shiftl_0_l, !N.lor_0_r in Hq.
      assert (Hz : N.land (N.shiftr (N.shiftl (code a) 16) 6) 63 = 0%N
                   /\ N.land (N.shiftl (code a) 16) 63 = 0%N).
      { rewrite <- (N.shiftr_0_r (N.shiftl (code a) 16)) at 2.
        rewrite !sextet, N.shiftl_mul_pow2.
        pose proof (N_ascii_bounded a).
        change (2 ^ 16)%N with 65536%N. change (2 ^ 6)%N with 64%N.
        change (2 ^ 0)%N with 1%N. split; euclid. }
      destruct Hz as [Hz1 Hz2]. rewrite Hz1, Hz2 in Hq. rewrite Hq.
      by rewrite ascii_N_embedding.
    - cbn [base64.Encode].
      rewrite (decode_padded1 _ _ _ _ _ _ (decodeChar_encodeChar _ (sextet_lt _ 18))
                 (decodeChar_encodeChar _ (sextet_lt _ 12))
                 (decodeChar_encodeChar _ (sextet_lt _ 6))).
      pose proof (quantum_of_bytes (code a) (code b) 0 (N_ascii_bounded a)
                    (N_ascii_bounded b) ltac:(done)) as Hq.
      cbv zeta in Hq. rewrite !N.lor_0_r in Hq.
      assert (Hz : N.land (N.lor (N.shiftl (code a) 16) (N.shiftl (code b) 8)) 63 = 0%N).
      { pose proof (pack3 (code a) (code b) 0 (N_ascii_bounded b) ltac:(done)) as Hp.
        rewrite N.lor_0_r in Hp. rewrite Hp.
        change 63%N with (N.ones 6). rewrite land_mask.
        pose proof (N_ascii_bounded a). pose proof (N_ascii_bounded b).
        change (2 ^ 6)%N with 64%N. euclid. }
      rewrite Hz in Hq. rewrite Hq. by rewrite !ascii_N_embedding.
    - cbn [base64.Encode].
      rewrite (decode_quantum _ _ _ _ _ _ _ _ _
                 (decodeChar_encodeChar _ (sextet_lt _ 18))
                 (decodeChar_encodeChar _ (sextet_lt _ 12))
                 (decodeChar_encodeChar _ (sextet_lt _ 6))
                 (decodeChar_encodeChar _ (sextet0_lt _))).
      rewrite IH by (simpl in Hlen; lia).
      pose proof (quantum_of_bytes (code a) (code b) (code c) (N_ascii_bounded a)
                    (N_ascii_bounded b) (N_ascii_bounded c)) as Hq.
      cbv zeta in Hq. rewrite Hq. by rewrite !ascii_N_embedding. }
  apply (H3 (S (length src))). lia.
Qed.

Lemma base64_DecodeString_EncodeToString (src : bytes) :
  base64.DecodeString (base64.EncodeToString src) = Some src.
Proof.
  unfold base64.DecodeString, base64.EncodeToString.
  rewrite list_ascii_of_string_of_list_ascii. apply base64_decode_encode.
Qed.

(** The encoding of a non-empty text is not empty. *)
Lemma base64_EncodeToString_nonempty (src : bytes) :
  src <> [] -> base64.EncodeToString src <> "".
Proof.
  unfold base64.EncodeToString. by destruct src as [|a [|b [|c rest]]].
Qed.

(** ** JSON strings *)

Lemma appendFrom_skip k s : json.appendFrom (S k) s = json.appendFrom 0 (drop (S k) s).
Proof.
  revert s. induction k as [|k IH]; intros s.
  - by destruct s as [|c [|c' rest]].
  - destruct s as [|c rest]; [done|]. apply (IH rest).
Qed.

Lemma unquoteFrom_skip k s : json.unquoteFrom (S k) s = json.unquoteFrom 0 (drop (S k) s).
Proof.
  revert s. induction k as [|k IH]; intros s.
  - by destruct s as [|c [|c' rest]].
  - destruct s as [|c rest]; [done|]. apply (IH rest).
Qed.

Lemma validFrom_skip k s : utf8.validFrom (S k) s = utf8.validFrom 0 (drop (S k) s).
Proof.
  revert s. induction k as [|k IH]; intros s.
  - by destruct s as [|c [|c' rest]].
  - destruct s as [|c rest]; [done|]. apply (IH rest).
Qed.

Lemma scanString_cons c rest :
  json.scanString (c :: rest)
  = if Ascii.eqb c json.quote then Some ([], rest)
    else if Ascii.eqb c json.backslash then
      match rest with
      | [] => None
      | e :: rest1 =>
          if existsb (Ascii.eqb e) (json.quote :: list_ascii_of_string "\/bfnrt") then
            match json.scanString rest1 with
            | Some (raw, after) => Some (c :: e :: raw, after)
            | None => None
            end
          else if Ascii.eqb e "u"%char then
            match rest1 with
            | h1 :: h2 :: h3 :: h4 :: rest2 =>
                match json.getu4 (c :: rest), json.scanString rest2 with
                | Some _, Some (raw, after) =>
                    Some (c :: e :: h1 :: h2 :: h3 :: h4 :: raw, after)
                | _, _ => None
                end
            | _ => None
            end
          else None
      end
    else if (code c <? 32)%N then None
    else
      match json.scanString rest with
      | Some (raw, after) => Some (c :: raw, after)
      | None => None
      end.
Proof. reflexivity. Qed.

Lemma unquoteFrom_cons c rest :
  json.unquoteFrom 0 (c :: rest)
  = if Ascii.eqb c json.backslash then
      match rest with
      | [] => None
      | e :: _ =>
          match json.simpleEscape e with
          | Some x => option_map (cons x) (json.unquoteFrom 1 rest)
          | None =>
              if Ascii.eqb e "u"%char then
                match json.getu4 (c :: rest) with
                | None => None
                | Some rr =>
                    if utf8.between 55296 57343 rr then
                      let dec := json.utf16DecodeRune rr (json.getu4 (drop 6 (c :: rest))) in
                      if negb (dec =? utf8.RuneError)%N
                      then option_map (app (utf8.EncodeRune dec))
                                      (json.unquoteFrom 11 rest)
                      else option_map (app (utf8.EncodeRune utf8.RuneError))
                                      (json.unquoteFrom 5 rest)
                    else option_map (app (utf8.EncodeRune rr))
                                    (json.unquoteFrom 5 rest)
                end
              else None
          end
      end
    else if Ascii.eqb c json.quote || (code c <? 32)%N then None
    else if (code c <? 128)%N then option_map (cons c) (json.unquoteFrom 0 rest)
    else
      let '(rr, size) := utf8.DecodeRune (c :: rest) in
      option_map (app (utf8.EncodeRune rr)) (json.unquoteFrom (size - 1) rest).
Proof. reflexivity. Qed.

(** What [appendString] writes for a byte below [0x80] is read back as
    that byte. *)
Lemma writtenFor_ascii c :
  (code c <? 128)%N = true ->
  writtenFor (if json.htmlSafe c then [c] else json.escapeASCII c) [c].
Proof.
  destruct c as [b0 b1 b2 b3 b4 b5 b6 b7].
  destruct b7; [destruct b0, b1, b2, b3, b4, b5, b6; discriminate|]. intros _.
  destruct b0, b1, b2, b3, b4, b5, b6;
    match goal with
    | |- writtenFor ?out _ =>
        let o := eval vm_compute in out in change out with o
    end;
    (split; intros rest;
     [ cbn [app]; rewrite scanString_cons;
       cbv -[json.scanString];
       by destruct (json.scanString rest) as [[raw after]|]
     | cbn [app]; rewrite unquoteFrom_cons;
       cbv -[json.unquoteFrom]; rewrite ?unquoteFrom_skip; cbn [drop];
       rewrite ?drop_0; by destruct (json.unquoteFrom 0 rest) ]).
Qed.

(** ** UTF-8 *)

Lemma between_spec lo hi b : utf8.between lo hi b = true <-> (lo <= b <= hi)%N.
Proof. unfold utf8.between. rewrite andb_true_iff, !N.leb_le. done. Qed.

Lemma between_false lo hi b : utf8.between lo hi b = false <-> ~ (lo <= b <= hi)%N.
Proof. rewrite <- between_spec. by destruct (utf8.between lo hi b). Qed.

Lemma lor_high (hi k x : N) : (x < 2 ^ k)%N -> N.lor (hi * 2 ^ k) x = (hi * 2 ^ k + x)%N.
Proof. intros Hx. rewrite <- (lor_shiftl_add hi x k Hx). by rewrite shiftl_const. Qed.

Lemma mask5 x : N.land x 31 = (x mod 32)%N.
Proof. change 31%N with (N.ones 5). apply land_mask. Qed.

Lemma mask4 x : N.land x 15 = (x mod 16)%N.
Proof. change 15%N with (N.ones 4). apply land_mask. Qed.

Lemma mask3 x : N.land x 7 = (x mod 8)%N.
Proof. change 7%N with (N.ones 3). apply land_mask. Qed.

Lemma mask6 x : N.land x 63 = (x mod 64)%N.
Proof. change 63%N with (N.ones 6). apply land_mask. Qed.

Lemma continuation x : N.lor 128 (N.land x 63) = (128 + x mod 64)%N.
Proof.
  rewrite mask6. change 128%N with (2 * 2 ^ 6)%N at 1. rewrite lor_high; [done|].
  apply N.mod_lt. discriminate.
Qed.

(** The runes of well-formed sequences of two, three and four bytes. *)
Lemma rune2 p0 b1 :
  N.lor (N.shiftl (N.land p0 31) 6) (N.land b1 63)
  = ((p0 mod 32) * 64 + b1 mod 64)%N.
Proof.
  rewrite mask5, mask6, lor_shiftl_add; [done|]. apply N.mod_lt. discriminate.
Qed.

Lemma rune3 p0 b1 b2 :
  N.lor (N.lor (N.shiftl (N.land p0 15) 12) (N.shiftl (N.land b1 63) 6)) (N.land b2 63)
  = ((p0 mod 16) * 4096 + (b1 mod 64) * 64 + b2 mod 64)%N.
Proof.
  rewrite mask4, !mask6.
  pose proof (pack4 0 (p0 mod 16) (b1 mod 64) (b2 mod 64)) as H.
  rewrite N.shiftl_0_l, N.lor_0_l in H. rewrite H; [lia|..].
  - assert (p0 mod 16 < 16)%N by (apply N.mod_lt; discriminate). lia.
  - apply N.mod_lt. discriminate.
  - apply N.mod_lt. discriminate.
Qed.

Lemma rune4 p0 b1 b2 b3 :
  N.lor (N.lor (N.lor (N.shiftl (N.land p0 7) 18) (N.shiftl (N.land b1 63) 12))
               (N.shiftl (N.land b2 63) 6)) (N.land b3 63)
  = ((p0 mod 8) * 262144 + (b1 mod 64) * 4096 + (b2 mod 64) * 64 + b3 mod 64)%N.
Proof.
  rewrite mask3, !mask6. apply pack4; apply N.mod_lt; discriminate.
Qed.

Lemma byte_of_small n : (n < 256)%N -> byte_of n = ascii_of_N n.
Proof. intros Hn. by rewrite byte_of_mod, N.mod_small. Qed.

(** Encoding the rune of a well-formed sequence gives the sequence. *)
Lemma EncodeRune_rune2 p0 b1 :
  (194 <= p0 <= 223)%N -> (128 <= b1 <= 191)%N ->
  utf8.EncodeRune ((p0 mod 32) * 64 + b1 mod 64) = [ascii_of_N p0; ascii_of_N b1].
Proof.
  intros H0 H1. set (r := ((p0 mod 32) * 64 + b1 mod 64)%N).
  assert (Hr : (128 <= r <= 2047)%N) by (unfold r; euclid).
  unfold utf8.EncodeRune.
  destruct (N.leb_spec r 127); [lia|]. destruct (N.leb_spec r 2047); [|lia].
  rewrite continuation, N.shiftr_div_pow2.
  change 192%N with (3 * 2 ^ 6)%N. rewrite lor_high by (unfold r; euclid).
  change (2 ^ 6)%N with 64%N.
  rewrite !byte_of_small by (unfold r; euclid).
  f_equal; [|f_equal]; f_equal; unfold r; euclid.
Qed.

Lemma EncodeRune_rune3 p0 b1 b2 :
  (224 <= p0 <= 239)%N -> (128 <= b1 <= 191)%N -> (128 <= b2 <= 191)%N ->
  (p0 = 224 -> 160 <= b1)%N -> (p0 = 237 -> b1 <= 159)%N ->
  utf8.EncodeRune ((p0 mod 16) * 4096 + (b1 mod 64) * 64 + b2 mod 64)
  = [ascii_of_N p0; ascii_of_N b1; ascii_of_N b2].
Proof.
  intros H0 H1 H2 Hlo Hhi.
  set (r := ((p0 mod 16) * 4096 + (b1 mod 64) * 64 + b2 mod 64)%N).
  assert (Hr : (2048 <= r <= 65535)%N).
  { unfold r. destruct (N.eq_dec p0 224%N) as [->|Hne]; [specialize (Hlo eq_refl)|];
      euclid. }
  assert (Hs : ~ (55296 <= r <= 57343)%N).
  { unfold r. destruct (N.eq_dec p0 237%N) as [->|Hne]; [specialize (Hhi eq_refl)|];
      euclid. }
  unfold utf8.EncodeRune, utf8.MaxRune.
  destruct (N.leb_spec r 127); [lia|]. destruct (N.leb_spec r 2047); [lia|].
  destruct (N.ltb_spec 1114111 r); [lia|].
  rewrite (proj2 (between_false _ _ _) Hs). simpl orb.
  destruct (N.leb_spec r 65535); [|lia].
  rewrite !continuation, !N.shiftr_div_pow2.
  change 224%N with (14 * 2 ^ 4)%N. rewrite lor_high by (unfold r; euclid).
  change (2 ^ 4)%N with 16%N. change (2 ^ 12)%N with 4096%N.
  change (2 ^ 6)%N with 64%N.
  rewrite !byte_of_small by (unfold r; euclid).
  f_equal; [|f_equal; [|f_equal]]; f_equal; unfold r; euclid.
Qed.

Lemma EncodeRune_rune4 p0 b1 b2 b3 :
  (240 <= p0 <= 244)%N -> (128 <= b1 <= 191)%N -> (128 <= b2 <= 191)%N ->
  (128 <= b3 <= 191)%N ->
  (p0 = 240 -> 144 <= b1)%N -> (p0 = 244 -> b1 <= 143)%N ->
  utf8.EncodeRune ((p0 mod 8) * 262144 + (b1 mod 64) * 4096 + (b2 mod 64) * 64
                   + b3 mod 64)
  = [ascii_of_N p0; ascii_of_N b1; ascii_of_N b2; ascii_of_N b3].
Proof.
  intros H0 H1 H2 H3 Hlo Hhi.
  set (r := ((p0 mod 8) * 262144 + (b1 mod 64) * 4096 + (b2 mod 64) * 64
             + b3 mod 64)%N).
  assert (Hr : (65536 <= r <= 1114111)%N).
  { unfold r.
    assert (Hc : (p0 = 240 \/ 241 <= p0 <= 243 \/ p0 = 244)%N) by lia.
    destruct Hc as [->|[Hc| ->]];
      [specialize (Hlo eq_refl)| |specialize (Hhi eq_refl)]; euclid. }
  unfold utf8.EncodeRune, utf8.MaxRune.
  destruct (N.leb_spec r 127); [lia|]. destruct (N.leb_spec r 2047); [lia|].
  destruct (N.ltb_spec 1114111 r); [lia|].
  rewrite (proj2 (between_false 55296 57343 r)) by lia. simpl orb.
  destruct (N.leb_spec r 65535); [lia|].
  rewrite !continuation, !N.shiftr_div_pow2.
  change 240%N with (30 * 2 ^ 3)%N. rewrite lor_high by (unfold r; euclid).
  change (2 ^ 3)%N with 8%N. change (2 ^ 18)%N with 262144%N.
  change (2 ^ 12)%N with 4096%N. change (2 ^ 6)%N with 64%N.
  rewrite !byte_of_small by (unfold r; euclid).
  f_equal; [|f_equal; [|f_equal; [|f_equal]]]; f_equal; unfold r; euclid.
Qed.

Lemma leading_spec p0 sz lo hi :
  utf8.leading p0 = Some (sz, lo, hi) ->
  (128 <= lo /\ hi <= 191)%N /\
  ((sz = 2%nat /\ (194 <= p0 <= 223)%N)
   \/ (sz = 3%nat /\ (224 <= p0 <= 239)%N
       /\ (p0 = 224 -> 160 <= lo)%N /\ (p0 = 237 -> hi <= 159)%N)
   \/ (sz = 4%nat /\ (240 <= p0 <= 244)%N
       /\ (p0 = 240 -> 144 <= lo)%N /\ (p0 = 244 -> hi <= 143)%N)).
Proof.
  unfold utf8.leading. intros H.
  repeat match type of H with
         | (if ?b then _ else _) = _ =>
             let E := fresh "E" in
             destruct b eqn:E; [inversion H; subst; clear H|]
         end; try discriminate;
    rewrite ?between_spec, ?between_false, ?N.eqb_eq, ?N.eqb_neq in *; lia.
Qed.

(** A well-formed sequence at the head of a text: its bytes, and the rune
    they encode. *)
Lemma DecodeRune_wellformed c0 p1 r size :
  (128 <= code c0)%N ->
  utf8.DecodeRune (c0 :: p1) = (r, size) ->
  ~ (r = utf8.RuneError /\ size = 1%nat) ->
  exists tl tail,
    p1 = tl ++ tail /\ size = S (length tl) /\
    Forall (fun c => (128 <= code c)%N) (c0 :: tl) /\
    utf8.EncodeRune r = c0 :: tl /\
    (forall Y, utf8.DecodeRune (c0 :: tl ++ Y) = (r, size)).
Proof.
  intros H0 HD Hne. unfold utf8.DecodeRune in HD. cbv zeta in HD.
  destruct (code c0 <? 128)%N eqn:Hlt; [apply N.ltb_lt in Hlt; lia|].
  destruct (utf8.leading (code c0)) as [[[sz lo] hi]|] eqn:Hlead;
    [|exfalso; apply Hne; by inversion HD].
  destruct (leading_spec _ _ _ _ Hlead) as [Hrange Hcases].
  destruct p1 as [|c1 p2]; [exfalso; apply Hne; by inversion HD|].
  destruct (utf8.between lo hi (code c1)) eqn:Hb1; cbn [negb] in HD;
    [|exfalso; apply Hne; by inversion HD].
  pose proof (proj1 (between_spec _ _ _) Hb1) as Hb1'.
  destruct (sz <=? 2)%nat eqn:Hsz2.
  { apply Nat.leb_le in Hsz2. inversion HD; subst r size. clear HD.
    exists [c1], p2. split_and!; [done|done| | |].
    - repeat constructor; lia.
    - rewrite rune2, EncodeRune_rune2 by lia. by rewrite !ascii_N_embedding.
    - intros Y. cbn [app]. unfold utf8.DecodeRune. cbv zeta.
      rewrite Hlt, Hlead, Hb1. cbn [negb]. by rewrite (proj2 (Nat.leb_le _ _) Hsz2). }
  apply Nat.leb_gt in Hsz2.
  destruct p2 as [|c2 p3]; [exfalso; apply Hne; by inversion HD|].
  destruct (utf8.between 128 191 (code c2)) eqn:Hb2; cbn [negb] in HD;
    [|exfalso; apply Hne; by inversion HD].
  pose proof (proj1 (between_spec _ _ _) Hb2) as Hb2'.
  destruct (sz <=? 3)%nat eqn:Hsz3.
  { apply Nat.leb_le in Hsz3. inversion HD; subst r size. clear HD.
    exists [c1; c2], p3. split_and!; [done|done| | |].
    - repeat constructor; lia.
    - rewrite rune3, EncodeRune_rune3 by lia. by rewrite !ascii_N_embedding.
    - intros Y. cbn [app]. unfold utf8.DecodeRune. cbv zeta.
      rewrite Hlt, Hlead, Hb1, Hb2. cbn [negb].
      rewrite (proj2 (Nat.leb_gt _ _) Hsz2). by rewrite (proj2 (Nat.leb_le _ _) Hsz3). }
  apply Nat.leb_gt in Hsz3.
  destruct p3 as [|c3 p4]; [exfalso; apply Hne; by inversion HD|].
  destruct (utf8.between 128 191 (code c3)) eqn:Hb3; cbn [negb] in HD;
    [|exfalso; apply Hne; by inversion HD].
  pose proof (proj1 (between_spec _ _ _) Hb3) as Hb3'.
  inversion HD; subst r size. clear HD.
  exists [c1; c2; c3], p4. split_and!; [done|done| | |].
  - repeat constructor; lia.
  - rewrite rune4, EncodeRune_rune4 by lia. by rewrite !ascii_N_embedding.
  - intros Y. cbn [app]. unfold utf8.DecodeRune. cbv zeta.
    rewrite Hlt, Hlead, Hb1, Hb2, Hb3. cbn [negb].
    rewrite (proj2 (Nat.leb_gt _ _) Hsz2). by rewrite (proj2 (Nat.leb_gt _ _) Hsz3).
Qed.

(** ** Strings written by [appendString] and read back *)

Lemma writtenFor_nil : writtenFor [] [].
Proof.
  split; intros rest; cbn [app].
  - by destruct (json.scanString rest) as [[raw after]|].
  - by destruct (json.unquoteFrom 0 rest).
Qed.

Lemma writtenFor_app o1 c1 o2 c2 :
  writtenFor o1 c1 -> writtenFor o2 c2 -> writtenFor (o1 ++ o2) (c1 ++ c2).
Proof.
  intros [Hs1 Hu1] [Hs2 Hu2]. split; intros rest; rewrite <- !app_assoc.
  - rewrite Hs1, Hs2. destruct (json.scanString rest) as [[raw after]|]; [|done].
    by rewrite <- app_assoc.
  - rewrite Hu1, Hu2. destruct (json.unquoteFrom 0 rest) as [t|]; [|done].
    cbn [option_map]. by rewrite <- app_assoc.
Qed.

Lemma high_byte_plain c :
  (128 <= code c)%N ->
  Ascii.eqb c json.quote = false /\ Ascii.eqb c json.backslash = false
  /\ (code c <? 32)%N = false /\ (code c <? 128)%N = false.
Proof.
  intros Hc. split_and!.
  - apply Ascii.eqb_neq. intros ->. vm_compute in Hc. by apply Hc.
  - apply Ascii.eqb_neq. intros ->. vm_compute in Hc. by apply Hc.
  - apply N.ltb_ge. lia.
  - apply N.ltb_ge. lia.
Qed.

Lemma scanString_high out rest :
  Forall (fun c => (128 <= code c)%N) out ->
  json.scanString (out ++ rest)
  = match json.scanString rest with
    | Some (raw, after) => Some (out ++ raw, after)
    | None => None
    end.
Proof.
  induction 1 as [|c out Hc _ IH]; cbn [app].
  - by destruct (json.scanString rest) as [[raw after]|].
  - destruct (high_byte_plain c Hc) as (Hq & Hb & H32 & _).
    rewrite scanString_cons, Hq, Hb, H32, IH.
    by destruct (json.scanString rest) as [[raw after]|].
Qed.

Lemma unquoteFrom_pass tl rest :
  json.unquoteFrom (length tl) (tl ++ rest) = json.unquoteFrom 0 rest.
Proof. induction tl as [|c tl IH]; [done|]. apply IH. Qed.

Lemma appendFrom_pass tl rest :
  json.appendFrom (length tl) (tl ++ rest) = json.appendFrom 0 rest.
Proof. induction tl as [|c tl IH]; [done|]. apply IH. Qed.

Lemma validFrom_pass tl rest :
  utf8.validFrom (length tl) (tl ++ rest) = utf8.validFrom 0 rest.
Proof. induction tl as [|c tl IH]; [done|]. apply IH. Qed.

(** A well-formed sequence copied as it is. *)
Lemma writtenFor_raw c0 tl r :
  Forall (fun c => (128 <= code c)%N) (c0 :: tl) ->
  utf8.EncodeRune r = c0 :: tl ->
  (forall Y, utf8.DecodeRune (c0 :: tl ++ Y) = (r, S (length tl))) ->
  writtenFor (c0 :: tl) (c0 :: tl).
Proof.
  intros Hhigh Henc Hdec. split; intros rest.
  - by apply scanString_high.
  - cbn [app]. rewrite unquoteFrom_cons.
    destruct (high_byte_plain c0 (Forall_inv Hhigh)) as (Hq & Hb & H32 & H128).
    rewrite Hb, Hq, H32, H128. cbn [orb]. rewrite Hdec, Henc.
    cbn [Nat.sub]. by rewrite Nat.sub_0_r, unquoteFrom_pass.
Qed.

(** The line and paragraph separators, written as escapes. *)
Lemma writtenFor_separator r :
  r = 8232%N \/ r = 8233%N ->
  writtenFor [json.backslash; "u"%char; "2"%char; "0"%char; "2"%char;
              json.hexDigit (N.land r 15)] (utf8.EncodeRune r).
Proof.
  intros [-> | ->];
    match goal with
    | |- writtenFor ?out ?chunk =>
        let o := eval vm_compute in out in
        let c := eval vm_compute in chunk in
        change out with o; change chunk with c
    end;
    (split; intros rest;
     [ cbn [app]; rewrite scanString_cons;
       cbv -[json.scanString];
       by destruct (json.scanString rest) as [[raw after]|]
     | cbn [app]; rewrite unquoteFrom_cons;
       cbv -[json.unquoteFrom]; rewrite ?unquoteFrom_skip; cbn [drop];
       rewrite ?drop_0; by destruct (json.unquoteFrom 0 rest) ]).
Qed.

Lemma appendFrom_cons c rest :
  json.appendFrom 0 (c :: rest)
  = if (code c <? 128)%N then
      (if json.htmlSafe c then [c] else json.escapeASCII c) ++ json.appendFrom 0 rest
    else
      let '(r, size) := utf8.DecodeRune (c :: rest) in
      if ((r =? utf8.RuneError)%N && (size =? 1)%nat)
      then [json.backslash; "u"%char; "f"%char; "f"%char; "f"%char; "d"%char]
           ++ json.appendFrom 0 rest
      else if ((r =? 8232)%N || (r =? 8233)%N)
      then [json.backslash; "u"%char; "2"%char; "0"%char; "2"%char;
            json.hexDigit (N.land r 15)] ++ json.appendFrom (size - 1) rest
      else take size (c :: rest) ++ json.appendFrom (size - 1) rest.
Proof. reflexivity. Qed.

Lemma validFrom_cons c rest :
  utf8.validFrom 0 (c :: rest)
  = let '(r, size) := utf8.DecodeRune (c :: rest) in
    if ((r =? utf8.RuneError)%N && (size =? 1)%nat) then false
    else utf8.validFrom (size - 1) rest.
Proof. reflexivity. Qed.

Lemma DecodeRune_ascii c rest :
  (code c <? 128)%N = true -> utf8.DecodeRune (c :: rest) = (code c, 1%nat).
Proof. intros H. unfold utf8.DecodeRune. cbv zeta. by rewrite H. Qed.

(** What [appendString] writes between the quotes for valid UTF-8 is read
    back as the bytes it was given. *)
Lemma writtenFor_appendFrom s :
  utf8.Valid s = true -> writtenFor (json.appendFrom 0 s) s.
Proof.
  unfold utf8.Valid.
  assert (H : forall n s, (length s < n)%nat -> utf8.validFrom 0 s = true ->
                          writtenFor (json.appendFrom 0 s) s).
  { clear s. induction n as [|n IH]; intros s Hlen Hvalid; [lia|].
    destruct s as [|c rest]; [apply writtenFor_nil|].
    cbn [length] in Hlen. rewrite validFrom_cons in Hvalid.
    rewrite appendFrom_cons.
    destruct (code c <? 128)%N eqn:Hlt.
    - rewrite (DecodeRune_ascii c rest Hlt) in Hvalid.
      cbn [Nat.eqb Nat.sub] in Hvalid.
      destruct (code c =? utf8.RuneError)%N eqn:Hc; cbn [andb] in Hvalid; [done|].
      apply (writtenFor_app _ [c] _ rest); [by apply writtenFor_ascii|].
      apply IH; [lia|done].
    - apply N.ltb_ge in Hlt.
      destruct (utf8.DecodeRune (c :: rest)) as [r size] eqn:HD.
      destruct ((r =? utf8.RuneError)%N && (size =? 1)%nat) eqn:Hbad; [done|].
      assert (Hne : ~ (r = utf8.RuneError /\ size = 1%nat)).
      { intros [-> ->]. by vm_compute in Hbad. }
      destruct (DecodeRune_wellformed c rest r size Hlt HD Hne)
        as (tl & tail & -> & -> & Hhigh & Henc & Hdec).
      cbn [Nat.sub] in *. rewrite Nat.sub_0_r in *.
      rewrite validFrom_pass in Hvalid. rewrite appendFrom_pass.
      rewrite length_app in Hlen.
      assert (Htail : writtenFor (json.appendFrom 0 tail) tail) by (apply IH; [lia|done]).
      destruct ((r =? 8232)%N || (r =? 8233)%N) eqn:Hsep.
      + apply (writtenFor_app _ (c :: tl) _ tail); [|done].
        rewrite <- Henc. apply writtenFor_separator.
        apply orb_true_iff in Hsep. rewrite !N.eqb_eq in Hsep. done.
      + change (take (S (length tl)) (c :: tl ++ tail))
          with (c :: take (length tl) (tl ++ tail)).
        rewrite take_app_length.
        apply (writtenFor_app (c :: tl) (c :: tl) _ tail); [|done].
        by apply (writtenFor_raw c tl r). }
  intros Hvalid. by apply (H (S (length s))); [lia|].
Qed.

Lemma scanString_appendFrom s rest :
  utf8.Valid s = true ->
  json.scanString (json.appendFrom 0 s ++ json.quote :: rest)
  = Some (json.appendFrom 0 s, rest).
Proof.
  intros Hvalid. destruct (writtenFor_appendFrom s Hvalid) as [Hscan _].
  rewrite Hscan, scanString_cons. cbn. by rewrite app_nil_r.
Qed.

Lemma unquoteFrom_appendFrom s :
  utf8.Valid s = true -> json.unquoteFrom 0 (json.appendFrom 0 s) = Some s.
Proof.
  intros Hvalid. destruct (writtenFor_appendFrom s Hvalid) as [_ Hunq].
  specialize (Hunq []). rewrite app_nil_r in Hunq. rewrite Hunq.
  cbn. by rewrite app_nil_r.
Qed.

(** ** The cursor document *)

Lemma readValue_quote fuel depth rest :
  json.readValue (S fuel) depth (json.quote :: rest)
  = match json.scanString rest with
    | Some (raw, after) =>
        match json.unquoteFrom 0 raw with
        | Some t => Some (json.VString t, after)
        | None => None
        end
    | None => None
    end.
Proof. reflexivity. Qed.

Lemma readValue_object fuel rest :
  json.readValue (S fuel) 0 ("{"%char :: json.quote :: rest)
  = match json.readMembers fuel 1 (json.quote :: rest) with
    | Some (ms, after) => Some (json.VObject ms, after)
    | None => None
    end.
Proof. reflexivity. Qed.

Lemma readMembers_quote fuel depth rest :
  json.readMembers (S fuel) depth (json.quote :: rest)
  = match json.scanString rest with
    | Some (raw, after) =>
        match json.unquoteFrom 0 raw, json.skipSpace after with
        | Some key, c1 :: rest1 =>
            if Ascii.eqb c1 ":"%char then
              match json.readValue fuel depth rest1 with
              | Some (v, after_v) =>
                  match json.skipSpace after_v with
                  | c2 :: rest2 =>
                      if Ascii.eqb c2 ","%char then
                        match json.readMembers fuel depth rest2 with
                        | Some (ms, after_ms) => Some ((key, v) :: ms, after_ms)
                        | None => None
                        end
                      else if Ascii.eqb c2 "}"%char then Some ([(key, v)], rest2)
                      else None
                  | [] => None
                  end
              | None => None
              end
            else None
        | _, _ => None
        end
    | None => None
    end.
Proof. reflexivity. Qed.

(** A string written by [appendString] is read as that string. *)
Lemma readValue_appendString fuel depth s rest :
  utf8.Valid s = true ->
  json.readValue (S fuel) depth (json.appendString s ++ rest)
  = Some (json.VString s, rest).
Proof.
  intros Hvalid. unfold json.appendString. cbn [app].
  rewrite <- app_assoc. cbn [app].
  by rewrite readValue_quote, scanString_appendFrom, unquoteFrom_appendFrom.
Qed.

(** One member of the object [Marshal] writes. *)
Lemma readMembers_member fuel depth key s c2 rest :
  utf8.Valid key = true -> utf8.Valid s = true ->
  json.isSpace c2 = false ->
  json.readMembers (S (S fuel)) depth
    (json.appendString key ++ ":"%char :: json.appendString s ++ c2 :: rest)
  = if Ascii.eqb c2 ","%char then
      match json.readMembers (S fuel) depth rest with
      | Some (ms, after_ms) => Some ((key, json.VString s) :: ms, after_ms)
      | None => None
      end
    else if Ascii.eqb c2 "}"%char then Some ([(key, json.VString s)], rest)
    else None.
Proof.
  intros Hkey Hs Hc2. unfold json.appendString at 1. cbn [app].
  rewrite <- app_assoc. cbn [app].
  rewrite readMembers_quote, scanString_appendFrom, unquoteFrom_appendFrom by done.
  change (json.skipSpace (":"%char :: ?t)) with (":"%char :: t).
  change (Ascii.eqb ":"%char ":"%char) with true. cbv iota.
  rewrite readValue_appendString by done.
  cbn [json.skipSpace]. by rewrite Hc2.
Qed.

Lemma readValue_Marshal fuel w :
  validUTF8 (VariantID w) -> validUTF8 (InnerCursor w) ->
  json.readValue (S (S (S (S fuel)))) 0 (json.Marshal w)
  = Some (json.VObject
            [(list_ascii_of_string "v", json.VString (list_ascii_of_string (VariantID w)));
             (list_ascii_of_string "c", json.VString (list_ascii_of_string (InnerCursor w)))],
          []).
Proof.
  intros Hv Hc. unfold json.Marshal.
  change (json.appendString (list_ascii_of_string "v") ++ ?t)
    with (json.quote :: (json.appendFrom 0 (list_ascii_of_string "v") ++ [json.quote]) ++ t).
  rewrite readValue_object.
  change (json.quote :: (json.appendFrom 0 (list_ascii_of_string "v") ++ [json.quote]) ++ ?t)
    with (json.appendString (list_ascii_of_string "v") ++ t).
  rewrite readMembers_member by done.
  change (Ascii.eqb ","%char ","%char) with true. cbv iota.
  by rewrite readMembers_member.
Qed.

Lemma Marshal_length w : (3 <= length (json.Marshal w))%nat.
Proof.
  unfold json.Marshal, json.appendString. cbn [app length].
  rewrite !length_app. cbn [length]. lia.
Qed.

Lemma readDocument_Marshal w :
  validUTF8 (VariantID w) -> validUTF8 (InnerCursor w) ->
  json.readDocument (json.Marshal w)
  = Some (json.VObject
            [(list_ascii_of_string "v", json.VString (list_ascii_of_string (VariantID w)));
             (list_ascii_of_string "c", json.VString (list_ascii_of_string (InnerCursor w)))]).
Proof.
  intros Hv Hc. unfold json.readDocument.
  pose proof (Marshal_length w) as Hlen.
  destruct (length (json.Marshal w)) as [|[|[|n]]]; [lia..|].
  by rewrite readValue_Marshal.
Qed.

(** [Unmarshal] reads back the cursor [Marshal] wrote. *)
Lemma Unmarshal_Marshal w w0 :
  validUTF8 (VariantID w) -> validUTF8 (InnerCursor w) ->
  json.Unmarshal (json.Marshal w) w0 = Some w.
Proof.
  intros Hv Hc. unfold json.Unmarshal. rewrite readDocument_Marshal by done.
  destruct w as [v c]. cbn. by rewrite !string_of_list_ascii_of_string.
Qed.

Lemma Marshal_nonempty w : json.Marshal w <> [].
Proof. done. Qed.

(** ** What [json.Marshal] writes for error data *)

(** A string that is valid UTF-8 is written as itself. *)
Lemma denotedString_valid s : validUTF8 s -> denotedString s = s.
Proof.
  intros Hs. unfold denotedString. rewrite unquoteFrom_appendFrom by done.
  apply string_of_list_ascii_of_string.
Qed.

Lemma denotedString_all l : Forall validUTF8 l -> map denotedString l = l.
Proof.
  induction 1 as [|s l Hs _ IH]; [done|].
  cbn [map]. by rewrite (denotedString_valid s Hs), IH.
Qed.

(** The data of the error [unwrapCursor] builds for the cursor of another
    variant. *)
Lemma mismatch_data cursorVariant requestedVariant :
  marshalMap (<["cursorVariant" := AStr cursorVariant]>
                (<["requestedVariant" := AStr requestedVariant]> ∅))
  = jsonrpc.RawJSON
      (AMap (<["cursorVariant" := AStr (denotedString cursorVariant)]>
               (<["requestedVariant" := AStr (denotedString requestedVariant)]> ∅))).
Proof. unfold marshalMap. by rewrite !fmap_insert, fmap_empty. Qed.

(** A cursor that [unwrapCursor] can read is subject to the comparison of
    the variants only. *)
Lemma unwrapCursor_read x e data w :
  x <> "" -> base64.DecodeString x = Some data ->
  json.Unmarshal data (mkVariantCursor "" "") = Some w ->
  unwrapCursor x e
  = if bool_decide (VariantID w <> e)
    then ("", Some (cursorVariantMismatch (denotedString (VariantID w))
                                          (denotedString e)))
    else (InnerCursor w, None).
Proof.
  intros Hx Hdata Hw. unfold unwrapCursor.
  rewrite (bool_decide_eq_false_2 _ Hx), Hdata, Hw.
  case_bool_decide; [|done]. by rewrite mismatch_data.
Qed.

Lemma unwrapCursor_wrapCursor c v e :
  validUTF8 v -> validUTF8 c -> c <> "" ->
  unwrapCursor (wrapCursor c v) e
  = if bool_decide (v <> e)
    then ("", Some (cursorVariantMismatch v (denotedString e)))
    else (c, None).
Proof.
  intros Hv Hc Hne. unfold wrapCursor.
  rewrite (bool_decide_eq_false_2 _ Hne).
  rewrite (unwrapCursor_read _ e (json.Marshal (mkVariantCursor v c))
             (mkVariantCursor v c)).
  - cbn [VariantID InnerCursor]. by rewrite (denotedString_valid v Hv).
  - apply base64_EncodeToString_nonempty, Marshal_nonempty.
  - apply base64_DecodeString_EncodeToString.
  - by apply Unmarshal_Marshal.
Qed.

(** C2 (amended): for a variant ID [v] and a cursor [c] that are valid
    UTF-8, [wrapCursor] of the empty cursor is empty and [unwrapCursor] of
    the empty cursor is empty with no error; a non-empty [c] wrapped for [v]
    unwraps for [v] to [c] with no error, and for any other variant [v']
    that is valid UTF-8 it fails with the JSON-RPC error -32602 whose data
    carries [cursorVariant = v] and [requestedVariant = v']; a non-empty
    input [x] that the base64 decoder rejects, or whose decoded bytes
    [json.Unmarshal] rejects for a [variantCursor], fails with -32602
    "Invalid cursor format", whatever variant [e] is expected; and a
    non-empty input whose decoded bytes [json.Unmarshal] accepts is read
    as the [variantCursor] [w] the call yields: it unwraps to the inner
    cursor of [w] with no error when the variant of [w] is the expected
    one, and fails with the error of the other variant when it is not. *)
Theorem cursor_round_trip (v v' c x e : string) :
  validUTF8 v -> validUTF8 c ->
  wrapCursor "" v = ""
  /\ unwrapCursor "" v = ("", None)
  /\ (c <> "" -> unwrapCursor (wrapCursor c v) v = (c, None))
  /\ (c <> "" -> v' <> v -> validUTF8 v' ->
      unwrapCursor (wrapCursor c v) v' = ("", Some (cursorVariantMismatch v v')))
  /\ (x <> "" ->
      match base64.DecodeString x with
      | Some data => json.Unmarshal data (mkVariantCursor "" "") = None
      | None => True
      end ->
      unwrapCursor x e = ("", Some invalidCursorFormat))
  /\ (forall data w,
        x <> "" -> base64.DecodeString x = Some data ->
        json.Unmarshal data (mkVariantCursor "" "") = Some w ->
        (VariantID w = e -> unwrapCursor x e = (InnerCursor w, None))
        /\ (VariantID w <> e -> validUTF8 (VariantID w) -> validUTF8 e ->
            unwrapCursor x e
            = ("", Some (cursorVariantMismatch (VariantID w) e)))).
Proof.
  intros Hv Hc. split_and!.
  - reflexivity.
  - reflexivity.
  - intros Hne. rewrite unwrapCursor_wrapCursor by done.
    by rewrite bool_decide_eq_false_2 by (intros H; by apply H).
  - intros Hne Hv' Hvalid. rewrite unwrapCursor_wrapCursor by done.
    rewrite bool_decide_eq_true_2 by (intros H; by apply Hv').
    by rewrite (denotedString_valid v' Hvalid).
  - intros Hx Hbad. unfold unwrapCursor.
    rewrite (bool_decide_eq_false_2 _ Hx).
    destruct (base64.DecodeString x) as [data|]; [|reflexivity].
    by rewrite Hbad.
  - intros data w Hx Hdata Hw.
    rewrite (unwrapCursor_read x e data w Hx Hdata Hw). split.
    + intros He. by rewrite bool_decide_eq_false_2 by (intros H; by apply H).
    + intros He Hvw Hve. rewrite (bool_decide_eq_true_2 _ He).
      by rewrite (denotedString_valid _ Hvw), (denotedString_valid _ Hve).
Qed.

Lemma cursor_round_trip_witness :
  let foreign := "eyJjIjoicGFnZTIiLCJ4IjpbMV0sInYiOiJjb21wYWN0In0=" in
  unwrapCursor (wrapCursor "page2" "coding") "coding" = ("page2", None)
  /\ unwrapCursor (wrapCursor "page2" "coding") "compact"
     = ("", Some (cursorVariantMismatch "coding" "compact"))
  /\ unwrapCursor "e30" "coding" = ("", Some invalidCursorFormat)
  /\ unwrapCursor "W10=" "coding" = ("", Some invalidCursorFormat)
  /\ foreign <> wrapCursor "page2" "compact"
  /\ unwrapCursor foreign "compact" = ("page2", None)
  /\ unwrapCursor foreign "coding"
     = ("", Some (cursorVariantMismatch "compact" "coding")).
Proof.
  cbv zeta.
  assert (Hv : validUTF8 "coding") by reflexivity.
  assert (Hc : validUTF8 "page2") by reflexivity.
  destruct (cursor_round_trip "coding" "compact" "page2" "e30" "coding" Hv Hc)
    as (_ & _ & Hsame & Hother & Hdecode & _).
  destruct (cursor_round_trip "coding" "compact" "page2" "W10=" "coding" Hv Hc)
    as (_ & _ & _ & _ & Hread & _).
  destruct (cursor_round_trip "coding" "compact" "page2"
              "eyJjIjoicGFnZTIiLCJ4IjpbMV0sInYiOiJjb21wYWN0In0=" "compact" Hv Hc)
    as (_ & _ & _ & _ & _ & Hmine).
  destruct (cursor_round_trip "coding" "compact" "page2"
              "eyJjIjoicGFnZTIiLCJ4IjpbMV0sInYiOiJjb21wYWN0In0=" "coding" Hv Hc)
    as (_ & _ & _ & _ & _ & Hforeign).
  split_and!.
  - apply Hsame. discriminate.
  - apply Hother; [discriminate|discriminate|reflexivity].
  - apply Hdecode; [discriminate|]. by vm_compute.
  - apply Hread; [discriminate|]. by vm_compute.
  - by vm_compute.
  - refine (proj1 (Hmine
                     (default []
                        (base64.DecodeString
                           "eyJjIjoicGFnZTIiLCJ4IjpbMV0sInYiOiJjb21wYWN0In0="))
                     (mkVariantCursor "compact" "page2") _ _ _) _).
    + discriminate.
    + by vm_compute.
    + by vm_compute.
    + reflexivity.
  - refine (proj2 (Hforeign
                     (default []
                        (base64.DecodeString
                           "eyJjIjoicGFnZTIiLCJ4IjpbMV0sInYiOiJjb21wYWN0In0="))
                     (mkVariantCursor "compact" "page2") _ _ _) _ _ _).
    + discriminate.
    + by vm_compute.
    + by vm_compute.
    + discriminate.
    + reflexivity.
    + reflexivity.
Defined.

(** C2, as stated, fails in two ways. A cursor that is the base64 text of
    [null] or of [{}] is not the encoding of the object [wrapCursor] writes,
    yet [json.Unmarshal] accepts it and leaves the fields empty: it unwraps
    with no error when the empty variant is expected, and otherwise fails
    with "Cursor invalid for requested variant". And [json.Marshal] writes
    U+FFFD in place of a byte that is not valid UTF-8: a cursor wrapped
    for the variant ID [\xff] does not unwrap for that variant, the cursor
    [\xff] comes back as U+FFFD, and the data of the error names U+FFFD as
    the requested variant when [\xff] was expected. *)
Lemma cursor_of_another_document_is_read :
  let invalid := String "255"%char EmptyString in
  let replacement :=
    String "239"%char (String "191"%char (String "189"%char EmptyString)) in
  base64.DecodeString "bnVsbA==" = Some (list_ascii_of_string "null")
  /\ unwrapCursor "bnVsbA==" "" = ("", None)
  /\ base64.DecodeString "e30=" = Some (list_ascii_of_string "{}")
  /\ unwrapCursor "e30=" "" = ("", None)
  /\ unwrapCursor "e30=" "coding" = ("", Some (cursorVariantMismatch "" "coding"))
  /\ utf8.Valid (list_ascii_of_string invalid) = false
  /\ unwrapCursor (wrapCursor "page2" invalid) invalid
     = ("", Some (cursorVariantMismatch replacement replacement))
  /\ unwrapCursor (wrapCursor invalid "coding") "coding" = (replacement, None)
  /\ unwrapCursor (wrapCursor "page2" "coding") invalid
     = ("", Some (cursorVariantMismatch "coding" replacement)).
Proof. cbv zeta. split_and!; by vm_compute. Qed.

(** ** Unknown variants *)

(** The error of an unknown variant: [json.Marshal] writes the identifier
    asked for and the identifiers of the variants as ranked. *)
Lemma createInvalidVariantError_shape d id :
  createInvalidVariantError d id
  = invalidVariantError (denotedString id)
      (map denotedString (map ID (RankedVariants (server d) noHints))).
Proof.
  unfold createInvalidVariantError, invalidVariantError, marshalMap.
  rewrite !fmap_insert, fmap_empty. cbn [denotedAny].
  by rewrite !map_map.
Qed.

(** C5 (amended): a routed request whose selector is a non-empty string,
    valid UTF-8, that names no registered variant is answered with the
    error [-32602 "Invalid server variant"], whose data holds the
    identifier asked for under [requestedVariant] and a list of
    identifiers under [availableVariants]; the world is left as it was, so
    no inner session was sent anything. On a server without a ranking
    function of its own, whose identifiers are valid UTF-8, the list holds
    the registered identifiers in the order of the default ranking, which
    is the same for all hints. *)
Theorem unknown_variant_is_rejected d method req next w p meta id :
  method ∈ routedMethods ->
  GetParams req = Some p -> Meta p = Some meta ->
  meta !! metaKeyVariant = Some (AStr id) ->
  id <> "" -> validUTF8 id ->
  dom (connections d) = list_to_set (map ID (Variants (server d))) ->
  id ∉ map ID (Variants (server d)) ->
  exists available,
    handle d method req next w = Ok (inl (invalidVariantError id available), w)
    /\ (rankingFunc (server d) = None ->
        Forall validUTF8 (map ID (Variants (server d))) ->
        available ≡ₚ map ID (Variants (server d))
        /\ forall hints,
             available = map ID (defaultRankingFunc hints (Variants (server d)))).
Proof.
  intros Hm Hp Hmeta Hid Hne Hvalid Hdom Hout.
  exists (map denotedString (map ID (RankedVariants (server d) noHints))). split.
  - apply handle_getSession_error; [done|].
    rewrite <- (denotedString_valid id Hvalid) at 1.
    rewrite <- createInvalidVariantError_shape.
    apply (getSession_unknown d req p meta id); try done.
    apply not_elem_of_dom. rewrite Hdom. by rewrite elem_of_list_to_set.
  - intros Hrank Hids.
    assert (Hranked : forall hints,
               RankedVariants (server d) noHints
               = defaultRankingFunc hints (Variants (server d))).
    { intros hints. unfold RankedVariants. rewrite Hrank.
      case_bool_decide as Hlen; [|done].
      by destruct (Variants (server d)). }
    assert (Hperm : map ID (RankedVariants (server d) noHints)
                    ≡ₚ map ID (Variants (server d))).
    { rewrite (Hranked noHints).
      by rewrite (defaultRankingFunc_Permutation noHints (Variants (server d))). }
    rewrite denotedString_all by (by rewrite Hperm).
    split; [done|]. intros hints. by rewrite (Hranked hints).
Qed.

Lemma unknown_variant_is_rejected_witness :
  exists available,
    handle testDispatcher "tools/list" (listToolsSelecting (AStr "nonexistent"))
      sdkHandler (worldOf testInitialize)
    = Ok (inl (invalidVariantError "nonexistent" available), worldOf testInitialize)
    /\ (rankingFunc (server testDispatcher) = None ->
        Forall validUTF8 (map ID (Variants (server testDispatcher))) ->
        available ≡ₚ map ID (Variants (server testDispatcher))
        /\ forall hints,
             available
             = map ID (defaultRankingFunc hints (Variants (server testDispatcher)))).
Proof.
  apply (unknown_variant_is_rejected testDispatcher "tools/list"
           (listToolsSelecting (AStr "nonexistent")) sdkHandler
           (worldOf testInitialize)
           (mkParams (Some (<[metaKeyVariant := AStr "nonexistent"]> ∅))
                     (PList ListTools ""))
           (<[metaKeyVariant := AStr "nonexistent"]> ∅) "nonexistent").
  - apply (bool_decide_unpack _). by vm_compute.
  - reflexivity.
  - reflexivity.
  - by vm_compute.
  - discriminate.
  - reflexivity.
  - apply (bool_decide_unpack _). by vm_compute.
  - apply (bool_decide_unpack _). by vm_compute.
Defined.

(** C5, as stated, fails in three ways. A selector that is the empty
    string names no registered variant, yet the request is answered by the
    default variant, on whose session it is sent; the same holds for a
    selector that is not a string. On the example server, whose ranking
    function reads the client's hints, the error of an unknown variant
    lists [claude-optimized] first, after [initialize] advertised
    [gpt-optimized] first to the same client: the list is not in the rank
    order of the session. And for the selector [\xff], which is not valid
    UTF-8, the data names U+FFFD, not the identifier asked for. *)
Lemma empty_selector_is_routed_to_default :
  ("" ∉ map ID (Variants (registered testVariantServer)))
  /\ variantIDFromMeta (listToolsSelecting (AStr "")) = ""
  /\ succeeded testListEmptySelector = true
  /\ sessionOfVariant (worldOf testInitialize) 7 "coding" = Some 1%nat
  /\ calledSessions (trace (worldOf testListEmptySelector)) = [1%nat]
  /\ variantIDFromMeta (listToolsSelecting (ANum 42)) = ""
  /\ advertisedIDs (replyOf weatherInitialize)
     = ["gpt-optimized"; "claude-optimized"; "compact"]
  /\ match sessionMiddleware (registered weatherService) None sdkHandler
             "tools/list" (listToolsSelecting (AStr "nonexistent"))
             (worldOf weatherInitialize) with
     | Ok (inl err, _) =>
         err = invalidVariantError "nonexistent"
                 ["claude-optimized"; "gpt-optimized"; "compact"]
     | _ => False
     end
  /\ match sessionMiddleware (registered testVariantServer) None sdkHandler
             "tools/list"
             (listToolsSelecting (AStr (String "255"%char EmptyString)))
             (worldOf testInitialize) with
     | Ok (inl err, _) =>
         err = invalidVariantError
                 (String "239"%char (String "191"%char (String "189"%char EmptyString)))
                 (map ID (RankedVariants (registered testVariantServer) noHints))
     | _ => False
     end.
Proof.
  split; [apply (bool_decide_unpack _); by vm_compute|].
  split_and!; by vm_compute.
Qed.

(** * Further properties *)

(** ** Routing *)

Lemma getSession_selected d req meta body id conn :
  GetParams req = Some (mkParams (Some meta) body) ->
  meta !! metaKeyVariant = Some (AStr id) -> id <> "" ->
  connections d !! id = Some conn ->
  getSession d req = inr (id, clientSession conn).
Proof.
  intros Hp Hid Hne Hconn. unfold getSession, variantIDFromMeta.
  rewrite Hp. cbn [Meta]. rewrite Hid, bool_decide_eq_false_2 by done.
  by rewrite Hconn.
Qed.

Ltac decide_closed :=
  repeat match goal with
         | |- context [bool_decide ?P] =>
             let b := eval vm_compute in (bool_decide P) in
             match b with
             | true => change (bool_decide P) with true
             | false => change (bool_decide P) with false
             end
         end;
  cbv iota.

Ltac route_method :=
  unfold handle, handleList, handleCall, handleSubscribe, handleUnsubscribe,
    handleCompletion;
  decide_closed.

(** X1: a request that selects a registered variant, with parameters of the
    type of its method, is sent once, on the client session of that
    variant, with its [_meta] and fields as they came; a result is
    returned as it is, an error goes through [enrichError] with the
    variant selected. *)
Theorem selected_variant_receives_the_call d method req next w meta body sent id conn :
  GetParams req = Some (mkParams (Some meta) body) ->
  forwarded method body = Some sent ->
  meta !! metaKeyVariant = Some (AStr id) -> id <> "" ->
  connections d !! id = Some conn ->
  handle d method req next w
  = let p := Some (mkParams (Some meta) sent) in
    match innerReply w (clientSession conn) method p with
    | inr res =>
        Ok (inr (if dropsResult method then None else res),
            called w (clientSession conn) method p)
    | inl err =>
        match enrichError err id with
        | Ok enriched => Ok (inl enriched, called w (clientSession conn) method p)
        | Panic msg => Panic msg
        end
    end.
Proof.
  intros Hp Hfw Hid Hne Hconn.
  pose proof (getSession_selected d req meta body id conn Hp Hid Hne Hconn) as Hg.
  cbv zeta.
  destruct body; cbn [forwarded] in Hfw; try done;
    case_bool_decide as Hm; try done; injection Hfw as <-; subst method;
    route_method; rewrite Hg, ?Hp; unfold bind, call, called;
    match goal with
    | |- context [innerReply w ?s ?m ?p] => destruct (innerReply w s m p) as [err|res]
    end;
    cbn [withoutResult]; rewrite ?forwardReply_error; try done;
    unfold forwardReply, ret; try by destruct res as [[]|].
Qed.

Lemma selected_variant_receives_the_call_witness :
  handle testDispatcher "tools/call" (callToolSelecting "compact") sdkHandler quietWorld
  = Ok (inr (Some (RList (AList []) "")),
        called quietWorld 3 "tools/call"
          (Some (mkParams (Some (selecting "compact"))
                          (PCallTool "analyze_code" (AMap ∅))))).
Proof.
  apply (selected_variant_receives_the_call testDispatcher "tools/call"
           (callToolSelecting "compact") sdkHandler quietWorld
           (selecting "compact") (PCallToolRaw "analyze_code" (AMap ∅))
           (PCallTool "analyze_code" (AMap ∅)) "compact" (mkInnerConnection 3 (Some 2))).
  - reflexivity.
  - reflexivity.
  - reflexivity.
  - discriminate.
  - by vm_compute.
Defined.

(** X2: a method that needs parameters of its own type answers a request
    without them, or with parameters of another type, with the error
    [-32602 "missing or invalid <method> params"], once the variant is
    resolved; no inner session is sent anything. *)
Theorem missing_params_are_refused d method req next w id session :
  method ∈ paramMethods ->
  getSession d req = inr (id, session) ->
  match GetParams req with
  | Some p => forwarded method (body p) = None
  | None => True
  end ->
  handle d method req next w = Ok (inl (missingParams method), w).
Proof.
  intros Hm Hg Hbody.
  unfold paramMethods, callMethods in Hm. simpl in Hm.
  repeat (apply elem_of_cons in Hm as [->|Hm]); [..|by apply elem_of_nil in Hm];
    route_method; rewrite Hg;
    destruct (GetParams req) as [[meta pbody]|]; try done;
    destruct pbody; try done; cbn [body forwarded] in Hbody;
    by revert Hbody; decide_closed.
Qed.

Lemma missing_params_are_refused_witness :
  handle testDispatcher "tools/call" (mkRequest 7 None) sdkHandler quietWorld
  = Ok (inl (missingParams "tools/call"), quietWorld).
Proof.
  apply (missing_params_are_refused testDispatcher "tools/call" (mkRequest 7 None)
           sdkHandler quietWorld "coding" 1).
  - apply (bool_decide_unpack _). by vm_compute.
  - by vm_compute.
  - exact I.
Defined.

(** ** Pagination *)

Lemma handle_list d k req next w meta cursor id session :
  GetParams req = Some (mkParams meta (PList k cursor)) ->
  getSession d req = inr (id, session) ->
  handle d (listMethod k) req next w
  = listCase k (listMethod k) id session (GetParams req) w.
Proof.
  intros Hp Hg. destruct k; cbn [listMethod]; route_method; by rewrite Hg.
Qed.

Lemma listCase_forward k method id session meta c w :
  (do r <- call session method (Some (mkParams meta (PList k c)));
   forwardReply id true r) w
  = let p := Some (mkParams meta (PList k c)) in
    match innerReply w session method p with
    | inr (Some (RList items nextc)) =>
        Ok (inr (Some (RList items (wrapCursor nextc id))), called w session method p)
    | inr res => Ok (inr res, called w session method p)
    | inl err =>
        match enrichError err id with
        | Ok enriched => Ok (inl enriched, called w session method p)
        | Panic msg => Panic msg
        end
    end.
Proof.
  cbv zeta. unfold bind, call, called.
  destruct (innerReply w session method _) as [err|[[items nextc|init|a]|]];
    rewrite ?forwardReply_error; try done.
  unfold forwardReply, ret. cbn [andb].
  case_bool_decide as Hn; [by subst nextc|done].
Qed.

(** X3: a list request whose cursor is one the proxy wrapped for the variant
    the request resolves to (or is empty) reaches the inner session with
    the inner cursor it was made from, and the [nextCursor] of the page
    comes back wrapped for that variant. *)
Theorem list_cursor_is_unwrapped_and_rewrapped d k req next w meta c id session :
  GetParams req = Some (mkParams meta (PList k (wrapCursor c id))) ->
  getSession d req = inr (id, session) ->
  validUTF8 id -> validUTF8 c ->
  handle d (listMethod k) req next w
  = let p := Some (mkParams meta (PList k c)) in
    match innerReply w session (listMethod k) p with
    | inr (Some (RList items nextc)) =>
        Ok (inr (Some (RList items (wrapCursor nextc id))),
            called w session (listMethod k) p)
    | inr res => Ok (inr res, called w session (listMethod k) p)
    | inl err =>
        match enrichError err id with
        | Ok enriched => Ok (inl enriched, called w session (listMethod k) p)
        | Panic msg => Panic msg
        end
    end.
Proof.
  intros Hp Hg Hid Hc.
  rewrite (handle_list d k req next w meta _ id session Hp Hg), Hp.
  rewrite <- listCase_forward. unfold listCase.
  rewrite bool_decide_eq_true_2 by done.
  destruct (decide (c = "")) as [->|Hne].
  - change (wrapCursor "" id) with "". by rewrite bool_decide_eq_true_2.
  - assert (Hw : wrapCursor c id <> "").
    { unfold wrapCursor. rewrite bool_decide_eq_false_2 by done.
      apply base64_EncodeToString_nonempty, Marshal_nonempty. }
    rewrite bool_decide_eq_false_2 by done.
    rewrite unwrapCursor_wrapCursor by done.
    by rewrite bool_decide_eq_false_2 by (intros H; by apply H).
Qed.

Lemma list_cursor_is_unwrapped_and_rewrapped_witness :
  handle testDispatcher "tools/list"
    (requestWith 7 (Some (selecting "compact"))
       (PList ListTools (wrapCursor "page2" "compact")))
    sdkHandler quietWorld
  = Ok (inr (Some (RList (AList []) "")),
        called quietWorld 3 "tools/list"
          (Some (mkParams (Some (selecting "compact")) (PList ListTools "page2")))).
Proof.
  apply (list_cursor_is_unwrapped_and_rewrapped testDispatcher ListTools
           (requestWith 7 (Some (selecting "compact"))
              (PList ListTools (wrapCursor "page2" "compact")))
           sdkHandler quietWorld (Some (selecting "compact")) "page2" "compact" 3).
  - reflexivity.
  - by vm_compute.
  - reflexivity.
  - reflexivity.
Defined.

(** X4: a list request whose cursor was wrapped for another variant, or is no
    base64 text, is answered with the error of [unwrapCursor] as it is;
    no inner session is sent anything. The data of the first error names
    the variant of the cursor and the variant the request resolved to,
    both valid UTF-8. *)
Theorem foreign_cursor_is_refused d k req next w meta cursor id session :
  GetParams req = Some (mkParams meta (PList k cursor)) ->
  getSession d req = inr (id, session) ->
  cursor <> "" ->
  (forall c v, validUTF8 v -> validUTF8 c -> validUTF8 id -> c <> "" -> v <> id ->
     cursor = wrapCursor c v ->
     handle d (listMethod k) req next w = Ok (inl (cursorVariantMismatch v id), w))
  /\ (base64.DecodeString cursor = None ->
      handle d (listMethod k) req next w = Ok (inl invalidCursorFormat, w)).
Proof.
  intros Hp Hg Hne.
  rewrite (handle_list d k req next w meta _ id session Hp Hg), Hp.
  unfold listCase. rewrite bool_decide_eq_true_2 by done.
  rewrite bool_decide_eq_false_2 by done. split.
  - intros c v Hv Hc Hid Hcne Hvne ->. rewrite unwrapCursor_wrapCursor by done.
    rewrite bool_decide_eq_true_2 by done.
    by rewrite (denotedString_valid id Hid).
  - intros Hdec. unfold unwrapCursor.
    rewrite bool_decide_eq_false_2 by done. by rewrite Hdec.
Qed.

Lemma foreign_cursor_is_refused_witness :
  handle testDispatcher "tools/list"
    (requestWith 7 (Some (selecting "compact"))
       (PList ListTools (wrapCursor "page2" "coding")))
    sdkHandler quietWorld
  = Ok (inl (cursorVariantMismatch "coding" "compact"), quietWorld).
Proof.
  refine (proj1 (foreign_cursor_is_refused testDispatcher ListTools
                   (requestWith 7 (Some (selecting "compact"))
                      (PList ListTools (wrapCursor "page2" "coding")))
                   sdkHandler quietWorld (Some (selecting "compact"))
                   (wrapCursor "page2" "coding") "compact" 3 _ _ _)
                "page2" "coding" _ _ _ _ _ _).
  - reflexivity.
  - by vm_compute.
  - by vm_compute.
  - reflexivity.
  - reflexivity.
  - reflexivity.
  - discriminate.
  - discriminate.
  - reflexivity.
Defined.

(** ** Errors of inner sessions *)

(** [json.Marshal] writes such a value as it is. *)
Lemma denotedAny_roundTrips a : roundTrips a -> denotedAny a = a.
Proof.
  induction 1 as [|b|n Hn|s Hs|l _ IH|m _ _ IH]; cbn [denotedAny]; try done.
  - by rewrite (denotedString_valid s Hs).
  - f_equal. rewrite <- (map_id l) at 2. apply map_ext_in.
    intros x Hx. apply IH. by apply list_elem_of_In.
  - f_equal. apply map_eq. intros k. rewrite lookup_fmap.
    destruct (m !! k) as [x|] eqn:Hk; [|done]. cbn. f_equal. by apply (IH k).
Qed.

(** X7: [enrichError] panics on one kind of error only: a JSON-RPC error of a
    resolution class whose data is the JSON text [null]. Any other error
    it returns: as it is when it holds no JSON-RPC error or one of another
    code, and otherwise as a new JSON-RPC error with the same code and
    message (the errors that wrapped it are dropped), whose data has
    [activeVariant] set to the variant, which is valid UTF-8, over any
    value it had, and beside it the fields the data had, under the same
    keys (valid UTF-8, as the keys of a JSON text are read): a field whose
    value [json.Unmarshal] and [json.Marshal] give back as it was (strings
    of valid UTF-8, numbers a [float64] holds exactly) has the value it
    had. *)
Theorem enrichError_returns_unless_null err v :
  validUTF8 v ->
  ((exists msg, enrichError err v = Panic msg)
   <-> exists jErr, errors_As err = Some jErr
         /\ resolutionClass (jsonrpc.Code jErr) = true
         /\ jsonrpc.Data jErr = jsonrpc.RawJSON ANil)
  /\ (forall e, enrichError err v = Ok e ->
        match errors_As err with
        | Some jErr =>
            if resolutionClass (jsonrpc.Code jErr) then
              exists data,
                e = ErrRPC (jsonrpc.mkError (jsonrpc.Code jErr) (jsonrpc.Message jErr)
                              (jsonrpc.RawJSON (AMap data)))
                /\ data !! "activeVariant" = Some (AStr v)
                /\ forall k, k <> "activeVariant" -> validUTF8 k ->
                     (is_Some (data !! k)
                      <-> is_Some (default ∅ (dataFields jErr) !! k))
                     /\ forall x,
                          default ∅ (dataFields jErr) !! k = Some x ->
                          roundTrips x -> data !! k = Some x
            else e = err
        | None => e = err
        end).
Proof.
  intros Hv.
  assert (Hdata : forall fields : gmap string any,
             let data := denotedAny <$> <["activeVariant" := AStr v]> fields in
             data !! "activeVariant" = Some (AStr v)
             /\ forall k, k <> "activeVariant" -> validUTF8 k ->
                  (is_Some (data !! k) <-> is_Some (fields !! k))
                  /\ forall x, fields !! k = Some x -> roundTrips x ->
                               data !! k = Some x).
  { intros fields. cbv zeta. split.
    - rewrite lookup_fmap, lookup_insert_eq. cbn.
      by rewrite (denotedString_valid v Hv).
    - intros k Hk _. rewrite lookup_fmap, lookup_insert_ne by done. split.
      + by rewrite fmap_is_Some.
      + intros x -> Hx. cbn. by rewrite (denotedAny_roundTrips x Hx). }
  pose proof (enrichError_cases err v) as H.
  destruct (errors_As err) as [jErr|] eqn:Has.
  - destruct (resolutionClass (jsonrpc.Code jErr)) eqn:Hclass.
    + assert (Hok : enrichError err v
                    = Ok (ErrRPC (jsonrpc.mkError (jsonrpc.Code jErr)
                                    (jsonrpc.Message jErr)
                                    (marshalMap (<["activeVariant" := AStr v]>
                                                   (default ∅ (dataFields jErr))))))
                    -> jsonrpc.Data jErr <> jsonrpc.RawJSON ANil
                    -> ((exists msg, enrichError err v = Panic msg)
                        <-> exists j', Some jErr = Some j'
                              /\ resolutionClass (jsonrpc.Code j') = true
                              /\ jsonrpc.Data j' = jsonrpc.RawJSON ANil)
                       /\ forall e, enrichError err v = Ok e ->
                            exists data,
                              e = ErrRPC (jsonrpc.mkError (jsonrpc.Code jErr)
                                            (jsonrpc.Message jErr)
                                            (jsonrpc.RawJSON (AMap data)))
                              /\ data !! "activeVariant" = Some (AStr v)
                              /\ forall k, k <> "activeVariant" -> validUTF8 k ->
                                   (is_Some (data !! k)
                                    <-> is_Some (default ∅ (dataFields jErr) !! k))
                                   /\ forall x,
                                        default ∅ (dataFields jErr) !! k = Some x ->
                                        roundTrips x -> data !! k = Some x).
      { intros -> Hnull. split.
        - split; [by intros [? ?]|]. intros (j' & [= <-] & _ & Hd). congruence.
        - intros e [= <-]. eexists. split; [reflexivity|].
          apply (Hdata (default ∅ (dataFields jErr))). }
      destruct (jsonrpc.Data jErr) as [| |j] eqn:Hd; [by apply Hok..|].
      destruct j; try by apply Hok.
      rewrite H. split; [|done]. split; [|by eauto]. intros _. by exists jErr.
    + rewrite H. split; [|by intros e [= <-]].
      split; [by intros [? ?]|]. intros (j' & [= <-] & Hc & _). congruence.
  - rewrite H. split; [|by intros e [= <-]].
    split; [by intros [? ?]|]. by intros (j' & ? & _).
Qed.

Lemma enrichError_returns_unless_null_witness :
  let fields : gmap string any :=
    <["activeVariant" := AStr "compact"]>
      (<["method" := AStr "tools/call"]> (<["attempt" := ANum 2]> ∅)) in
  let err :=
    ErrWrap "calling tool"
      (ErrRPC (jsonrpc.mkError (-32601) "method not found"
                 (jsonrpc.RawJSON (AMap fields)))) in
  exists data,
    enrichError err "coding"
    = Ok (ErrRPC (jsonrpc.mkError (-32601) "method not found"
                    (jsonrpc.RawJSON (AMap data))))
    /\ data !! "activeVariant" = Some (AStr "coding")
    /\ data !! "method" = Some (AStr "tools/call")
    /\ data !! "attempt" = Some (ANum 2).
Proof.
  cbv zeta.
  destruct (enrichError_returns_unless_null
              (ErrWrap "calling tool"
                 (ErrRPC (jsonrpc.mkError (-32601) "method not found"
                            (jsonrpc.RawJSON
                               (AMap (<["activeVariant" := AStr "compact"]>
                                        (<["method" := AStr "tools/call"]>
                                           (<["attempt" := ANum 2]> ∅))))))))
              "coding" eq_refl) as [_ Hok].
  destruct (enrichError _ "coding") as [e|msg] eqn:He; [|by vm_compute in He].
  specialize (Hok e eq_refl). cbn [errors_As] in Hok.
  change (resolutionClass _) with true in Hok. cbv iota in Hok.
  destruct Hok as (data & -> & Hactive & Hrest).
  exists data. split; [done|]. split; [done|]. split.
  - apply (Hrest "method"); [done|reflexivity|by vm_compute|].
    apply roundTrips_str. reflexivity.
  - apply (Hrest "attempt"); [done|reflexivity|by vm_compute|].
    apply roundTrips_num. by vm_compute.
Defined.

(** ** The middleware *)

(** X9: a method other than [initialize] that the dispatcher does not route
    ([ping] and the like) is handled by the SDK's own handler, whatever
    state the front session has. *)
Theorem unrouted_methods_pass_through s shared next method req w :
  method <> "initialize" -> method ∉ routedMethods ->
  sessionMiddleware s shared next method req w = next method req w.
Proof.
  intros Hinit Hout.
  assert (Hhandle : forall d, handle d method req next = next method req).
  { intros d. unfold handle.
    unfold routedMethods in Hout. rewrite !not_elem_of_app in Hout.
    destruct Hout as (Hl & Hc & Hrest).
    rewrite !not_elem_of_cons in Hrest. destruct Hrest as (Hs & Hu & Hcomp & _).
    by rewrite !bool_decide_eq_false_2 by done. }
  unfold sessionMiddleware. rewrite bool_decide_eq_false_2 by done.
  unfold bind, loadSession.
  destruct (sessions w !! GetSession req) as [state|]; [by rewrite Hhandle|].
  destruct shared as [sh|]; [by rewrite Hhandle|done].
Qed.

Lemma unrouted_methods_pass_through_witness :
  sessionMiddleware (registered testVariantServer) None sdkHandler "ping"
    (mkRequest 7 None) (worldOf testInitialize)
  = sdkHandler "ping" (mkRequest 7 None) (worldOf testInitialize).
Proof.
  apply (unrouted_methods_pass_through (registered testVariantServer) None sdkHandler
           "ping" (mkRequest 7 None) (worldOf testInitialize)).
  - discriminate.
  - apply (bool_decide_unpack _). by vm_compute.
Defined.

(** ** The life of a session *)

(** Every handle opened while the connections of a session are made
    belongs to one of the connections made. *)
Lemma connectEntries_owned entries front conns w conns' w' :
  NoDup (map (fun e => ID (variant e)) entries) ->
  (forall e, e ∈ entries -> conns !! ID (variant e) = None) ->
  connectEntries entries front conns w = Ok (inr conns', w') ->
  exists new, trace w' = trace w ++ new
    /\ forall h, h ∈ openedHandles new ->
         exists e c, e ∈ entries /\ conns' !! ID (variant e) = Some c
                     /\ h ∈ handlesOf c.
Proof.
  revert conns w. induction entries as [|e entries IH]; intros conns w Hnd Hfree Hrun.
  - injection Hrun as <- <-. exists []. split; [by rewrite app_nil_r|].
    intros h Hh. by apply elem_of_nil in Hh.
  - cbn [connectEntries] in Hrun. cbn [map] in Hnd.
    apply NoDup_cons in Hnd as [Hid Hnd].
    destruct (connect_spec (entry_backend e) (variant e) front w)
      as (r1 & w1 & n1 & Hrun1 & (Ht1 & _) & _ & _ & Hr1).
    unfold bind at 1 in Hrun. rewrite Hrun1 in Hrun. destruct r1 as [err|c].
    { unfold bind in Hrun. destruct (closeAll conns w1) as [[[] w2]|]; done. }
    destruct Hr1 as (_ & _ & Hop1).
    assert (Hfree' : forall e', e' ∈ entries ->
                       <[ID (variant e) := c]> conns !! ID (variant e') = None).
    { intros e' He'. rewrite lookup_insert_ne; [apply Hfree; by right|].
      intros Heq. apply Hid. rewrite Heq.
      by apply (list_elem_of_fmap_2 (fun e => ID (variant e))). }
    destruct (IH _ _ Hnd Hfree' Hrun) as (n2 & Ht2 & Hown2).
    destruct (connectEntries_spec entries front (<[ID (variant e) := c]> conns) w1
                Hnd Hfree') as (r2 & w2 & n2' & Hrun2 & _ & _ & Hr2).
    rewrite Hrun in Hrun2. injection Hrun2 as <- <-.
    destruct Hr2 as (_ & _ & Hkeep & _).
    exists (n1 ++ n2). split; [by rewrite Ht2, Ht1, app_assoc|].
    intros h. rewrite openedHandles_app. intros [Hh|Hh]%elem_of_app.
    + exists e, c. split; [by left|]. split; [|by apply Hop1].
      rewrite Hkeep by done. apply lookup_insert_eq.
    + destruct (Hown2 h Hh) as (e' & c' & He' & Hc' & Hh').
      exists e', c'. split; [by right|done].
Qed.

(** What a successful [initialize] in stateful mode did, after the SDK's
    handler answered. *)
Lemma initialize_stateful_inv s next req w r0 w0 r w1 :
  next "initialize" req w = Ok (inr r0, w0) ->
  sessionMiddleware s None next "initialize" req w = Ok (inr r, w1) ->
  exists state w0',
    createSessionState s (Some (GetSession req)) w0 = Ok (inr state, w0')
    /\ w1 = mkWorld (trace w0') (nextHandle w0')
                    (<[GetSession req := state]> (sessions w0')) (innerReply w0')
    /\ r = enrichInitResult s r0 req.
Proof.
  intros Hnext Hrun. unfold sessionMiddleware in Hrun.
  rewrite bool_decide_eq_true_2 in Hrun by done.
  unfold bind at 1 in Hrun. rewrite Hnext in Hrun. unfold bind at 1 in Hrun.
  destruct (createSessionState s (Some (GetSession req)) w0)
    as [[[err|state] w0']|]; [done| |done].
  exists state, w0'. split; [done|].
  unfold bind, storeSession, ret in Hrun. by injection Hrun as <- <-.
Qed.

(** X10: a session that [initialize] set up and that then ended has closed
    every inner session it opened: when the front session ends, its state
    is removed from the middleware's map, the states of other sessions
    stay, every handle opened for the session's connections is closed,
    and nothing is opened; a later request of that front session is
    answered by the SDK's own handler. *)
Theorem ended_session_leaves_nothing_open s next req w r0 w0 r w1 :
  NoDup (map ID (Variants s)) ->
  next "initialize" req w = Ok (inr r0, w0) ->
  sessionMiddleware s None next "initialize" req w = Ok (inr r, w1) ->
  exists state w2 new1 new2,
    sessions w1 !! GetSession req = Some state
    /\ trace w1 = trace w0 ++ new1
    /\ sessionEnded (GetSession req) state w1 = Ok (tt, w2)
    /\ trace w2 = trace w1 ++ new2
    /\ sessions w2 = delete (GetSession req) (sessions w1)
    /\ openedHandles new2 = []
    /\ (forall h, h ∈ openedHandles new1 -> h ∈ closedHandles new2)
    /\ forall method req2,
         method <> "initialize" -> GetSession req2 = GetSession req ->
         sessionMiddleware s None next method req2 w2 = next method req2 w2.
Proof.
  intros Hnd Hnext Hrun.
  destruct (initialize_stateful_inv s next req w r0 w0 r w1 Hnext Hrun)
    as (state & w0' & Hcreate & -> & _).
  unfold createSessionState, bind at 1 in Hcreate.
  destruct (connectEntries (variants s) (Some (GetSession req)) ∅ w0)
    as [[[err|conns] wc]|] eqn:Hconn; [done| |done].
  unfold ret in Hcreate. injection Hcreate as <- <-.
  assert (Hnd' : NoDup (map (fun e => ID (variant e)) (variants s))).
  { unfold Variants in Hnd. by rewrite map_map in Hnd. }
  destruct (connectEntries_owned (variants s) (Some (GetSession req)) ∅ w0 conns wc Hnd')
    as (new1 & Ht1 & Hown);
    [intros e _; apply lookup_empty|done|].
  set (w1 := mkWorld (trace wc) (nextHandle wc)
                     (<[GetSession req := mkSessionState (mkDispatcher s conns)]>
                        (sessions wc)) (innerReply wc)).
  set (wd := mkWorld (trace w1) (nextHandle w1) (delete (GetSession req) (sessions w1))
                     (innerReply w1)).
  destruct (closeAll_spec conns wd) as (w2 & new2 & Hclose & (Ht2 & Hs2 & _) & Hop2 & Hcl2).
  exists (mkSessionState (mkDispatcher s conns)), w2, new1, new2.
  split; [apply lookup_insert_eq|]. split; [done|].
  split.
  { unfold sessionEnded, bind, deleteSession, sessionState_close. cbn. exact Hclose. }
  split; [done|]. split; [done|]. split; [done|]. split.
  - intros h Hh. destruct (Hown h Hh) as (e & c & _ & Hc & Hhc).
    by apply (Hcl2 (ID (variant e)) c).
  - intros method req2 Hm Hss. unfold sessionMiddleware.
    rewrite bool_decide_eq_false_2 by done. unfold bind, loadSession.
    rewrite Hs2, Hss. cbn [sessions wd]. by rewrite lookup_delete_eq.
Qed.

Lemma ended_session_leaves_nothing_open_witness :
  exists state w2 new1 new2,
    sessions (worldOf testInitialize) !! GetSession (initializeWith "") = Some state
    /\ trace (worldOf testInitialize) = trace quietWorld ++ new1
    /\ sessionEnded (GetSession (initializeWith "")) state (worldOf testInitialize)
       = Ok (tt, w2)
    /\ trace w2 = trace (worldOf testInitialize) ++ new2
    /\ sessions w2 = delete (GetSession (initializeWith ""))
                            (sessions (worldOf testInitialize))
    /\ openedHandles new2 = []
    /\ (forall h, h ∈ openedHandles new1 -> h ∈ closedHandles new2)
    /\ forall method req2,
         method <> "initialize" -> GetSession req2 = GetSession (initializeWith "") ->
         sessionMiddleware (registered testVariantServer) None sdkHandler method req2 w2
         = sdkHandler method req2 w2.
Proof.
  apply (ended_session_leaves_nothing_open (registered testVariantServer) sdkHandler
           (initializeWith "") quietWorld
           (Some (RInitialize (mkInitializeResult None ANil))) quietWorld
           (replyOf testInitialize) (worldOf testInitialize)).
  - apply (bool_decide_unpack _). by vm_compute.
  - reflexivity.
  - apply (succeeded_run testInitialize). by vm_compute.
Defined.

(** ** The default variant *)

Lemma entryID_variantPayload v : entryID (AMap (variantPayload v)) = ID v.
Proof.
  unfold entryID. by destruct (variantPayload_fields v) as (-> & _).
Qed.

Lemma advertisedIDs_enrichInitResult s init req :
  advertisedIDs (enrichInitResult s (Some (RInitialize init)) req)
  = map ID (RankedVariants s (extractVariantHints req)).
Proof.
  unfold advertisedIDs.
  destruct (enrichInitResult_advertised s init req) as [-> _].
  change (default [] (Some ?l)) with l. rewrite map_map.
  apply map_ext. intros v. apply entryID_variantPayload.
Qed.

(** X11: without a custom ranking function, the variant that serves a request
    without selector is the first one the [initialize] response of the
    session advertised: the request is resolved to its identifier and to
    the client session of its connection. *)
Theorem default_variant_is_first_advertised s next req w init0 w0 r w1 req2 :
  rankingFunc s = None ->
  NoDup (map ID (Variants s)) ->
  variants s <> [] ->
  next "initialize" req w = Ok (inr (Some (RInitialize init0)), w0) ->
  sessionMiddleware s None next "initialize" req w = Ok (inr r, w1) ->
  variantIDFromMeta req2 = "" ->
  exists state first conn,
    sessions w1 !! GetSession req = Some state
    /\ head (advertisedIDs r) = Some first
    /\ connections (state_dispatcher state) !! first = Some conn
    /\ getSession (state_dispatcher state) req2 = inr (first, clientSession conn).
Proof.
  intros Hrank Hnd Hne Hnext Hrun Hsel.
  destruct (initialize_stateful_inv s next req w _ w0 r w1 Hnext Hrun)
    as (state & w0' & Hcreate & -> & ->).
  destruct (createSessionState_spec s (Some (GetSession req)) w0 Hnd)
    as (created & w0'' & new & Hrun' & _ & Hcreated).
  rewrite Hcreate in Hrun'. injection Hrun' as <- <-.
  destruct Hcreated as (_ & _ & Hserver & Hdom & _).
  rewrite advertisedIDs_enrichInitResult.
  rewrite (default_ranking_ignores_hints s _ Hrank).
  assert (Hperm : RankedVariants s noHints ≡ₚ Variants s).
  { unfold RankedVariants. rewrite Hrank. case_bool_decide; [done|].
    apply defaultRankingFunc_Permutation. }
  destruct (RankedVariants s noHints) as [|v rest] eqn:Hranked.
  { apply Permutation_nil_l in Hperm. unfold Variants in Hperm.
    by destruct (variants s). }
  assert (Hin : ID v ∈ map ID (Variants s)).
  { rewrite <- Hperm. cbn [map]. by left. }
  apply Hdom in Hin as [conn Hconn].
  exists state, (ID v), conn. split; [apply lookup_insert_eq|].
  split; [done|]. split; [done|].
  unfold getSession. rewrite Hsel, bool_decide_eq_true_2 by done.
  by rewrite Hserver, Hranked, Hconn.
Qed.

Lemma default_variant_is_first_advertised_witness :
  exists state first conn,
    sessions (worldOf testInitialize) !! GetSession (initializeWith "") = Some state
    /\ head (advertisedIDs (replyOf testInitialize)) = Some first
    /\ connections (state_dispatcher state) !! first = Some conn
    /\ getSession (state_dispatcher state) plainListTools = inr (first, clientSession conn).
Proof.
  apply (default_variant_is_first_advertised (registered testVariantServer) sdkHandler
           (initializeWith "") quietWorld (mkInitializeResult None ANil) quietWorld
           (replyOf testInitialize) (worldOf testInitialize) plainListTools).
  - reflexivity.
  - apply (bool_decide_unpack _). by vm_compute.
  - discriminate.
  - reflexivity.
  - apply (succeeded_run testInitialize). by vm_compute.
  - reflexivity.
Defined.

(** ** Ranking *)

(** X12: when the priorities lie between [-2^62] and [2^62], so that no
    difference of two of them overflows, the default ranking returns the
    descriptors it was given, each once, sorted by priority and then by
    status weight, with descriptors of the same priority and weight in
    the order they came in. *)
Theorem default_ranking_sorts_in_range hints vs :
  Forall priorityInRange vs ->
  defaultRankingFunc hints vs ≡ₚ vs
  /\ StronglySorted rankLe (defaultRankingFunc hints vs)
  /\ forall k, filter (fun v => rankKey v = k) (defaultRankingFunc hints vs)
               = filter (fun v => rankKey v = k) vs.
Proof.
  intros Hrange. split; [apply defaultRankingFunc_Permutation|].
  split; [by apply defaultRankingFunc_sorted|].
  intros k. apply defaultRankingFunc_stable.
Qed.

Lemma default_ranking_sorts_in_range_witness :
  let vs := [withPriority (describe "old" Deprecated) 1;
             withPriority (describe "beta" Experimental) 1;
             withPriority (describe "main" Stable) 0;
             withPriority (describe "next" Experimental) 1] in
  map ID (defaultRankingFunc noHints vs) = ["main"; "beta"; "next"; "old"]
  /\ defaultRankingFunc noHints vs ≡ₚ vs
  /\ StronglySorted rankLe (defaultRankingFunc noHints vs)
  /\ forall k, filter (fun v => rankKey v = k) (defaultRankingFunc noHints vs)
               = filter (fun v => rankKey v = k) vs.
Proof.
  cbv zeta. split; [by vm_compute|].
  apply (default_ranking_sorts_in_range noHints).
  repeat constructor; by vm_compute.
Defined.

(** X13: with priorities between [-2^62] and [2^62] and [modelFamily]
    hints of ASCII text, the client's and the variants', the ranking of the
    model-optimized example returns the descriptors it was given, each
    once, with the variants whose [modelFamily] hint matches the client's
    (by [strings.EqualFold]) before the others and, within each of the two
    groups, in ascending priority; variants that agree on the match and
    on the priority keep the order they came in. *)
Theorem modelFamilyRanking_puts_matches_first hints vs :
  Forall priorityInRange vs ->
  isASCII (HintValue_string hints "modelFamily").1 ->
  Forall (fun v => isASCII (familyHint v)) vs ->
  modelFamilyRanking hints vs ≡ₚ vs
  /\ StronglySorted (familyOrder hints) (modelFamilyRanking hints vs)
  /\ forall k,
       filter (fun v => (matchesFamily hints v, Priority v) = k)
              (modelFamilyRanking hints vs)
       = filter (fun v => (matchesFamily hints v, Priority v) = k) vs.
Proof.
  intros Hrange _ _.
  assert (Hcmp : modelFamilyRanking hints vs
                 = SortStableFunc
                     (fun a b =>
                        if negb (eqb (matchesFamily hints a) (matchesFamily hints b))
                        then (if matchesFamily hints a then (-1)%Z else 1%Z)
                        else int_sub (Priority a) (Priority b)) vs) by reflexivity.
  rewrite Hcmp. clear Hcmp.
  assert (Hsub : forall a b, priorityInRange a -> priorityInRange b ->
                   int_sub (Priority a) (Priority b) = (Priority a - Priority b)%Z).
  { intros a b Ha Hb. unfold priorityInRange in *. apply int_wrap_id.
    unfold int_min, int_max. lia. }
  split; [apply SortStableFunc_Permutation|]. split.
  - apply (SortStableFunc_sorted _ (familyOrder hints) priorityInRange); [| | |done].
    + intros a b c. unfold familyOrder.
      destruct (matchesFamily hints a), (matchesFamily hints b),
        (matchesFamily hints c); cbn; try done; lia.
    + intros a b Ha Hb. unfold familyOrder. rewrite (Hsub a b Ha Hb).
      destruct (matchesFamily hints a), (matchesFamily hints b); cbn; try done; lia.
    + intros a b Ha Hb. unfold familyOrder. rewrite (Hsub a b Ha Hb).
      destruct (matchesFamily hints a), (matchesFamily hints b); cbn; try done; lia.
  - intros k.
    apply (SortStableFunc_stable _ (fun v => (matchesFamily hints v, Priority v))).
    intros a b [= Hm Hp]. rewrite Hm, Hp.
    destruct (matchesFamily hints b); cbn;
      unfold int_sub; rewrite Z.sub_diag; by vm_compute.
Qed.

Lemma modelFamilyRanking_puts_matches_first_witness :
  let hints := mkVariantHints "" (Some (<["modelFamily" := AStr "OpenAI"]> ∅)) in
  let vs := Variants (registered weatherService) in
  map ID (modelFamilyRanking hints vs) = ["gpt-optimized"; "claude-optimized"; "compact"]
  /\ modelFamilyRanking hints vs ≡ₚ vs
  /\ StronglySorted (familyOrder hints) (modelFamilyRanking hints vs)
  /\ forall k,
       filter (fun v => (matchesFamily hints v, Priority v) = k)
              (modelFamilyRanking hints vs)
       = filter (fun v => (matchesFamily hints v, Priority v) = k) vs.
Proof.
  cbv zeta. split; [by vm_compute|].
  apply (modelFamilyRanking_puts_matches_first
           (mkVariantHints "" (Some (<["modelFamily" := AStr "OpenAI"]> ∅)))
           (Variants (registered weatherService))).
  - repeat constructor; by vm_compute.
  - unfold isASCII. apply (bool_decide_unpack _). by vm_compute.
  - repeat constructor; unfold isASCII; apply (bool_decide_unpack _); by vm_compute.
Defined.

(** ** The registry *)

Lemma registerAll_spec regs s :
  NoDup (map ID (Variants s)) ->
  ((exists s', registerAll regs s = Ok s')
   <-> NoDup (map ID (Variants s) ++ map (fun reg => ID reg.1.1) regs))
  /\ forall s', registerAll regs s = Ok s' ->
       Variants s' = Variants s ++ map registeredAs regs
       /\ rankingFunc s' = rankingFunc s
       /\ NoDup (map ID (Variants s')).
Proof.
  revert s. induction regs as [|[[v srv] p] regs IH]; intros s Hnd.
  - cbn [registerAll map]. rewrite !app_nil_r. split; [split; [done|by eauto]|].
    by intros s' [= <-].
  - cbn [registerAll map]. unfold WithVariant.
    destruct (addVariant s v (inMemoryBackend srv) p) as [s1|msg] eqn:Hadd.
    + pose proof (addVariant_NoDup s v _ p s1 Hnd Hadd) as Hnd1.
      destruct (addVariant_appends s v _ p s1 Hadd) as [Hv1 Hr1].
      assert (HV : Variants s1 = Variants s ++ [withPriority v p]).
      { unfold Variants. by rewrite Hv1, map_app. }
      destruct (IH s1 Hnd1) as [Hiff Hok]. split.
      * rewrite Hiff, HV, map_app, <- app_assoc. cbn. reflexivity.
      * intros s' Hs'. destruct (Hok s' Hs') as (HV' & Hr' & Hnd').
        split; [|split; [congruence|done]].
        rewrite HV', HV, <- app_assoc. reflexivity.
    + split; [|done]. split; [by intros [? ?]|]. intros Hnd'.
      assert (Hin : ID v ∈ map ID (Variants s)).
      { apply (addVariant_panics s v (inMemoryBackend srv) p). eauto. }
      apply NoDup_app in Hnd' as (_ & Hdisj & _).
      exfalso. apply (Hdisj (ID v) Hin). cbn. by left.
Qed.


(** ** The initialize response *)

(** X15: without a custom ranking function every registered variant is
    advertised, each once, and [moreVariantsAvailable] is false. *)
Theorem default_ranking_advertises_every_variant s init req :
  rankingFunc s = None ->
  let r := enrichInitResult s (Some (RInitialize init)) req in
  advertisedIDs r ≡ₚ map ID (Variants s)
  /\ advertisedMore r = Some false.
Proof.
  intros Hrank. cbv zeta.
  assert (Hperm : RankedVariants s (extractVariantHints req) ≡ₚ Variants s).
  { unfold RankedVariants. rewrite Hrank. case_bool_decide; [done|].
    apply defaultRankingFunc_Permutation. }
  split.
  - rewrite advertisedIDs_enrichInitResult. by rewrite Hperm.
  - destruct (enrichInitResult_advertised s init req) as [_ ->].
    rewrite (Permutation_length Hperm). unfold Variants. rewrite length_map.
    by rewrite bool_decide_eq_false_2 by lia.
Qed.

Lemma default_ranking_advertises_every_variant_witness :
  advertisedIDs (enrichInitResult (registered testVariantServer)
                   (Some (RInitialize (mkInitializeResult None ANil)))
                   (initializeWith ""))
  ≡ₚ map ID (Variants (registered testVariantServer))
  /\ advertisedMore (enrichInitResult (registered testVariantServer)
                       (Some (RInitialize (mkInitializeResult None ANil)))
                       (initializeWith ""))
     = Some false.
Proof.
  apply (default_ranking_advertises_every_variant (registered testVariantServer)
           (mkInitializeResult None ANil) (initializeWith "")).
  reflexivity.
Defined.

(** X16: [enrichInitResult] touches one entry of the result only: a result
    that is no initialize result is returned as it is, and in an
    initialize result the server information, the five other
    capabilities and every experimental entry under another key are
    kept; what was under the extension key is replaced. *)
Theorem enrichInitResult_keeps_the_rest s r req :
  match r with
  | Some (RInitialize init) =>
      let caps := default mcp.emptyCapabilities (Capabilities init) in
      exists caps' experimental',
        enrichInitResult s r req
        = Some (RInitialize (mkInitializeResult (Some caps') (ServerInfo init)))
        /\ mcp.Experimental caps' = Some experimental'
        /\ mcp.Completions caps' = mcp.Completions caps
        /\ mcp.Logging caps' = mcp.Logging caps
        /\ mcp.Prompts caps' = mcp.Prompts caps
        /\ mcp.Resources caps' = mcp.Resources caps
        /\ mcp.Tools caps' = mcp.Tools caps
        /\ is_Some (experimental' !! extensionID)
        /\ forall k, k <> extensionID ->
             experimental' !! k = default ∅ (mcp.Experimental caps) !! k
  | _ => enrichInitResult s r req = r
  end.
Proof.
  destruct r as [[items nextc|init|a]|]; try done. cbv zeta.
  eexists _, _. split; [reflexivity|]. cbn.
  split; [done|]. split; [done|]. split; [done|]. split; [done|].
  split; [done|]. split; [done|]. split.
  - rewrite lookup_insert_eq. eauto.
  - intros k Hk. by rewrite lookup_insert_ne.
Qed.

(** ** Notification metadata *)

(** X18: the variant [injectVariantMeta] puts into parameters is the one
    [variantIDFromMeta] reads from them; the other entries of [_meta] and
    the fields of the parameters are kept, and a later injection replaces
    an earlier one. *)
Theorem injected_variant_is_read_back p id id' ss :
  variantIDFromMeta (mkRequest ss (Some (injectVariantMeta p id))) = id
  /\ body (injectVariantMeta p id) = body p
  /\ (forall k, k <> metaKeyVariant ->
        default ∅ (Meta (injectVariantMeta p id)) !! k = default ∅ (Meta p) !! k)
  /\ injectVariantMeta (injectVariantMeta p id) id' = injectVariantMeta p id'.
Proof.
  unfold variantIDFromMeta, injectVariantMeta. cbn.
  rewrite lookup_insert_eq. split; [done|]. split; [done|]. split.
  - intros k Hk. rewrite lookup_insert_ne by done. by destruct (Meta p).
  - by rewrite insert_insert_eq.
Qed.

(** ** Capability discovery *)

(** A probe never panics and closes every session it opened; it fails
    exactly when the backend does not connect, and otherwise returns the
    capabilities the inner server advertises. *)
Lemma capabilities_spec advertised b w :
  exists r w' new, capabilities advertised b w = Ok (r, w') /\ extends w w' new
    /\ (forall h, h ∈ openedHandles new -> h ∈ closedHandles new)
    /\ match r with
       | inl _ => connects b = false
       | inr caps => connects b = true
                     /\ forall v, caps = probed advertised (mkVariantEntry v b)
       end.
Proof.
  destruct b as [srv].
  unfold capabilities, connects, probed, bind, openSession, emit, ret, extends.
  cbn [entry_backend]. destruct (server_connect srv); cbn.
  - eexists _, _, [EvOpen (nextHandle w); EvOpen (S (nextHandle w));
                   EvClose (S (nextHandle w)); EvClose (nextHandle w)].
    split; [reflexivity|]. cbn. rewrite <- !app_assoc. split; [done|].
    split; [|done]. unfold openedHandles, closedHandles. cbn. intros h.
    rewrite !elem_of_cons. intros [->|[->|Hh]]; [by right; left|by left|by right; right].
  - eexists _, _, []. split; [reflexivity|]. cbn. rewrite app_nil_r.
    split; [done|]. split; [|done]. intros h Hh. by apply elem_of_nil in Hh.
  - eexists _, _, [EvOpen (nextHandle w); EvClose (nextHandle w)].
    split; [reflexivity|]. cbn. rewrite <- app_assoc. split; [done|]. done.
Qed.

Lemma unionCapabilities_flag (flag : mcp.ServerCapabilities -> bool) allCaps :
  (forall u c, flag (unionStep u (Some c)) = flag u || flag c) ->
  flag mcp.emptyCapabilities = false ->
  flag (unionCapabilities allCaps) = true
  <-> exists c, Some c ∈ allCaps /\ flag c = true.
Proof.
  intros Hstep H0. unfold unionCapabilities.
  by rewrite unionCapabilities_given, fold_flag, H0, <- flag_exists.
Qed.

Lemma probeEntries_spec advertised entries allCaps w :
  exists r w' new, probeEntries advertised entries allCaps w = Ok (r, w')
    /\ extends w w' new
    /\ (forall h, h ∈ openedHandles new -> h ∈ closedHandles new)
    /\ match r with
       | inl _ => exists e, e ∈ entries /\ connects (entry_backend e) = false
       | inr found =>
           (forall e, e ∈ entries -> connects (entry_backend e) = true)
           /\ fold_left unionStep found mcp.emptyCapabilities
              = fold_left unionStep (map (probed advertised) entries)
                  (fold_left unionStep allCaps mcp.emptyCapabilities)
       end.
Proof.
  revert allCaps w. induction entries as [|e entries IH]; intros allCaps w.
  - exists (inr allCaps), w, []. split; [done|]. split; [apply extends_refl|].
    split; [intros h Hh; by apply elem_of_nil in Hh|].
    split; [intros e He; by apply elem_of_nil in He|]. done.
  - cbn [probeEntries].
    destruct (capabilities_spec advertised (entry_backend e) w)
      as (r1 & w1 & n1 & Hrun1 & Hext1 & Hcl1 & Hr1).
    unfold bind at 1. rewrite Hrun1. destruct r1 as [err|caps].
    + exists (inl err), w1, n1. split; [done|]. split; [done|]. split; [done|].
      exists e. split; [by left|done].
    + destruct Hr1 as [Hb1 Hcaps].
      specialize (Hcaps (variant e)).
      assert (Hprobed : caps = probed advertised e) by (by destruct e).
      set (acc := match caps with Some _ => allCaps ++ [caps] | None => allCaps end).
      destruct (IH acc w1) as (r2 & w2 & n2 & Hrun2 & Hext2 & Hcl2 & Hr2).
      exists r2, w2, (n1 ++ n2). split; [done|].
      split; [by eapply extends_trans|]. split.
      { intros h. rewrite openedHandles_app, closedHandles_app.
        intros [Hh|Hh]%elem_of_app; apply elem_of_app; [left|right]; auto. }
      destruct r2 as [err|found].
      * destruct Hr2 as (e' & He' & Hb). exists e'. split; [by right|done].
      * destruct Hr2 as (Hall & Hfold). split.
        { intros e' [->|He']%elem_of_cons; [done|by apply Hall]. }
        rewrite Hfold. cbn [map fold_left]. f_equal.
        rewrite <- Hprobed. unfold acc. destruct caps; [|done].
        by rewrite fold_left_app.
Qed.

Lemma discoverCapabilities_unites_the_probes_lemma advertised s w :
  exists r w' new, discoverCapabilities advertised s w = Ok (r, w')
    /\ extends w w' new
    /\ (forall h, h ∈ openedHandles new -> h ∈ closedHandles new)
    /\ match r with
       | inl _ => exists e, e ∈ variants s /\ connects (entry_backend e) = false
       | inr caps =>
           (forall e, e ∈ variants s -> connects (entry_backend e) = true)
           /\ caps = unionCapabilities (map (probed advertised) (variants s))
       end.
Proof.
  destruct (probeEntries_spec advertised (variants s) [] w)
    as (r & w' & new & Hrun & Hext & Hcl & Hr).
  unfold discoverCapabilities, bind. rewrite Hrun.
  destruct r as [err|found].
  - by exists (inl err), w', new.
  - exists (inr (unionCapabilities found)), w', new.
    split; [done|]. split; [done|]. split; [done|].
    destruct Hr as [Hall Hfold]. split; [done|]. exact Hfold.
Qed.

(** X19: [discoverCapabilities] never panics and leaves no probe session open.
    It fails exactly when a backend does not connect. Otherwise it returns
    the union of the capabilities the inner servers advertise, in
    registration order: the front server advertises tools, resources and
    prompts exactly when the inner server of some variant does. *)
Theorem discoverCapabilities_unites_the_probes advertised s w :
  exists r w' new, discoverCapabilities advertised s w = Ok (r, w')
    /\ extends w w' new
    /\ (forall h, h ∈ openedHandles new -> h ∈ closedHandles new)
    /\ match r with
       | inl _ => exists e, e ∈ variants s /\ connects (entry_backend e) = false
       | inr caps =>
           (forall e, e ∈ variants s -> connects (entry_backend e) = true)
           /\ caps = unionCapabilities (map (probed advertised) (variants s))
           /\ forall has, has ∈ [hasTools; hasResources; hasPrompts] ->
                (has caps = true
                 <-> exists e c, e ∈ variants s /\ probed advertised e = Some c
                                 /\ has c = true)
       end.
Proof.
  destruct (probeEntries_spec advertised (variants s) [] w)
    as (r & w' & new & Hrun & Hext & Hcl & Hr).
  unfold discoverCapabilities, bind. rewrite Hrun.
  destruct r as [err|found].
  - by exists (inl err), w', new.
  - exists (inr (unionCapabilities found)), w', new.
    split; [done|]. split; [done|]. split; [done|].
    destruct Hr as [Hall Hfold]. split; [done|].
    assert (Hcaps : unionCapabilities found
                    = unionCapabilities (map (probed advertised) (variants s)))
      by exact Hfold.
    split; [done|]. intros has Hhas. rewrite Hcaps.
    assert (Hflag : has (unionCapabilities (map (probed advertised) (variants s))) = true
                    <-> exists c, Some c ∈ map (probed advertised) (variants s)
                                  /\ has c = true).
    { repeat (apply elem_of_cons in Hhas as [->|Hhas]);
        [..|by apply elem_of_nil in Hhas];
        (apply unionCapabilities_flag; [union_flag|done]). }
    rewrite Hflag. split.
    + intros (c & (e & Hc & He)%list_elem_of_fmap & Hf). by exists e, c.
    + intros (e & c & He & Hc & Hf). exists c. split; [|done].
      apply list_elem_of_fmap. by exists e.
Qed.

(** ** The front server *)

Lemma createSessionState_owned s front w state w' :
  NoDup (map ID (Variants s)) ->
  createSessionState s front w = Ok (inr state, w') ->
  exists new, trace w' = trace w ++ new
    /\ closedHandles new = []
    /\ server (state_dispatcher state) = s
    /\ (forall id, is_Some (connections (state_dispatcher state) !! id)
                   <-> id ∈ map ID (Variants s))
    /\ forall h, h ∈ openedHandles new ->
         exists id c, connections (state_dispatcher state) !! id = Some c
                      /\ h ∈ handlesOf c.
Proof.
  intros Hnd Hcreate.
  destruct (createSessionState_spec s front w Hnd)
    as (created & w'' & new & Hrun & (Ht & _) & Hcreated).
  rewrite Hcreate in Hrun. injection Hrun as <- <-.
  destruct Hcreated as (_ & Hcl & Hserver & Hdom & _).
  unfold createSessionState, bind at 1 in Hcreate.
  destruct (connectEntries (variants s) front ∅ w) as [[[err|conns] wc]|] eqn:Hconn;
    [done| |done].
  unfold ret in Hcreate. injection Hcreate as <- <-.
  assert (Hnd' : NoDup (map (fun e => ID (variant e)) (variants s))).
  { unfold Variants in Hnd. by rewrite map_map in Hnd. }
  destruct (connectEntries_owned (variants s) front ∅ w conns wc Hnd')
    as (new1 & Ht1 & Hown); [intros e _; apply lookup_empty|done|].
  assert (Hnew : new1 = new).
  { rewrite Ht in Ht1. by apply app_inv_head in Ht1. }
  subst new1. exists new. split; [done|]. split; [done|]. split; [done|].
  split; [done|]. intros h Hh.
  destruct (Hown h Hh) as (e & c & _ & Hc & Hhc). by exists (ID (variant e)), c.
Qed.

(** X20: [Server.mcpServer] never panics. It fails on a server without
    variants, before anything is opened, and when a backend does not
    connect; when it fails no session is left open. When it succeeds the
    front server advertises the union of the capabilities of the inner
    servers; in stateful mode it has no shared state and no session is
    left open; in stateless mode its shared state is a dispatcher for the
    server with a connection for each registered variant and no other,
    and the sessions left open are those of these connections. *)
Theorem front_server_construction advertised s stateless w :
  NoDup (map ID (Variants s)) ->
  exists r w' new, Server_mcpServer advertised s stateless w = Ok (r, w')
    /\ trace w' = trace w ++ new
    /\ sessions w' = sessions w
    /\ match r with
       | inl err =>
           ((variants s = [] /\ err = ErrText "variants: no variants registered"
             /\ new = [])
            \/ (exists e, e ∈ variants s /\ connects (entry_backend e) = false))
           /\ forall h, h ∈ openedHandles new -> h ∈ closedHandles new
       | inr f =>
           variants s <> []
           /\ (forall e, e ∈ variants s -> connects (entry_backend e) = true)
           /\ front_capabilities f
              = unionCapabilities (map (probed advertised) (variants s))
           /\ match front_shared f with
              | None =>
                  stateless = false
                  /\ forall h, h ∈ openedHandles new -> h ∈ closedHandles new
              | Some sh =>
                  stateless = true
                  /\ server (state_dispatcher sh) = s
                  /\ (forall id, is_Some (connections (state_dispatcher sh) !! id)
                                 <-> id ∈ map ID (Variants s))
                  /\ forall h, h ∈ openedHandles new ->
                       h ∈ closedHandles new
                       \/ exists id c, connections (state_dispatcher sh) !! id = Some c
                                       /\ h ∈ handlesOf c
              end
       end.
Proof.
  intros Hnd. unfold Server_mcpServer. case_bool_decide as Hlen.
  { exists (inl (ErrText "variants: no variants registered")), w, [].
    split; [done|]. split; [by rewrite app_nil_r|]. split; [done|]. split.
    - left. by destruct (variants s).
    - intros h Hh. by apply elem_of_nil in Hh. }
  assert (Hne : variants s <> []) by (by destruct (variants s)).
  destruct (discoverCapabilities_unites_the_probes_lemma advertised s w)
    as (r & w1 & n1 & Hrun1 & (Ht1 & Hs1 & Hi1) & Hcl1 & Hr1).
  unfold bind at 1. rewrite Hrun1. destruct r as [err|caps].
  { exists (inl err), w1, n1. split; [done|]. split; [done|]. split; [done|].
    split; [by right|done]. }
  destruct Hr1 as (Hall & Hcaps).
  destruct stateless.
  - destruct (createSessionState_spec s None w1 Hnd)
      as (created & w2 & n2 & Hrun2 & (Ht2 & Hs2 & Hi2) & Hcreated).
    unfold bind. rewrite Hrun2. destruct created as [err|sh].
    + exists (inl err), w2, (n1 ++ n2). split; [done|].
      split; [by rewrite Ht2, Ht1, app_assoc|]. split; [congruence|].
      destruct Hcreated as [Hfail Hclosed]. split; [by right|].
      intros h. rewrite openedHandles_app, closedHandles_app.
      intros [Hh|Hh]%elem_of_app; apply elem_of_app; [left|right]; auto.
    + exists (inr (mkFrontServer caps (Some sh))), w2, (n1 ++ n2). split; [done|].
      split; [by rewrite Ht2, Ht1, app_assoc|]. split; [congruence|].
      split; [done|]. split; [done|]. split; [done|]. cbn [front_shared].
      destruct (createSessionState_owned s None w1 sh w2 Hnd Hrun2)
        as (n2' & Ht2' & _ & Hserver & Hdom & Hown).
      assert (Hn2 : n2' = n2).
      { rewrite Ht2 in Ht2'. by apply app_inv_head in Ht2'. }
      subst n2'. split; [done|]. split; [done|]. split; [done|].
      intros h. rewrite openedHandles_app, closedHandles_app.
      intros [Hh|Hh]%elem_of_app.
      * left. apply elem_of_app. left. by apply Hcl1.
      * right. by apply Hown.
  - exists (inr (mkFrontServer caps None)), w1, n1. split; [done|].
    split; [done|]. split; [done|]. split; [done|]. split; [done|].
    split; [done|]. by cbn.
Qed.

Lemma front_server_construction_witness :
  exists r w' new,
    Server_mcpServer (fun _ => None) (registered testVariantServer) true quietWorld
    = Ok (r, w')
    /\ trace w' = trace quietWorld ++ new
    /\ sessions w' = sessions quietWorld
    /\ match r with
       | inl err =>
           ((variants (registered testVariantServer) = []
             /\ err = ErrText "variants: no variants registered" /\ new = [])
            \/ (exists e, e ∈ variants (registered testVariantServer)
                          /\ connects (entry_backend e) = false))
           /\ forall h, h ∈ openedHandles new -> h ∈ closedHandles new
       | inr f =>
           variants (registered testVariantServer) <> []
           /\ (forall e, e ∈ variants (registered testVariantServer) ->
                 connects (entry_backend e) = true)
           /\ front_capabilities f
              = unionCapabilities (map (probed (fun _ => None))
                                       (variants (registered testVariantServer)))
           /\ match front_shared f with
              | None =>
                  true = false
                  /\ forall h, h ∈ openedHandles new -> h ∈ closedHandles new
              | Some sh =>
                  true = true
                  /\ server (state_dispatcher sh) = registered testVariantServer
                  /\ (forall id, is_Some (connections (state_dispatcher sh) !! id)
                                 <-> id ∈ map ID (Variants (registered testVariantServer)))
                  /\ forall h, h ∈ openedHandles new ->
                       h ∈ closedHandles new
                       \/ exists id c, connections (state_dispatcher sh) !! id = Some c
                                       /\ h ∈ handlesOf c
              end
       end.
Proof.
  apply (front_server_construction (fun _ => None) (registered testVariantServer) true
           quietWorld).
  apply (bool_decide_unpack _). by vm_compute.
Defined.

(** X21: [Server.Close] never panics and returns no error; it closes every
    session of the shared connections, opens nothing, and leaves the
    states of the front sessions alone. Without shared state it does
    nothing. *)
Theorem close_releases_the_shared_connections s shared w :
  exists w' new, Server_Close s shared w = Ok (None, w')
    /\ extends w w' new
    /\ openedHandles new = []
    /\ match shared with
       | Some sh =>
           forall id c h, connections (state_dispatcher sh) !! id = Some c ->
                          h ∈ handlesOf c -> h ∈ closedHandles new
       | None => new = []
       end.
Proof.
  assert (Hnone : forall entries,
             fold_left (fun firstErr entry =>
                          match backend_close (entry_backend entry), firstErr with
                          | Some err, None => Some err
                          | _, _ => firstErr
                          end) entries (@None error) = None).
  { induction entries as [|e entries IH]; [done|]. cbn [fold_left].
    by destruct (entry_backend e). }
  unfold Server_Close, bind, ret. rewrite Hnone. destruct shared as [sh|].
  - destruct (closeAll_spec (connections (state_dispatcher sh)) w)
      as (w' & new & Hrun & Hext & Hop & Hcl).
    exists w', new. unfold sessionState_close. by rewrite Hrun.
  - exists w, []. split; [done|]. split; [apply extends_refl|]. done.
Qed.

(** ** Cursors *)

(** X22: wrapped cursors do not collide: two non-empty cursors wrapped for two
    variants give the same text only when the cursors and the variants
    are the same (all of them valid UTF-8); and a wrapped cursor is empty
    exactly when the inner cursor is. *)
Theorem wrapCursor_is_injective c v c' v' :
  validUTF8 c -> validUTF8 v -> validUTF8 c' -> validUTF8 v' ->
  (wrapCursor c v = "" <-> c = "")
  /\ (c <> "" -> wrapCursor c v = wrapCursor c' v' -> c = c' /\ v = v').
Proof.
  intros Hc Hv Hc' Hv'.
  assert (Hempty : forall x y, x <> "" -> wrapCursor x y <> "").
  { intros x y Hx. unfold wrapCursor. rewrite bool_decide_eq_false_2 by done.
    apply base64_EncodeToString_nonempty, Marshal_nonempty. }
  split.
  - split; [|by intros ->]. intros Hw.
    destruct (decide (c = "")) as [|Hne]; [done|]. by destruct (Hempty c v Hne).
  - intros Hne Heq.
    assert (Hne' : c' <> "").
    { intros ->. change (wrapCursor "" v') with "" in Heq. by apply (Hempty c v). }
    pose proof (unwrapCursor_wrapCursor c v v Hv Hc Hne) as H1.
    rewrite Heq, unwrapCursor_wrapCursor in H1 by done.
    rewrite (bool_decide_eq_false_2 (v <> v)) in H1 by (intros H; by apply H).
    case_bool_decide as Hvv; [done|].
    injection H1 as ->. split; [done|].
    destruct (decide (v' = v)) as [->|Hd]; [done|]. by destruct Hvv.
Qed.

Lemma wrapCursor_is_injective_witness :
  (wrapCursor "page2" "coding" = "" <-> "page2" = "")
  /\ ("page2" <> "" -> wrapCursor "page2" "coding" = wrapCursor "page2" "compact" ->
      "page2" = "page2" /\ "coding" = "compact").
Proof.
  apply (wrapCursor_is_injective "page2" "coding" "page2" "compact"); reflexivity.
Defined.

(** ** Client hints *)

(** X17: the hints a client puts under the extension key of its experimental
    capabilities are the hints [extractVariantHints] returns, whatever
    else the maps hold; a request without experimental capabilities,
    without an entry under the extension key, or whose [variantHints] is
    no object gives empty hints. *)
Theorem extractVariantHints_reads_the_extension ss meta experimental extension vh :
  let req c := mkRequest ss (Some (mkParams meta (PInitialize c))) in
  let sent := Some (mkClientCapabilities
                      (Some (<[extensionID := AMap (<["variantHints" := vh]> extension)]>
                               experimental))) in
  (forall d h other,
     vh = AMap (<["description" := AStr d]> (<["hints" := AMap h]> other)) ->
     extractVariantHints (req sent) = mkVariantHints d (Some h))
  /\ ((forall m, vh <> AMap m) -> extractVariantHints (req sent) = noHints)
  /\ extractVariantHints (req None) = noHints
  /\ extractVariantHints (req (Some (mkClientCapabilities None))) = noHints
  /\ (experimental !! extensionID = None ->
      extractVariantHints (req (Some (mkClientCapabilities (Some experimental))))
      = noHints).
Proof.
  cbv zeta. unfold extractVariantHints. cbn. rewrite lookup_insert_eq.
  rewrite lookup_insert_eq. split_and!; try done.
  - intros d h other ->. rewrite lookup_insert_eq.
    rewrite lookup_insert_ne by done. by rewrite lookup_insert_eq.
  - intros Hvh. destruct vh; try done. by destruct (Hvh m).
  - by intros ->.
Qed.

(** ** What a routed request does to the world *)

Lemma getSession_connection d req id session :
  getSession d req = inr (id, session) ->
  exists conn, connections d !! id = Some conn /\ clientSession conn = session.
Proof.
  unfold getSession.
  destruct (if bool_decide (variantIDFromMeta req = "") then _ else _)
    as [err|id']; [done|].
  destruct (connections d !! id') as [conn|] eqn:Hconn; [|done].
  intros [= <- <-]. eauto.
Qed.

Lemma forwardReply_world v wrapNext r out w w' :
  forwardReply v wrapNext r w = Ok (out, w') -> w' = w.
Proof.
  unfold forwardReply, bind, liftResult, ret.
  destruct r as [err|[[items nextc|init|a]|]];
    [destruct (enrichError err v)|destruct (wrapNext && _)|..];
    try done; by intros [= _ <-].
Qed.

Lemma call_then_forward session method p v wrapNext f out w w' :
  (do r <- call session method p; forwardReply v wrapNext (f r)) w = Ok (out, w') ->
  w' = called w session method p.
Proof.
  unfold bind at 1, call. intros H. by apply forwardReply_world in H.
Qed.

(** X6: a routed request never opens or closes a session and never touches
    the state of a front session: it leaves the world as it was, or adds
    to the trace one request, of the same method, on the client session
    of a connection of the dispatcher. *)
Theorem routed_request_makes_at_most_one_call d method req next w out w' :
  method ∈ routedMethods ->
  handle d method req next w = Ok (out, w') ->
  w' = w
  \/ exists id conn p, connections d !! id = Some conn
       /\ w' = called w (clientSession conn) method p.
Proof.
  intros Hm Hrun.
  destruct (getSession d req) as [err|[id session]] eqn:Hg.
  { rewrite (handle_getSession_error d method req next w err Hm Hg) in Hrun.
    left. by injection Hrun as _ <-. }
  destruct (getSession_connection d req id session Hg) as (conn & Hconn & <-).
  assert (Hcalled : forall p, w' = called w (clientSession conn) method p ->
            w' = w \/ exists id conn p, connections d !! id = Some conn
                        /\ w' = called w (clientSession conn) method p).
  { intros p ->. right. by exists id, conn, p. }
  method_cases Hm; revert Hrun; route_method; rewrite Hg; unfold listCase;
    destruct (GetParams req) as [[meta pbody]|]; try destruct pbody;
    repeat case_bool_decide;
    try match goal with
        | |- context [unwrapCursor ?a ?b] =>
            destruct (unwrapCursor a b) as [inner [cerr|]]
        end;
    intros Hrun;
    first [ left; by injection Hrun as _ <-
          | eapply Hcalled, (call_then_forward _ _ _ _ _ (fun r => r)), Hrun
          | eapply Hcalled, (call_then_forward _ _ _ _ _ withoutResult), Hrun ].
Qed.

Lemma routed_request_makes_at_most_one_call_witness :
  called quietWorld 3 "tools/call"
    (Some (mkParams (Some (selecting "compact")) (PCallTool "analyze_code" (AMap ∅))))
  = quietWorld
  \/ exists id conn p, connections testDispatcher !! id = Some conn
       /\ called quietWorld 3 "tools/call"
            (Some (mkParams (Some (selecting "compact"))
                            (PCallTool "analyze_code" (AMap ∅))))
          = called quietWorld (clientSession conn) "tools/call" p.
Proof.
  apply (routed_request_makes_at_most_one_call testDispatcher "tools/call"
           (callToolSelecting "compact") sdkHandler quietWorld
           (inr (Some (RList (AList []) "")))).
  - apply (bool_decide_unpack _). by vm_compute.
  - unfold handle, handleCall. decide_closed.
    assert (Hg : getSession testDispatcher (callToolSelecting "compact")
                 = inr ("compact", 3%nat)) by (by vm_compute).
    rewrite Hg. reflexivity.
Defined.

(** ** A dispatcher without default *)

(** X8: when the ranking with empty hints is empty (no variant is registered,
    or the ranking function returns none), a routed request without
    selector is answered with the plain error [no variants available],
    and no inner session is sent anything. *)
Theorem no_default_without_ranked_variants d method req next w :
  method ∈ routedMethods ->
  variantIDFromMeta req = "" ->
  RankedVariants (server d) noHints = [] ->
  handle d method req next w = Ok (inl (ErrText "no variants available"), w).
Proof.
  intros Hm Hsel Hranked. apply handle_getSession_error; [done|].
  unfold getSession. rewrite Hsel, bool_decide_eq_true_2 by done.
  by rewrite Hranked.
Qed.

Lemma no_default_without_ranked_variants_witness :
  handle (mkDispatcher (WithRanking (registered testVariantServer) (Some (fun _ _ => [])))
                       (connections testDispatcher))
    "tools/list" plainListTools sdkHandler quietWorld
  = Ok (inl (ErrText "no variants available"), quietWorld).
Proof.
  apply (no_default_without_ranked_variants
           (mkDispatcher (WithRanking (registered testVariantServer)
                                      (Some (fun _ _ => [])))
                         (connections testDispatcher))
           "tools/list" plainListTools sdkHandler quietWorld).
  - apply (bool_decide_unpack _). by vm_compute.
  - reflexivity.
  - reflexivity.
Defined.

(** ** List requests without a cursor of their own *)

(** X5: a list request without parameters, or with parameters of another
    kind, is sent to the inner session with nil parameters; its
    [nextCursor] comes back wrapped like any other. *)
Theorem list_request_without_params d k req next w id session :
  getSession d req = inr (id, session) ->
  match GetParams req with
  | Some (mkParams _ (PList k' _)) => k' <> k
  | _ => True
  end ->
  handle d (listMethod k) req next w
  = match innerReply w session (listMethod k) None with
    | inr (Some (RList items nextc)) =>
        Ok (inr (Some (RList items (wrapCursor nextc id))),
            called w session (listMethod k) None)
    | inr res => Ok (inr res, called w session (listMethod k) None)
    | inl err =>
        match enrichError err id with
        | Ok enriched => Ok (inl enriched, called w session (listMethod k) None)
        | Panic msg => Panic msg
        end
    end.
Proof.
  intros Hg Hp.
  assert (Hcase : handle d (listMethod k) req next w
                  = (do r <- call session (listMethod k) None;
                     forwardReply id true r) w).
  { destruct k; cbn [listMethod]; route_method; rewrite Hg; unfold listCase;
      destruct (GetParams req) as [[meta pbody]|]; try done;
      destruct pbody; try done;
      by rewrite bool_decide_eq_false_2 by done. }
  rewrite Hcase. unfold bind, call, called.
  destruct (innerReply w session (listMethod k) None) as [err|[[items nextc|init|a]|]];
    rewrite ?forwardReply_error; try done.
  unfold forwardReply, ret. cbn [andb].
  case_bool_decide as Hn; [by subst nextc|done].
Qed.

Lemma list_request_without_params_witness :
  handle testDispatcher "resources/list" (mkRequest 7 None) sdkHandler quietWorld
  = Ok (inr (Some (RList (AList []) "")), called quietWorld 1 "resources/list" None).
Proof.
  apply (list_request_without_params testDispatcher ListResources (mkRequest 7 None)
           sdkHandler quietWorld "coding" 1).
  - by vm_compute.
  - exact I.
Defined.

(** ** Selecting a registered variant *)

(** X23: after [initialize] set up a session, a request of that session
    that selects any registered variant by its (non-empty) identifier is
    dispatched by the session's own dispatcher, which resolves it to that
    variant and to the client session of its connection. *)
Theorem registered_variant_is_selectable s next req w r0 w0 r w1 req2 meta pbody id :
  NoDup (map ID (Variants s)) ->
  next "initialize" req w = Ok (inr r0, w0) ->
  sessionMiddleware s None next "initialize" req w = Ok (inr r, w1) ->
  id ∈ map ID (Variants s) -> id <> "" ->
  GetSession req2 = GetSession req ->
  GetParams req2 = Some (mkParams (Some meta) pbody) ->
  meta !! metaKeyVariant = Some (AStr id) ->
  exists state conn,
    sessions w1 !! GetSession req = Some state
    /\ connections (state_dispatcher state) !! id = Some conn
    /\ getSession (state_dispatcher state) req2 = inr (id, clientSession conn)
    /\ forall method, method <> "initialize" ->
         sessionMiddleware s None next method req2 w1
         = handle (state_dispatcher state) method req2 next w1.
Proof.
  intros Hnd Hnext Hrun Hin Hne Hss Hp Hid.
  destruct (initialize_stateful_inv s next req w r0 w0 r w1 Hnext Hrun)
    as (state & w0' & Hcreate & -> & _).
  destruct (createSessionState_owned s _ w0 state w0' Hnd Hcreate)
    as (new & _ & _ & _ & Hdom & _).
  apply Hdom in Hin as [conn Hconn].
  exists state, conn. split; [apply lookup_insert_eq|]. split; [done|].
  split; [by apply (getSession_selected _ req2 meta pbody)|].
  intros method Hm. unfold sessionMiddleware.
  rewrite bool_decide_eq_false_2 by done. unfold bind, loadSession.
  rewrite Hss. cbn [sessions]. by rewrite lookup_insert_eq.
Qed.

Lemma registered_variant_is_selectable_witness :
  exists state conn,
    sessions (worldOf testInitialize) !! GetSession (initializeWith "") = Some state
    /\ connections (state_dispatcher state) !! "compact" = Some conn
    /\ getSession (state_dispatcher state) (callToolSelecting "compact")
       = inr ("compact", clientSession conn)
    /\ forall method, method <> "initialize" ->
         sessionMiddleware (registered testVariantServer) None sdkHandler method
           (callToolSelecting "compact") (worldOf testInitialize)
         = handle (state_dispatcher state) method (callToolSelecting "compact")
             sdkHandler (worldOf testInitialize).
Proof.
  apply (registered_variant_is_selectable (registered testVariantServer) sdkHandler
           (initializeWith "") quietWorld
           (Some (RInitialize (mkInitializeResult None ANil))) quietWorld
           (replyOf testInitialize) (worldOf testInitialize)
           (callToolSelecting "compact") (selecting "compact")
           (PCallToolRaw "analyze_code" (AMap ∅)) "compact").
  - apply (bool_decide_unpack _). by vm_compute.
  - reflexivity.
  - apply (succeeded_run testInitialize). by vm_compute.
  - apply (bool_decide_unpack _). by vm_compute.
  - discriminate.
  - reflexivity.
  - reflexivity.
  - reflexivity.
Defined.

(** ** The SDK's own handlers *)

(** X24: a routed method never reaches the next handler: what the
    dispatcher answers, and what it does, is the same whatever handler
    the front server has for the method. *)
Theorem routed_methods_never_reach_next d method req next next' w :
  method ∈ routedMethods ->
  handle d method req next w = handle d method req next' w.
Proof.
  intros Hm. method_cases Hm; unfold handle; by decide_closed.
Qed.

Lemma routed_methods_never_reach_next_witness :
  handle testDispatcher "prompts/list" plainListTools sdkHandler quietWorld
  = handle testDispatcher "prompts/list" plainListTools
      (fun _ _ => panic "not reached") quietWorld.
Proof.
  apply (routed_methods_never_reach_next testDispatcher "prompts/list" plainListTools
           sdkHandler (fun _ _ => panic "not reached") quietWorld).
  apply (bool_decide_unpack _). by vm_compute.
Defined.
